(** * eth-swap-tracker: swap decoding, USD price propagation and persistence

    A shallow embedding of [src/index.ts] (the batch aggregator and the swap
    decoder) and of [src/webhooksUtil.ts] (the price propagation graph, the
    oracle fallback and the persistence loop), followed by the properties
    the specification states about them.

    Conventions.
    - A JavaScript [Map] that is only accessed through [has]/[get]/[set] is a
      [gmap]; an array used as a stack keeps the array order ([push] appends,
      [pop] removes the last element).
    - Code that can throw returns an [Outcome]; [await] on a rejected promise
      is a [Throw].
    - [decimal.js], [ethers], the Moralis oracle, the chain provider and the
      database client are libraries and services outside the repository:
      they are parameters of the sections below.  [DecimalJS] is a concrete
      model of the [decimal.js] defaults, used to evaluate the code on
      concrete batches. *)

From Stdlib Require Import ZArith NArith String DecimalString Lia.
From stdpp Require Import gmap strings list fin_maps fin_sets.

Open Scope string_scope.
Open Scope list_scope.

(** ** Outcomes of fallible code *)

Inductive JsError : Type :=
| TypeError (msg : string)
| RangeError (msg : string)
| DecimalError (msg : string)
| ExternalError (msg : string).

Inductive Outcome (A : Type) : Type :=
| Done (a : A)
| Throw (e : JsError)
| OutOfFuel.

Arguments Done {A} a.
Arguments Throw {A} e.
Arguments OutOfFuel {A}.

#[export] Instance Outcome_ret : MRet Outcome := fun A a => Done a.

#[export] Instance Outcome_bind : MBind Outcome := fun A B f m =>
  match m with
  | Done a => f a
  | Throw e => Throw e
  | OutOfFuel => OutOfFuel
  end.

(** [try { body } catch (err) { handler(err) }] *)
Definition try_catch {A} (body : Outcome A) (handler : JsError -> Outcome A)
  : Outcome A :=
  match body with
  | Throw e => handler e
  | other => other
  end.

(** [Array.prototype.pop]: the last element and the remaining array. *)
Fixpoint pop {A} (l : list A) : option (list A * A) :=
  match l with
  | [] => None
  | x :: l' =>
      match pop l' with
      | None => Some ([], x)
      | Some (r, y) => Some (x :: r, y)
      end
  end.

(** ** The decimal library

    The operations of [decimal.js] the two source files call. *)

Class DecimalOps (D : Type) : Type := {
  (** [new Decimal(1.0)] and [new Decimal(0)] *)
  Dec_one : D;
  Dec_zero : D;
  (** [x.times(y)], [x.dividedBy(y)], [x.abs()], [x.isPositive()],
      [x.isZero()], [x.toString()] *)
  times : D -> D -> D;
  dividedBy : D -> D -> D;
  Dec_abs : D -> D;
  isPositive : D -> bool;
  isZero : D -> bool;
  toString : D -> string;
  (** [new Decimal(ethers.formatUnits(v, decimals))] for a [bigint] [v] *)
  ofUnits : Z -> nat -> D;
}.

(** What the decoder and the sink rely on. *)
Class DecimalLaws (D : Type) `{DecimalOps D} : Prop := {
  isPositive_ofUnits : forall v d, isPositive (ofUnits v d) = (0 <=? v)%Z;
  abs_ofUnits : forall v d, Dec_abs (ofUnits v d) = ofUnits (Z.abs v) d;
  isZero_ofUnits : forall v d, isZero (ofUnits v d) = (v =? 0)%Z;
  isZero_zero : isZero Dec_zero = true;
  toString_zero : forall x, isZero x = true -> toString x = "0";
}.

(** ** A model of decimal.js with its default configuration

    [precision = 20] significant digits, [rounding = ROUND_HALF_UP],
    [toExpNeg = -7], [toExpPos = 21], [maxE = 9e15], [minE = -9e15].
    A finite value is [(-1)^neg * coef * 10^e10], kept with no trailing zero
    in [coef] (zero is [coef = 0], [e10 = 0]), so that equal values are
    equal terms. *)

Module DecimalJS.

Inductive t : Type :=
| NaN
| Infinity (neg : bool)
| Finite (neg : bool) (coef : N) (e10 : Z).

Definition precision : nat := 20.
Definition toExpNeg : Z := -7.
Definition toExpPos : Z := 21.
Definition maxE : Z := 9000000000000000.
Definition minE : Z := -9000000000000000.

(** Number of decimal digits of [n] (1 for 0). *)
Fixpoint ndigits_fuel (fuel : nat) (n : N) : nat :=
  match fuel with
  | O => 1
  | S f => if (n <? 10)%N then 1 else S (ndigits_fuel f (n / 10)%N)
  end.

Definition ndigits (n : N) : nat := ndigits_fuel (N.size_nat n) n.

(** Drop the trailing zeros of a non-zero coefficient. *)
Fixpoint strip_fuel (fuel : nat) (c : N) (e : Z) : N * Z :=
  match fuel with
  | O => (c, e)
  | S f =>
      if (c mod 10 =? 0)%N then strip_fuel f (c / 10)%N (e + 1)%Z else (c, e)
  end.

Definition normalise (neg : bool) (c : N) (e : Z) : t :=
  if (c =? 0)%N then Finite neg 0 0
  else let '(c', e') := strip_fuel (N.size_nat c) c e in Finite neg c' e'.

(** Round the magnitude to [sd] significant digits, ties away from zero. *)
Definition round_half_up (sd : nat) (c : N) (e : Z) : N * Z :=
  let nd := ndigits c in
  if (nd <=? sd)%nat then (c, e)
  else
    let k := N.of_nat (nd - sd) in
    let q := (c / 10 ^ k)%N in
    let r := (c mod 10 ^ k)%N in
    ((if (10 ^ k <=? 2 * r)%N then q + 1 else q)%N, (e + Z.of_N k)%Z).

(** [finalise]: round, then overflow to infinity or underflow to zero on the
    exponent of the leading digit. *)
Definition finalise (neg : bool) (c : N) (e : Z) : t :=
  if (c =? 0)%N then Finite neg 0 0
  else
    let '(c1, e1) := round_half_up precision c e in
    let lead := (e1 + Z.of_nat (ndigits c1) - 1)%Z in
    if (maxE <? lead)%Z then Infinity neg
    else if (lead <? minE)%Z then Finite neg 0 0
    else normalise neg c1 e1.

Definition times (x y : t) : t :=
  match x, y with
  | NaN, _ | _, NaN => NaN
  | Infinity a, Infinity b => Infinity (xorb a b)
  | Infinity a, Finite b c _ | Finite b c _, Infinity a =>
      if (c =? 0)%N then NaN else Infinity (xorb a b)
  | Finite a c1 e1, Finite b c2 e2 =>
      finalise (xorb a b) (c1 * c2)%N (e1 + e2)%Z
  end.

Definition dividedBy (x y : t) : t :=
  match x, y with
  | NaN, _ | _, NaN => NaN
  | Infinity _, Infinity _ => NaN
  | Infinity a, Finite b _ _ => Infinity (xorb a b)
  | Finite a _ _, Infinity b => Finite (xorb a b) 0 0
  | Finite a c1 e1, Finite b c2 e2 =>
      if (c2 =? 0)%N then
        if (c1 =? 0)%N then NaN else Infinity (xorb a b)
      else if (c1 =? 0)%N then Finite (xorb a b) 0 0
      else
        (* enough quotient digits for a correctly rounded result *)
        let s := N.of_nat (precision + 1 + ndigits c2) in
        finalise (xorb a b) (c1 * 10 ^ s / c2)%N (e1 - e2 - Z.of_N s)%Z
  end.

Definition abs (x : t) : t :=
  match x with
  | NaN => NaN
  | Infinity _ => Infinity false
  | Finite _ c e => Finite false c e
  end.

(** [this.s > 0] *)
Definition isPositive (x : t) : bool :=
  match x with
  | NaN => false
  | Infinity neg | Finite neg _ _ => negb neg
  end.

Definition isZero (x : t) : bool :=
  match x with
  | Finite _ c _ => (c =? 0)%N
  | _ => false
  end.

Definition digits_string (n : N) : string :=
  NilEmpty.string_of_uint (N.to_uint n).

Definition Z_string (z : Z) : string :=
  if (z <? 0)%Z then "-" +:+ digits_string (Z.abs_N z)
  else digits_string (Z.to_N z).

Fixpoint getZeroString (k : nat) : string :=
  match k with
  | O => ""
  | S k' => "0" +:+ getZeroString k'
  end.

(** [finiteToString(x, isExp)] on the magnitude. *)
Definition finiteToString (c : N) (e10 : Z) : string :=
  let str := digits_string c in
  let len := String.length str in
  let e := (e10 + Z.of_nat len - 1)%Z in
  if ((e <=? toExpNeg) || (toExpPos <=? e))%Z then
    (if (1 <? len)%nat
     then substring 0 1 str +:+ "." +:+ substring 1 (len - 1) str
     else str)
    +:+ (if (e <? 0)%Z then "e" else "e+") +:+ Z_string e
  else if (e <? 0)%Z then
    "0." +:+ getZeroString (Z.to_nat (- e - 1)) +:+ str
  else if (Z.of_nat len <=? e)%Z then
    str +:+ getZeroString (Z.to_nat (e + 1) - len)
  else
    let k := Z.to_nat (e + 1) in
    if (k <? len)%nat
    then substring 0 k str +:+ "." +:+ substring k (len - k) str
    else str.

Definition toString (x : t) : string :=
  match x with
  | NaN => "NaN"
  | Infinity neg => if neg then "-Infinity" else "Infinity"
  | Finite neg c e =>
      if (c =? 0)%N then "0"
      else (if neg then "-" else "") +:+ finiteToString c e
  end.

(** [new Decimal(n)] for a non-negative integer literal. *)
Definition ofN (n : N) : t := normalise false n 0.

(** [ethers.formatUnits(v, d)] prints [v / 10^d] exactly and the [Decimal]
    constructor does not round. *)
Definition ofUnits (v : Z) (d : nat) : t :=
  normalise (v <? 0)%Z (Z.abs_N v) (- Z.of_nat d).

End DecimalJS.

#[export] Instance DecimalJS_ops : DecimalOps DecimalJS.t := {|
  Dec_one := DecimalJS.ofN 1;
  Dec_zero := DecimalJS.ofN 0;
  times := DecimalJS.times;
  dividedBy := DecimalJS.dividedBy;
  Dec_abs := DecimalJS.abs;
  isPositive := DecimalJS.isPositive;
  isZero := DecimalJS.isZero;
  toString := DecimalJS.toString;
  ofUnits := DecimalJS.ofUnits;
|}.

(** ** webhooksUtil.ts: the price propagation graph *)

(** A JavaScript string is truthy unless it is empty. *)
Definition truthy (s : string) : bool :=
  match s with
  | EmptyString => false
  | String _ _ => true
  end.

(** The array literal that initialises [stack] in [fillUSDAmounts]. *)
Definition anchors : list string :=
  ["GHO"; "GRAI"; "SEUR"; "aUSDC"; "BUSD"; "GUSD"; "CRVUSD"; "EUSD"; "aUSDT";
   "USDP"; "TUSD"; "MIM"; "EURA"; "TAI"; "XAI"; "USDD"; "BOB"; "PUSd"; "EUSD";
   "DAI"; "VEUR"; "DOLA"; "FRAX"; "anyCRU"; "anyETH"; "MXNt"; "LUSD"; "SUSD";
   "USDC"; "USDT"; "WETH"].

(** Values bound to the parameters of the [INSERT] statement. *)
Inductive SqlParam : Type :=
| PNumber (n : Z)
| PText (s : string)
| PUndefined.

(** [(0).toString()] *)
Definition Number_zero_toString : string := "0".

Section WebhooksUtil.

Context {D : Type} `{DecimalOps D}.

(** One side of a swap: [{ id, symbol, amount, value_in_usd,
    total_exchanged_usd }].  The events are untyped objects ([{}[]]); a
    field the code guards with [??] or never writes may be missing. *)
Record Leg : Type := {
  id : string;
  symbol : string;
  amount : option D;
  value_in_usd : option D;
  total_exchanged_usd : option D;
}.

Record SwapEvent : Type := {
  blockNumber : Z;
  blockHash : string;
  transactionHash : string;
  fromAddress : option string;
  token0 : Leg;
  token1 : Leg;
}.

(** An adjacency entry [{ symbol: B, ratio: ratio }]. *)
Record Edge : Type := {
  edge_symbol : string;
  ratio : D;
}.

Definition addEdge (graph : gmap string (list Edge)) (A B : string)
    (r : D) : gmap string (list Edge) :=
  match graph !! A with
  | Some adj => <[A := adj ++ [{| edge_symbol := B; ratio := r |}]]> graph
  | None => <[A := [{| edge_symbol := B; ratio := r |}]]> graph
  end.

(** [x.dividedBy(y)] on fields that may be missing: a missing receiver is a
    [TypeError], a missing argument is rejected by the [Decimal]
    constructor. *)
Definition js_dividedBy (x y : option D) : Outcome D :=
  match x, y with
  | None, _ => Throw (TypeError "reading 'dividedBy' of undefined")
  | Some _, None => Throw (DecimalError "Invalid argument: undefined")
  | Some a, Some b => Done (dividedBy a b)
  end.

Definition js_times (x : D) (y : option D) : Outcome D :=
  match y with
  | None => Throw (DecimalError "Invalid argument: undefined")
  | Some b => Done (times x b)
  end.

(** Body of the first [for (var se of swapEvents)] loop. *)
Definition add_swap_edges (graph : gmap string (list Edge)) (se : SwapEvent)
    : Outcome (gmap string (list Edge)) :=
  if truthy (symbol (token0 se)) && truthy (symbol (token1 se)) then
    r01 ← js_dividedBy (amount (token0 se)) (amount (token1 se));
    let graph1 := addEdge graph (symbol (token0 se)) (symbol (token1 se)) r01 in
    r10 ← js_dividedBy (amount (token1 se)) (amount (token0 se));
    Done (addEdge graph1 (symbol (token1 se)) (symbol (token0 se)) r10)
  else Done graph.

Fixpoint build_graph (graph : gmap string (list Edge))
    (swapEvents : list SwapEvent) : Outcome (gmap string (list Edge)) :=
  match swapEvents with
  | [] => Done graph
  | se :: rest =>
      graph1 ← add_swap_edges graph se;
      build_graph graph1 rest
  end.

(** [symbol2USD.set("WETH", ETH2USD)] followed by
    [for (i = 0; i < stack.length - 1; ++i) symbol2USD.set(stack[i], 1.0)]. *)
Definition seed_prices (stack : list string) (ETH2USD : D) : gmap string D :=
  fold_left (fun m s => <[s := Dec_one]> m)
            (take (length stack - 1) stack)
            (<["WETH" := ETH2USD]> ∅).

(** The inner [for (var right of graph.get(symbol))] loop. *)
Fixpoint relax (sym : string) (adj : list Edge)
    (symbol2USD : gmap string D) (stack : list string)
    : Outcome (gmap string D * list string) :=
  match adj with
  | [] => Done (symbol2USD, stack)
  | edge :: rest =>
      match symbol2USD !! edge_symbol edge with
      | Some _ => relax sym rest symbol2USD stack
      | None =>
          match symbol2USD !! sym with
          | None => Throw (TypeError "reading 'times' of undefined")
          | Some p =>
              relax sym rest
                    (<[edge_symbol edge := times p (ratio edge)]> symbol2USD)
                    (stack ++ [edge_symbol edge])
          end
      end
  end.

(** The [while (stack.length > 0)] loop; each iteration consumes one unit
    of [fuel]. *)
Fixpoint traverse (fuel : nat) (graph : gmap string (list Edge))
    (symbol2USD : gmap string D) (stack : list string)
    : Outcome (gmap string D) :=
  match pop stack with
  | None => Done symbol2USD
  | Some (stack1, sym) =>
      match fuel with
      | O => OutOfFuel
      | S fuel' =>
          match graph !! sym with
          | None => traverse fuel' graph symbol2USD stack1
          | Some adj =>
              '(symbol2USD1, stack2) ← relax sym adj symbol2USD stack1;
              traverse fuel' graph symbol2USD1 stack2
          end
      end
  end.

(** Iterations that are always enough: every one pops a symbol, and a
    symbol is pushed only when one of the at most [2 * n] leg symbols of
    the batch receives its price. *)
Definition traverse_fuel (stack : list string) (swapEvents : list SwapEvent)
    : nat :=
  length stack + 2 * length swapEvents.

(** *** The oracle *)

(** [Moralis.EvmApi.token.getTokenPrice(...)].raw.usdPrice; [None] when the
    request (or [Moralis.start]) throws. *)
Context (Moralis_getTokenPrice : string -> option D).

(** A [Decimal] object on the heap.  [==] between two objects compares the
    references, not the numbers. *)
Record DecimalRef : Type := {
  ref : nat;
  deref : D;
}.

(** [new Decimal(v)]: a fresh object, and the next free reference. *)
Definition new_Decimal (v : D) (next_ref : nat) : DecimalRef * nat :=
  ({| ref := next_ref; deref := v |}, S next_ref).

Definition loose_equals (a b : DecimalRef) : bool :=
  Nat.eqb (ref a) (ref b).

Definition getEthereumTokenUSD (token_address : string) (next_ref : nat)
    : DecimalRef * nat :=
  match Moralis_getTokenPrice token_address with
  | Some usdPrice => new_Decimal usdPrice next_ref
  | None => (* catch (e) *) new_Decimal Dec_zero next_ref
  end.

(** *** The second loop: apply prices, with oracle fallback on leg 0 *)

Record PricingState : Type := {
  symbol2USD : gmap string D;
  stack : list string;
  (** addresses passed to [getEthereumTokenUSD], in call order *)
  oracle_calls : list string;
  next_ref : nat;
}.

(** [leg.value_in_usd = price;
     leg.total_exchanged_usd = leg.value_in_usd.times(leg.amount)] *)
Definition assign_usd (price : D) (leg : Leg) : Outcome Leg :=
  total ← js_times price (amount leg);
  Done {| id := id leg; symbol := symbol leg; amount := amount leg;
          value_in_usd := Some price; total_exchanged_usd := Some total |}.

Definition with_legs (se : SwapEvent) (t0 t1 : Leg) : SwapEvent :=
  {| blockNumber := blockNumber se; blockHash := blockHash se;
     transactionHash := transactionHash se; fromAddress := fromAddress se;
     token0 := t0; token1 := t1 |}.

(** [if (symbol2USD.has(token0.symbol)) { ...token0...;
      if (symbol2USD.has(token1.symbol)) { ...token1... } }] *)
Definition apply_prices (prices : gmap string D) (se : SwapEvent)
    : Outcome SwapEvent :=
  match prices !! symbol (token0 se) with
  | None => Done se
  | Some p0 =>
      t0 ← assign_usd p0 (token0 se);
      match prices !! symbol (token1 se) with
      | None => Done (with_legs se t0 (token1 se))
      | Some p1 =>
          t1 ← assign_usd p1 (token1 se);
          Done (with_legs se t0 t1)
      end
  end.

(** One iteration of [for (var i = 0; i < swapEvents.length; ++i)]. *)
Definition visit (fuel : nat) (graph : gmap string (list Edge))
    (se : SwapEvent) (st : PricingState) : Outcome (SwapEvent * PricingState) :=
  match symbol2USD st !! symbol (token0 se) with
  | Some _ =>
      se1 ← apply_prices (symbol2USD st) se;
      se2 ← apply_prices (symbol2USD st) se1;
      Done (se2, st)
  | None =>
      let stack1 := stack st ++ [symbol (token0 se)] in
      let '(usdPrice, next1) :=
        getEthereumTokenUSD (id (token0 se)) (next_ref st) in
      let calls := oracle_calls st ++ [id (token0 se)] in
      let '(zero, next2) := new_Decimal Dec_zero next1 in
      if loose_equals usdPrice zero then
        (* stack.pop(); continue; *)
        Done (se, {| symbol2USD := symbol2USD st;
                     stack := from_option fst [] (pop stack1);
                     oracle_calls := calls; next_ref := next2 |})
      else
        let prices1 := <[symbol (token0 se) := deref usdPrice]> (symbol2USD st) in
        prices2 ← traverse fuel graph prices1 stack1;
        se1 ← apply_prices prices2 se;
        Done (se1, {| symbol2USD := prices2; stack := [];
                      oracle_calls := calls; next_ref := next2 |})
  end.

Fixpoint price_events (fuel : nat) (graph : gmap string (list Edge))
    (swapEvents : list SwapEvent) (st : PricingState)
    : Outcome (list SwapEvent * PricingState) :=
  match swapEvents with
  | [] => Done ([], st)
  | se :: rest =>
      '(se', st1) ← visit fuel graph se st;
      '(rest', st2) ← price_events fuel graph rest st1;
      Done (se' :: rest', st2)
  end.

(** [fillUSDAmounts] up to the end of the second loop: the enriched events
    and the final price map. *)
Definition price_batch (swapEvents : list SwapEvent) (ETH2USD : D)
    : Outcome (list SwapEvent * PricingState) :=
  graph ← build_graph ∅ swapEvents;
  let fuel := traverse_fuel anchors swapEvents in
  prices ← traverse fuel graph (seed_prices anchors ETH2USD) anchors;
  price_events fuel graph swapEvents
    {| symbol2USD := prices; stack := []; oracle_calls := []; next_ref := 0 |}.

(** *** Persistence *)

(** [(x ?? 0).toString()] *)
Definition nullish_zero_toString (x : option D) : string :=
  match x with
  | Some d => toString d
  | None => Number_zero_toString
  end.

Definition from_nullable (x : option string) : SqlParam :=
  match x with
  | Some s => PText s
  | None => PUndefined
  end.

(** The [values] array of one row. *)
Definition row_values (ETH2USD : option D) (block_timestamp : string)
    (event : SwapEvent) : list SqlParam :=
  [ PNumber (blockNumber event);
    PText (blockHash event);
    PText (transactionHash event);
    from_nullable (fromAddress event);
    PText (id (token0 event));
    PText (symbol (token0 event));
    PText (nullish_zero_toString (amount (token0 event)));
    PText (nullish_zero_toString (value_in_usd (token0 event)));
    PText (nullish_zero_toString (total_exchanged_usd (token0 event)));
    PText (id (token1 event));
    PText (symbol (token1 event));
    PText (nullish_zero_toString (amount (token1 event)));
    PText (nullish_zero_toString (value_in_usd (token1 event)));
    PText (nullish_zero_toString (total_exchanged_usd (token1 event)));
    PText (nullish_zero_toString ETH2USD);
    PText block_timestamp ].

(** [client.query(query, values)]: the answer of the store to the [n]-th
    call of the batch ([None]: the row was written). *)
Context (client_query : nat -> list SqlParam -> option JsError).

Record SinkState : Type := {
  (** rows handed to [client.query], in order *)
  attempted : list (list SqlParam);
  (** rows the store accepted *)
  saved : list (list SqlParam);
  (** arguments of [console.error('Error saving event', err)] *)
  console_error : list JsError;
}.

Definition await_query (values : list SqlParam) (sink : SinkState)
    : Outcome SinkState :=
  let sink1 := {| attempted := attempted sink ++ [values];
                  saved := saved sink;
                  console_error := console_error sink |} in
  match client_query (length (attempted sink)) values with
  | None => Done {| attempted := attempted sink1;
                    saved := saved sink1 ++ [values];
                    console_error := console_error sink1 |}
  | Some err => (* the promise rejects; the row was still attempted *)
      Throw err
  end.

(** Body of [for (const event of swapEvents)]. *)
Definition persist_row (ETH2USD : option D) (block_timestamp : string)
    (event : SwapEvent) (sink : SinkState) : Outcome SinkState :=
  let values := row_values ETH2USD block_timestamp event in
  try_catch (await_query values sink)
    (fun err =>
       Done {| attempted := attempted sink ++ [values];
               saved := saved sink;
               console_error := console_error sink ++ [err] |}).

Fixpoint persist (ETH2USD : option D) (block_timestamp : string)
    (swapEvents : list SwapEvent) (sink : SinkState) : Outcome SinkState :=
  match swapEvents with
  | [] => Done sink
  | event :: rest =>
      sink1 ← persist_row ETH2USD block_timestamp event sink;
      persist ETH2USD block_timestamp rest sink1
  end.

(** [new Date(parseInt((await web3.eth.getBlock(n)).timestamp) * 1000)
    .toISOString()] *)
Context (getBlock_timestamp : Z -> Outcome string).

Definition empty_sink : SinkState :=
  {| attempted := []; saved := []; console_error := [] |}.

Definition fillUSDAmounts (swapEvents : list SwapEvent) (ETH2USD : D)
    : Outcome (option (list SwapEvent * PricingState * SinkState)) :=
  match swapEvents with
  | [] => Done None
  | first :: _ =>
      '(events, st) ← price_batch swapEvents ETH2USD;
      block_timestamp ← getBlock_timestamp (blockNumber first);
      sink ← persist (Some ETH2USD) block_timestamp events empty_sink;
      Done (Some (events, st, sink))
  end.

End WebhooksUtil.

Arguments Leg D : clear implicits.
Arguments SwapEvent D : clear implicits.
Arguments Edge D : clear implicits.
Arguments DecimalRef D : clear implicits.
Arguments PricingState D : clear implicits.
Arguments SinkState : clear implicits.

(** ** webhooksUtil.ts, earlier revision: the persistence loop

    The revision without the oracle fallback writes fifteen columns, takes
    the [timestamp] from the event itself and prints the decimal fields
    with a bare [.toString()]. *)

Module Revision1.

Section Persistence.

Context {D : Type} `{DecimalOps D}.

Record StampedEvent : Type := {
  event : SwapEvent D;
  timestamp : option string;
}.

(** [x.toString()] on a field that may be missing. *)
Definition js_toString (x : option D) : Outcome string :=
  match x with
  | Some d => Done (toString d)
  | None => Throw (TypeError "reading 'toString' of undefined")
  end.

(** The [values] array of one row; its elements are evaluated in
    order. *)
Definition row_values (ETH2USD : D) (e : StampedEvent)
    : Outcome (list SqlParam) :=
  token0_amount ← js_toString (amount (token0 (event e)));
  token0_value_in_usd ← js_toString (value_in_usd (token0 (event e)));
  token0_total_exchanged_usd ←
    js_toString (total_exchanged_usd (token0 (event e)));
  token1_amount ← js_toString (amount (token1 (event e)));
  token1_value_in_usd ← js_toString (value_in_usd (token1 (event e)));
  token1_total_exchanged_usd ←
    js_toString (total_exchanged_usd (token1 (event e)));
  Done [ PNumber (blockNumber (event e));
         PText (blockHash (event e));
         PText (transactionHash (event e));
         PText (id (token0 (event e)));
         PText (symbol (token0 (event e)));
         PText token0_amount;
         PText token0_value_in_usd;
         PText token0_total_exchanged_usd;
         PText (id (token1 (event e)));
         PText (symbol (token1 (event e)));
         PText token1_amount;
         PText token1_value_in_usd;
         PText token1_total_exchanged_usd;
         PText (toString ETH2USD);
         from_nullable (timestamp e) ].

Context (client_query : nat -> list SqlParam -> option JsError).

(** Body of [for (const event of swapEvents)]: the row is built before
    the [try]. *)
Definition persist_row (ETH2USD : D) (e : StampedEvent)
    (sink : SinkState) : Outcome SinkState :=
  values ← row_values ETH2USD e;
  try_catch (await_query client_query values sink)
    (fun err =>
       Done {| attempted := attempted sink ++ [values];
               saved := saved sink;
               console_error := console_error sink ++ [err] |}).

Fixpoint persist (ETH2USD : D) (swapEvents : list StampedEvent)
    (sink : SinkState) : Outcome SinkState :=
  match swapEvents with
  | [] => Done sink
  | e :: rest =>
      sink1 ← persist_row ETH2USD e sink;
      persist ETH2USD rest sink1
  end.

(** The six decimal fields the row prints. *)
Definition printable (e : StampedEvent) : Prop :=
  is_Some (amount (token0 (event e)))
  /\ is_Some (value_in_usd (token0 (event e)))
  /\ is_Some (total_exchanged_usd (token0 (event e)))
  /\ is_Some (amount (token1 (event e)))
  /\ is_Some (value_in_usd (token1 (event e)))
  /\ is_Some (total_exchanged_usd (token1 (event e))).

End Persistence.

Arguments StampedEvent D : clear implicits.

End Revision1.

(** ** index.ts: the swap decoder and the batch aggregator *)

Module Index.

Definition UNISWAP_V3_SWAP_EVENT : string :=
  "0xc42079f94a6350d7e6235f29174924f928cc2ac818eb64fed8004e115fbcca67".
Definition UNISWAP_V2_SWAP_EVENT : string :=
  "0xd78ad95fa46c994b6551d0da85fc275fe613ce37657fb8d5e3d130840159d822".

(** [{ symbol: response.symbol, decimal: response.decimals }] *)
Record Token : Type := {
  symbol : string;
  decimal : nat;
}.

Record PairToken : Type := {
  token0 : Token;
  token1 : Token;
}.

(** A log as delivered by the provider. *)
Record RawLog : Type := {
  address : string;
  topics : list string;
  data : string;
  blockNumber : Z;
  blockHash : string;
  transactionHash : string;
}.

Section Decoder.

Context {D : Type} `{DecimalOps D}.

(** [{ symbol: ..., amount: ... }] as written to [logs[i].token0] and
    [logs[i].token1]. *)
Record Leg : Type := {
  leg_symbol : string;
  leg_amount : D;
}.

(** An element of [logs]: the raw log, and the two legs once the decoder
    has written them. *)
Record LogObject : Type := {
  raw : RawLog;
  legs : option (Leg * Leg);
}.

(** The variables [main] closes over, and whether the [setTimeout]
    callback is still scheduled. *)
Record State : Type := {
  logs : list LogObject;
  pairTokens : gmap string PairToken;
  tokens : gmap string Token;
  PARSING : bool;
  ARRIVING : bool;
  timer_pending : bool;
}.

Definition set_logs (v : list LogObject) (st : State) : State :=
  {| logs := v; pairTokens := pairTokens st; tokens := tokens st;
     PARSING := PARSING st; ARRIVING := ARRIVING st;
     timer_pending := timer_pending st |}.
Definition set_pairTokens (v : gmap string PairToken) (st : State) : State :=
  {| logs := logs st; pairTokens := v; tokens := tokens st;
     PARSING := PARSING st; ARRIVING := ARRIVING st;
     timer_pending := timer_pending st |}.
Definition set_tokens (v : gmap string Token) (st : State) : State :=
  {| logs := logs st; pairTokens := pairTokens st; tokens := v;
     PARSING := PARSING st; ARRIVING := ARRIVING st;
     timer_pending := timer_pending st |}.
Definition set_PARSING (v : bool) (st : State) : State :=
  {| logs := logs st; pairTokens := pairTokens st; tokens := tokens st;
     PARSING := v; ARRIVING := ARRIVING st;
     timer_pending := timer_pending st |}.
Definition set_ARRIVING (v : bool) (st : State) : State :=
  {| logs := logs st; pairTokens := pairTokens st; tokens := tokens st;
     PARSING := PARSING st; ARRIVING := v;
     timer_pending := timer_pending st |}.
Definition set_timer_pending (v : bool) (st : State) : State :=
  {| logs := logs st; pairTokens := pairTokens st; tokens := tokens st;
     PARSING := PARSING st; ARRIVING := ARRIVING st;
     timer_pending := v |}.

(** Stateful code that may throw: an exception keeps the writes made
    before it. *)
Definition Cycle (A : Type) : Type := State -> Outcome A * State.

Definition cret {A} (a : A) : Cycle A := fun st => (Done a, st).

Definition cbind {A B} (m : Cycle A) (f : A -> Cycle B) : Cycle B :=
  fun st =>
    match m st with
    | (Done a, st1) => f a st1
    | (Throw e, st1) => (Throw e, st1)
    | (OutOfFuel, st1) => (OutOfFuel, st1)
    end.

Definition get : Cycle State := fun st => (Done st, st).
Definition modify (f : State -> State) : Cycle unit :=
  fun st => (Done tt, f st).
(** [await] on a collaborator's answer. *)
Definition await {A} (answer : Outcome A) : Cycle A :=
  fun st => (answer, st).

Notation "x <- m ;; k" := (cbind m (fun x => k))
  (at level 100, m at next level, right associativity).
Notation "m ;;; k" := (cbind m (fun _ => k))
  (at level 100, right associativity).

(** *** Collaborators *)

(** [getEthereumUSD()] *)
Context (getEthereumUSD : Outcome D).
(** [iface.parseLog(log)?.args] for the V3 signature: [amount0],
    [amount1]; [None] when [parseLog] returns [null]. *)
Context (parseLog_V3 : RawLog -> Outcome (option (Z * Z))).
(** The same for the V2 signature: [amount0In], [amount1In],
    [amount0Out], [amount1Out]. *)
Context (parseLog_V2 : RawLog -> Outcome (option (Z * Z * Z * Z))).
(** [getPairTokenSymbols(web3, pairAddress)]: the two token addresses, or
    [null] after a failed call. *)
Context (getPairTokenSymbols : string -> option (string * string)).
(** [alchemy.core.getTokenMetadata(address)]: symbol and decimals. *)
Context (getTokenMetadata : string -> Outcome (string * nat)).
(** [fillUSDAmounts(logs, ETH_LATEST_PRICE)] as called here, with the
    events it leaves behind. *)
Context (fillUSDAmounts : list LogObject -> D -> Outcome (list LogObject)).

(** *** Decoding one log *)

(** Lines 70-96.  [amount0] and [amount1] are [var]s of the function:
    a log of neither kind leaves the values of the previous iteration. *)
Definition decode_amounts (log : RawLog) (previous : option Z * option Z)
    : Outcome (option Z * option Z) :=
  match head (topics log) with
  | Some topic =>
      if String.eqb topic UNISWAP_V3_SWAP_EVENT then
        parsedLog ← parseLog_V3 log;
        match parsedLog with
        | Some (amount0, amount1) => Done (Some amount0, Some amount1)
        | None => Done (None, None)
        end
      else if String.eqb topic UNISWAP_V2_SWAP_EVENT then
        parsedLog ← parseLog_V2 log;
        match parsedLog with
        | Some (amount0In, amount1In, amount0Out, amount1Out) =>
            if (amount0In =? 0)%Z
            then Done (Some (- amount0Out)%Z, Some amount1In)
            else Done (Some amount0In, Some amount1Out)
        | None => Done (None, None)
        end
      else Done previous
  | None => Done previous
  end.

(** Lines 105-116 and 117-128: the token cache. *)
Definition resolve_token (token_address : string) : Cycle Token :=
  st <- get;;
  match tokens st !! token_address with
  | Some token => cret token
  | None =>
      response <- await (getTokenMetadata token_address);;
      let token := {| symbol := fst response; decimal := snd response |} in
      modify (fun st => set_tokens (<[token_address := token]> (tokens st)) st);;;
      cret token
  end.

(** Lines 98-130: the pair cache. *)
Definition resolve_pair (pool : string) : Cycle PairToken :=
  st <- get;;
  match pairTokens st !! pool with
  | Some pairToken => cret pairToken
  | None =>
      match getPairTokenSymbols pool with
      | None => await (Throw (TypeError "reading 'token0' of null"))
      | Some (address0, address1) =>
          t0 <- resolve_token address0;;
          t1 <- resolve_token address1;;
          let pairToken := {| token0 := t0; token1 := t1 |} in
          modify (fun st =>
                    set_pairTokens (<[pool := pairToken]> (pairTokens st)) st);;;
          cret pairToken
      end
  end.

(** [Number.MAX_SAFE_INTEGER] *)
Definition MAX_SAFE_INTEGER : Z := 9007199254740991.

(** [checkValue] for the signed format of width 512. *)
Definition fits_fixed512 (v : Z) : bool :=
  ((- 2 ^ 511 <=? v) && (v <? 2 ^ 511))%Z.

(** [new Decimal(ethers.formatUnits(amount, decimals))].  [formatUnits]
    reads [decimals] with [getNumber] and builds a [FixedNumber] of
    format [{ decimals, width: 512 }]: [getFormat] rejects more than 80
    decimals, then [getBigInt] rejects a missing value, then
    [checkValue] a value outside the signed 512-bit range.  The string
    it prints is exact and the [Decimal] constructor does not round. *)
Definition scaled (amount : option Z) (decimals : nat) : Outcome D :=
  if (MAX_SAFE_INTEGER <? Z.of_nat decimals)%Z then
    Throw (TypeError "overflow")
  else if (80 <? Z.of_nat decimals)%Z then
    Throw (TypeError "invalid FixedNumber decimals (too large)")
  else
    match amount with
    | None => Throw (TypeError "invalid BigNumberish value")
    | Some v =>
        if fits_fixed512 v then Done (ofUnits v decimals)
        else Throw (RangeError "overflow")
    end.

(** Lines 134-152: directional normalisation. *)
Definition normalise_direction (pairToken : PairToken)
    (amount0Decimal amount1Decimal : D) : Leg * Leg :=
  if isPositive amount0Decimal then
    ({| leg_symbol := symbol (token0 pairToken);
        leg_amount := amount0Decimal |},
     {| leg_symbol := symbol (token1 pairToken);
        leg_amount := Dec_abs amount1Decimal |})
  else
    ({| leg_symbol := symbol (token1 pairToken);
        leg_amount := amount1Decimal |},
     {| leg_symbol := symbol (token0 pairToken);
        leg_amount := Dec_abs amount0Decimal |}).

(** Lines 131-152 for given raw deltas. *)
Definition decode_legs (pairToken : PairToken) (amount0 amount1 : option Z)
    : Outcome (Leg * Leg) :=
  amount0Decimal ← scaled amount0 (decimal (token0 pairToken));
  amount1Decimal ← scaled amount1 (decimal (token1 pairToken));
  Done (normalise_direction pairToken amount0Decimal amount1Decimal).

(** The body of the [for] loop at index [i]. *)
Definition decode_log (i : nat) (previous : option Z * option Z)
    : Cycle (option Z * option Z) :=
  st <- get;;
  match logs st !! i with
  | None => await (Throw (TypeError "reading 'topics' of undefined"))
  | Some log =>
      amounts <- await (decode_amounts (raw log) previous);;
      pairToken <- resolve_pair (address (raw log));;
      decoded <- await (decode_legs pairToken (fst amounts) (snd amounts));;
      modify (fun st =>
                set_logs (<[i := {| raw := raw log; legs := Some decoded |}]>
                            (logs st)) st);;;
      cret amounts
  end.

Fixpoint decode_logs (indices : list nat) (previous : option Z * option Z)
    : Cycle unit :=
  match indices with
  | [] => cret tt
  | i :: rest =>
      amounts <- decode_log i previous;;
      decode_logs rest amounts
  end.

(** *** The processing cycle and the arrival handler *)

Definition parseSwapEvents : Cycle unit :=
  modify (set_PARSING true);;;
  modify (set_ARRIVING false);;;
  ETH_LATEST_PRICE <- await getEthereumUSD;;
  st <- get;;
  decode_logs (seq 0 (length (logs st))) (None, None);;;
  st <- get;;
  enriched <- await (fillUSDAmounts (logs st) ETH_LATEST_PRICE);;
  modify (set_logs enriched);;;
  modify (set_PARSING false).

(** The callback of [alchemy.ws.on(filter, ...)]. *)
Definition on_log (log : RawLog) (st : State) : State :=
  if PARSING st then st
  else
    let st1 := if ARRIVING st then st
               else set_ARRIVING true (set_logs [] st) in
    (* clearTimeout(timer); timer = setTimeout(parseSwapEvents, 300) *)
    let st2 := set_timer_pending true st1 in
    set_logs (logs st2 ++ [{| raw := log; legs := None |}]) st2.

(** What the event loop can deliver: a log, or the expiry of the quiet
    period.  While a cycle is suspended at an [await] only [on_log] can
    run, and it returns at once because [PARSING] is set; no timer is
    scheduled at that point.  A cycle is therefore one step. *)
Inductive Delivery : Type :=
| Arrival (log : RawLog)
| TimerFired.

Definition deliver (d : Delivery) (st : State) : State :=
  match d with
  | Arrival log => on_log log st
  | TimerFired =>
      if timer_pending st
      then snd (parseSwapEvents (set_timer_pending false st))
      else st
  end.

Definition run (ds : list Delivery) (st : State) : State :=
  fold_left (fun st d => deliver d st) ds st.

Definition initial : State :=
  {| logs := []; pairTokens := ∅; tokens := ∅; PARSING := false;
     ARRIVING := false; timer_pending := false |}.

(** A computation that leaves the busy flag and the timer alone. *)
Definition keeps_flags {A} (m : Cycle A) : Prop :=
  forall st,
    PARSING (m st).2 = PARSING st
    /\ timer_pending (m st).2 = timer_pending st.

End Decoder.

Arguments Leg D : clear implicits.
Arguments LogObject D : clear implicits.
Arguments State D : clear implicits.
Arguments Cycle D A : clear implicits.

End Index.

(** ** Vocabulary of the properties *)

Section Vocabulary.

Context {D : Type} `{DecimalOps D}.
Context (Moralis_getTokenPrice : string -> option D).

Implicit Types (graph : gmap string (list (Edge D))) (prices : gmap string D).

(** The adjacency array of a symbol ([[]] when the graph has no entry). *)
Definition adj_of graph (a : string) : list (Edge D) :=
  default [] (graph !! a).

(** Every neighbour of [a] has a price. *)
Definition closed_at graph prices (a : string) : Prop :=
  forall e, e ∈ adj_of graph a -> is_Some (prices !! edge_symbol e).

(** No edge leaves the priced symbols. *)
Definition closed graph prices : Prop :=
  forall a, is_Some (prices !! a) -> closed_at graph prices a.

Definition targets_in graph (S : gset string) : Prop :=
  forall a e, e ∈ adj_of graph a -> edge_symbol e ∈ S.

(** The [addEdge] calls a swap makes: source symbol and adjacency entry. *)
Definition swap_edges (se : SwapEvent D) : list (string * Edge D) :=
  if truthy (symbol (token0 se)) && truthy (symbol (token1 se)) then
    match amount (token0 se), amount (token1 se) with
    | Some a0, Some a1 =>
        [ (symbol (token0 se),
           {| edge_symbol := symbol (token1 se); ratio := dividedBy a0 a1 |});
          (symbol (token1 se),
           {| edge_symbol := symbol (token0 se); ratio := dividedBy a1 a0 |}) ]
    | _, _ => []
    end
  else [].

(** The swap adds the edge [A -> B] with ratio [r]. *)
Definition gives_edge (se : SwapEvent D) (A B : string) (r : D) : Prop :=
  (A, {| edge_symbol := B; ratio := r |}) ∈ swap_edges se.

Definition batch_edges (batch : list (SwapEvent D)) : list (string * Edge D) :=
  batch ≫= swap_edges.

(** [a] and [b] are the two symbols of some swap of the batch. *)
Definition edge (batch : list (SwapEvent D)) (a b : string) : Prop :=
  exists e, (a, e) ∈ batch_edges batch /\ edge_symbol e = b.

(** Symbols that can appear as an adjacency entry. *)
Definition edge_targets (batch : list (SwapEvent D)) : gset string :=
  list_to_set ((fun x => edge_symbol x.2) <$> batch_edges batch).

Definition connected (batch : list (SwapEvent D)) : relation string :=
  rtc (edge batch).




(** [path_price batch T p U q]: [q] is [p] multiplied by the ratios of the
    edges of some path from [T] to [U]. *)
Inductive path_price (batch : list (SwapEvent D)) (T : string) (p : D)
  : string -> D -> Prop :=
| path_start : path_price batch T p T p
| path_step a pa e :
    path_price batch T p a pa ->
    (a, e) ∈ batch_edges batch ->
    path_price batch T p (edge_symbol e) (times pa (ratio e)).

(** Both legs carry an amount. *)
Definition has_amounts (se : SwapEvent D) : Prop :=
  is_Some (amount (token0 se)) /\ is_Some (amount (token1 se)).

(** An event as the decoder leaves it: both amounts, no USD field yet. *)
Definition decoded (se : SwapEvent D) : Prop :=
  has_amounts se /\
  value_in_usd (token0 se) = None /\ total_exchanged_usd (token0 se) = None /\
  value_in_usd (token1 se) = None /\ total_exchanged_usd (token1 se) = None.

(** The state the second loop starts from. *)
Definition loop_start (prices : gmap string D) : PricingState D :=
  {| symbol2USD := prices; stack := []; oracle_calls := []; next_ref := 0 |}.

(** The number [getEthereumTokenUSD] wraps. *)
Definition oracle_price (token_address : string) : D :=
  default Dec_zero (Moralis_getTokenPrice token_address).

(** [price_batch] with the second loop stopped after [k] iterations. *)
Definition price_batch_upto (k : nat) (swapEvents : list (SwapEvent D))
    (ETH2USD : D) : Outcome (list (SwapEvent D) * PricingState D) :=
  graph ← build_graph ∅ swapEvents;
  let fuel := traverse_fuel anchors swapEvents in
  prices ← traverse fuel graph (seed_prices anchors ETH2USD) anchors;
  price_events Moralis_getTokenPrice fuel graph (take k swapEvents)
    {| symbol2USD := prices; stack := []; oracle_calls := []; next_ref := 0 |}.

(** What iteration [i] of the second loop leaves in the event it visits:
    [se] is the event before pricing, [se'] the event after, [st_i] and
    [st_i1] the states before and after the iteration, [final] the price
    map at the end of the batch.  The last clause is about the answers
    the specification calls usable: it says nothing of a batch in which
    the oracle answers zero. *)
Definition iteration_fields (batch : list (SwapEvent D)) (ETH2USD : D)
    (i : nat) (se se' : SwapEvent D) (final : gmap string D) : Prop :=
  exists evs_i st_i evs_i1 st_i1,
    price_batch_upto i batch ETH2USD = Done (evs_i, st_i)
    /\ price_batch_upto (S i) batch ETH2USD = Done (evs_i1, st_i1)
    /\ symbol (token0 se') = symbol (token0 se)
    /\ symbol (token1 se') = symbol (token1 se)
    /\ amount (token0 se') = amount (token0 se)
    /\ amount (token1 se') = amount (token1 se)
    /\ value_in_usd (token0 se') = symbol2USD st_i1 !! symbol (token0 se)
    /\ value_in_usd (token1 se')
       = match symbol2USD st_i1 !! symbol (token0 se) with
         | Some _ => symbol2USD st_i1 !! symbol (token1 se)
         | None => None
         end
    /\ total_exchanged_usd (token0 se')
       = (p ← value_in_usd (token0 se'); times p <$> amount (token0 se))
    /\ total_exchanged_usd (token1 se')
       = (p ← value_in_usd (token1 se'); times p <$> amount (token1 se))
    /\ symbol2USD st_i1 ⊆ final
    /\ oracle_calls st_i1
       = oracle_calls st_i
         ++ match symbol2USD st_i !! symbol (token0 se) with
            | Some _ => []
            | None => [id (token0 se)]
            end
    /\ ((forall se0, se0 ∈ batch ->
            isZero (oracle_price (id (token0 se0))) = false) ->
        truthy (symbol (token0 se)) = true ->
        truthy (symbol (token1 se)) = true ->
        is_Some (value_in_usd (token0 se'))
        /\ is_Some (value_in_usd (token1 se'))
        /\ value_in_usd (token0 se') = final !! symbol (token0 se)
        /\ value_in_usd (token1 se') = final !! symbol (token1 se)).

(** The price map a run ends with. *)
Definition final_prices (r : Outcome (list (SwapEvent D) * PricingState D))
    : option (gmap string D) :=
  match r with
  | Done (_, st) => Some (symbol2USD st)
  | _ => None
  end.

(** The price of [sym] after a run: [Done None] when the run ends and the
    symbol has no price. *)
Definition price_in (r : Outcome (list (SwapEvent D) * PricingState D))
    (sym : string) : Outcome (option D) :=
  '(_, st) ← r; Done (symbol2USD st !! sym).

(** What [apply_prices] leaves in a leg whose symbol has price [p]. *)
Definition priced_leg (prices : gmap string D) (leg : Leg D) : Leg D :=
  match prices !! symbol leg with
  | Some p =>
      {| id := id leg; symbol := symbol leg; amount := amount leg;
         value_in_usd := Some p;
         total_exchanged_usd := times p <$> amount leg |}
  | None => leg
  end.

(** The event [apply_prices] returns when the amounts are there. *)
Definition enriched (prices : gmap string D) (se : SwapEvent D) : SwapEvent D :=
  match prices !! symbol (token0 se) with
  | Some _ =>
      with_legs se (priced_leg prices (token0 se)) (priced_leg prices (token1 se))
  | None => se
  end.

(** A field of the event at position [i] after a run. *)
Definition field_in (r : Outcome (list (SwapEvent D) * PricingState D))
    (i : nat) (field : SwapEvent D -> option D) : Outcome (option (option D)) :=
  '(evs, _) ← r; Done (field <$> evs !! i).

(** The seven numeric columns of a row: position in [values] and the field
    it is printed from. *)
Definition numeric_columns (ETH2USD : option D) (event : SwapEvent D)
    : list (nat * option D) :=
  [ (6, amount (token0 event));
    (7, value_in_usd (token0 event));
    (8, total_exchanged_usd (token0 event));
    (11, amount (token1 event));
    (12, value_in_usd (token1 event));
    (13, total_exchanged_usd (token1 event));
    (14, ETH2USD) ]%nat.

End Vocabulary.

Section SinkVocabulary.

Context {D : Type} `{DecimalOps D}.

(** The row of the event at position [i] was handed to the store, and was
    either saved or had its error logged. *)
Definition row_settled (client_query : nat -> list SqlParam -> option JsError)
    (before after : SinkState) (i : nat) (row : list SqlParam) : Prop :=
  attempted after !! (length (attempted before) + i) = Some row
  /\ match client_query (length (attempted before) + i) row with
     | None => row ∈ saved after
     | Some err => err ∈ console_error after
     end.

End SinkVocabulary.

(** ** Sample batches, priced with the [DecimalJS] model *)

Module Samples.

Definition dec (n : N) : DecimalJS.t := DecimalJS.ofN n.

Definition leg (address sym : string) (n : N) : Leg DecimalJS.t :=
  {| id := address; symbol := sym; amount := Some (dec n);
     value_in_usd := None; total_exchanged_usd := None |}.

Definition swap (t0 t1 : Leg DecimalJS.t) : SwapEvent DecimalJS.t :=
  {| blockNumber := 19000000; blockHash := "0xb10c";
     transactionHash := "0x7a"; fromAddress := None;
     token0 := t0; token1 := t1 |}.

Definition ETH2USD : DecimalJS.t := dec 3000.

(** An oracle whose every request fails. *)
Definition oracle_down : string -> option DecimalJS.t := fun _ => None.

(** An oracle that knows three tokens. *)
Definition oracle_foo_bar : string -> option DecimalJS.t := fun address =>
  if String.eqb address "0xf00" then Some (dec 5)
  else if String.eqb address "0xba5" then Some (dec 7)
  else if String.eqb address "0xe" then Some (dec 4)
  else None.

(** [USDC -> XTK] with ratio 2 and [XTK -> YTK] with ratio 3. *)
Definition usdc_xtk : SwapEvent DecimalJS.t :=
  swap (leg "0xa0b8" "USDC" 2) (leg "0x0001" "XTK" 1).
Definition xtk_ytk : SwapEvent DecimalJS.t :=
  swap (leg "0x0001" "XTK" 3) (leg "0x0002" "YTK" 1).

(** The same pool swapped twice at two different ratios. *)
Definition usdc_xtk_at_3 : SwapEvent DecimalJS.t :=
  swap (leg "0xa0b8" "USDC" 3) (leg "0x0001" "XTK" 1).

(** Two tokens no anchor reaches. *)
Definition foo_bar : SwapEvent DecimalJS.t :=
  swap (leg "0xf00" "FOO" 2) (leg "0xba5" "BAR" 1).

(** A token whose metadata has an empty symbol. *)
Definition nameless_bar : SwapEvent DecimalJS.t :=
  swap (leg "0xe" "" 2) (leg "0xba5" "BAR" 1).
Definition bar_foo : SwapEvent DecimalJS.t :=
  swap (leg "0xba5" "BAR" 1) (leg "0xf00" "FOO" 1).

(** [ZTK] reached from [USDC] with ratio 2 and from [USDT] with ratio 3. *)
Definition usdc_ztk : SwapEvent DecimalJS.t :=
  swap (leg "0xa0b8" "USDC" 2) (leg "0x0003" "ZTK" 1).
Definition usdt_ztk : SwapEvent DecimalJS.t :=
  swap (leg "0xdac1" "USDT" 3) (leg "0x0003" "ZTK" 1).



(** A store that rejects the second row of a batch. *)
Definition second_row_fails : nat -> list SqlParam -> option JsError :=
  fun n _ => if Nat.eqb n 1 then Some (ExternalError "connection reset") else None.

(** Collaborators of the aggregator when the ETH price request fails. *)
Definition getEthereumUSD_down : Outcome DecimalJS.t :=
  Throw (ExternalError "Request failed with status code 503").
Definition getEthereumUSD_up : Outcome DecimalJS.t := Done ETH2USD.
Definition parseLog_V3 : Index.RawLog -> Outcome (option (Z * Z)) :=
  fun _ => Done (Some (-1500000, 500000000000000)%Z).
Definition parseLog_V2 : Index.RawLog -> Outcome (option (Z * Z * Z * Z)) :=
  fun _ => Done (Some (0, 1000000, 400000000000000, 0)%Z).
Definition getPairTokenSymbols : string -> option (string * string) :=
  fun _ => Some ("0xa0b8", "0xc02a").
Definition getTokenMetadata : string -> Outcome (string * nat) :=
  fun address =>
    if String.eqb address "0xa0b8" then Done ("USDC", 6) else Done ("WETH", 18).
Definition fillUSDAmounts_ok
  : list (Index.LogObject DecimalJS.t) -> DecimalJS.t ->
    Outcome (list (Index.LogObject DecimalJS.t)) :=
  fun logs _ => Done logs.

Definition v3_log : Index.RawLog :=
  {| Index.address := "0x88e6"; Index.topics := [Index.UNISWAP_V3_SWAP_EVENT];
     Index.data := "0x"; Index.blockNumber := 19000000;
     Index.blockHash := "0xb10c"; Index.transactionHash := "0x7a" |}.

Definition usdc_weth_pair : Index.PairToken :=
  {| Index.token0 := {| Index.symbol := "USDC"; Index.decimal := 6 |};
     Index.token1 := {| Index.symbol := "WETH"; Index.decimal := 18 |} |}.

(** The aggregator after one window whose cycle failed on the ETH price. *)
Definition wedged : Index.State DecimalJS.t :=
  Index.run getEthereumUSD_down parseLog_V3 parseLog_V2 getPairTokenSymbols
    getTokenMetadata fillUSDAmounts_ok
    [Index.Arrival v3_log; Index.TimerFired] Index.initial.

(** The same window when every collaborator answers. *)
Definition settled : Index.State DecimalJS.t :=
  Index.run getEthereumUSD_up parseLog_V3 parseLog_V2 getPairTokenSymbols
    getTokenMetadata fillUSDAmounts_ok
    [Index.Arrival v3_log; Index.TimerFired] Index.initial.

End Samples.

(** ** webhooksUtil.ts: the webhook signature middleware *)

Module Webhook.

(** The value of [req.headers[name]] when the header is there:
    [string | string[]]. *)
Inductive HeaderValue : Type :=
| HeaderString (s : string)
| HeaderArray (l : list string).

(** [req.alchemy = { rawBody, signature }]; [signature] is [undefined]
    when the header is missing. *)
Record AlchemyContext : Type := {
  rawBody : string;
  signature : option HeaderValue;
}.

(** What the middleware reads and writes of a request. *)
Record Request : Type := {
  headers : gmap string HeaderValue;
  alchemy : option AlchemyContext;
}.

(** What the middleware writes of a response. *)
Record Response : Type := {
  statusCode : option nat;
  sent : option string;
}.

Inductive Thrown : Type :=
| ThrownJs (e : JsError)
| ThrownError (message : string).

(** What calling the middleware did: the response, whether [next()] was
    called, and the exception that left it. *)
Record Handled : Type := {
  response : Response;
  next_called : bool;
  thrown : option Thrown;
}.

Section Middleware.

(** [crypto.createHmac("sha256", key).update(body, "utf8").digest("hex")] *)
Context (hmac_sha256_hex : string -> string -> string).
(** [buf.toString(encoding)] *)
Context (Buffer_toString : list Byte.byte -> string -> string).

Definition isValidSignatureForStringBody (body : string)
    (signature : option HeaderValue) (signingKey : string) : bool :=
  let digest := hmac_sha256_hex signingKey body in
  (* signature === digest *)
  match signature with
  | Some (HeaderString s) => String.eqb s digest
  | _ => false
  end.

Definition isValidSignatureForAlchemyRequest (request : Request)
    (signingKey : string) : JsError + bool :=
  match alchemy request with
  | None => inl (TypeError "reading 'rawBody' of undefined")
  | Some context =>
      inr (isValidSignatureForStringBody (rawBody context)
             (signature context) signingKey)
  end.

(** [encoding || "utf8"] *)
Definition encoding_or_utf8 (encoding : option string) : string :=
  match encoding with
  | Some e => if truthy e then e else "utf8"
  | None => "utf8"
  end.

Definition addAlchemyContextToRequest (req : Request)
    (buf : list Byte.byte) (encoding : option string) : Request :=
  let signature := headers req !! "x-alchemy-signature" in
  let body := Buffer_toString buf (encoding_or_utf8 encoding) in
  {| headers := headers req;
     alchemy := Some {| rawBody := body; signature := signature |} |}.

Definition errMessage : string :=
  "Signature validation failed, unauthorized!".

(** The handler [validateAlchemySignature(signingKey)] returns. *)
Definition validateAlchemySignature (signingKey : string) (req : Request)
    (res : Response) : Handled :=
  match isValidSignatureForAlchemyRequest req signingKey with
  | inl e => {| response := res; next_called := false;
                thrown := Some (ThrownJs e) |}
  | inr false =>
      (* res.status(403).send(errMessage); throw new Error(errMessage) *)
      {| response := {| statusCode := Some 403; sent := Some errMessage |};
         next_called := false;
         thrown := Some (ThrownError errMessage) |}
  | inr true => {| response := res; next_called := true; thrown := None |}
  end.

End Middleware.

End Webhook.

(** ** webhooksUtil.ts: the token addresses of a pool *)

Module Pool.

Section Contract.

(** [pairContract.methods.token0().call()] and
    [pairContract.methods.token1().call()] on the contract at an
    address. *)
Context (token0_call token1_call : string -> Outcome string).

(** [{ token0, token1 }], or [null] from the [catch]. *)
Definition getPairTokenSymbols (pairAddress : string)
    : option (string * string) :=
  match token0_call pairAddress with
  | Done token0 =>
      match token1_call pairAddress with
      | Done token1 => Some (token0, token1)
      | _ => None
      end
  | _ => None
  end.

End Contract.

End Pool.

(** ** webhooksUtil.ts, earlier revision: price propagation

    The earlier [fillUSDAmounts]: three anchors, no test on the symbols
    when the graph is built, no oracle, and each leg priced on its own. *)

Module Revision1Pricing.

Section Pricing.

Context {D : Type} `{DecimalOps D}.

(** Body of the first [for (var se of swapEvents)] loop. *)
Definition add_swap_edges (graph : gmap string (list (Edge D)))
    (e : Revision1.StampedEvent D) : Outcome (gmap string (list (Edge D))) :=
  let se := Revision1.event e in
  r01 ← js_dividedBy (amount (token0 se)) (amount (token1 se));
  let graph1 := addEdge graph (symbol (token0 se)) (symbol (token1 se)) r01 in
  r10 ← js_dividedBy (amount (token1 se)) (amount (token0 se));
  Done (addEdge graph1 (symbol (token1 se)) (symbol (token0 se)) r10).

Fixpoint build_graph (graph : gmap string (list (Edge D)))
    (swapEvents : list (Revision1.StampedEvent D))
    : Outcome (gmap string (list (Edge D))) :=
  match swapEvents with
  | [] => Done graph
  | e :: rest =>
      graph1 ← add_swap_edges graph e;
      build_graph graph1 rest
  end.

(** The array literal that initialises [stack]. *)
Definition anchors : list string := ["USDC"; "USDT"; "WETH"].

(** The three [symbol2USD.set] calls. *)
Definition seed_prices (ETH2USD : D) : gmap string D :=
  <["USDC" := Dec_one]> (<["USDT" := Dec_one]> (<["WETH" := ETH2USD]> ∅)).

Definition traverse_fuel (swapEvents : list (Revision1.StampedEvent D))
    : nat :=
  length anchors + 2 * length swapEvents.

(** [if (symbol2USD.has(leg.symbol)) { leg.value_in_usd = ...;
      leg.total_exchanged_usd = ... }] *)
Definition apply_leg (prices : gmap string D) (leg : Leg D)
    : Outcome (Leg D) :=
  match prices !! symbol leg with
  | Some p => assign_usd p leg
  | None => Done leg
  end.

(** One iteration of the second loop: the two legs one after the
    other. *)
Definition apply_prices (prices : gmap string D)
    (e : Revision1.StampedEvent D) : Outcome (Revision1.StampedEvent D) :=
  t0 ← apply_leg prices (token0 (Revision1.event e));
  t1 ← apply_leg prices (token1 (Revision1.event e));
  Done {| Revision1.event := with_legs (Revision1.event e) t0 t1;
          Revision1.timestamp := Revision1.timestamp e |}.

Fixpoint price_events (prices : gmap string D)
    (swapEvents : list (Revision1.StampedEvent D))
    : Outcome (list (Revision1.StampedEvent D)) :=
  match swapEvents with
  | [] => Done []
  | e :: rest =>
      e' ← apply_prices prices e;
      rest' ← price_events prices rest;
      Done (e' :: rest')
  end.

(** [fillUSDAmounts] up to the end of the second loop. *)
Definition price_batch (swapEvents : list (Revision1.StampedEvent D))
    (ETH2USD : D)
    : Outcome (list (Revision1.StampedEvent D) * gmap string D) :=
  graph ← build_graph ∅ swapEvents;
  prices ← traverse (traverse_fuel swapEvents) graph
             (seed_prices ETH2USD) anchors;
  events ← price_events prices swapEvents;
  Done (events, prices).

Context (client_query : nat -> list SqlParam -> option JsError).

Definition fillUSDAmounts (swapEvents : list (Revision1.StampedEvent D))
    (ETH2USD : D)
    : Outcome (option (list (Revision1.StampedEvent D) * gmap string D
                       * SinkState)) :=
  match swapEvents with
  | [] => Done None
  | _ :: _ =>
      '(events, prices) ← price_batch swapEvents ETH2USD;
      sink ← Revision1.persist client_query ETH2USD events
               {| attempted := []; saved := []; console_error := [] |};
      Done (Some (events, prices, sink))
  end.

(** *** Vocabulary *)

(** The [addEdge] calls of an event. *)
Definition swap_edges (e : Revision1.StampedEvent D)
    : list (string * Edge D) :=
  let se := Revision1.event e in
  match amount (token0 se), amount (token1 se) with
  | Some a0, Some a1 =>
      [ (symbol (token0 se),
         {| edge_symbol := symbol (token1 se); ratio := dividedBy a0 a1 |});
        (symbol (token1 se),
         {| edge_symbol := symbol (token0 se); ratio := dividedBy a1 a0 |}) ]
  | _, _ => []
  end.

Definition batch_edges (batch : list (Revision1.StampedEvent D))
    : list (string * Edge D) :=
  batch ≫= swap_edges.

Definition edge (batch : list (Revision1.StampedEvent D)) (a b : string)
    : Prop :=
  exists e, (a, e) ∈ batch_edges batch /\ edge_symbol e = b.

Definition edge_targets (batch : list (Revision1.StampedEvent D))
    : gset string :=
  list_to_set ((fun x => edge_symbol x.2) <$> batch_edges batch).

(** Edges of the batch join [a] to one of the three anchors. *)
Definition reachable (batch : list (Revision1.StampedEvent D)) (a : string)
    : Prop :=
  exists anchor, anchor ∈ anchors /\ rtc (edge batch) anchor a.

(** What the second loop leaves in a leg. *)
Definition priced_leg (prices : gmap string D) (leg : Leg D) : Leg D :=
  match prices !! symbol leg with
  | Some p =>
      {| id := id leg; symbol := symbol leg; amount := amount leg;
         value_in_usd := Some p;
         total_exchanged_usd := times p <$> amount leg |}
  | None => leg
  end.

Definition enriched (prices : gmap string D)
    (e : Revision1.StampedEvent D) : Revision1.StampedEvent D :=
  {| Revision1.event :=
       with_legs (Revision1.event e)
         (priced_leg prices (token0 (Revision1.event e)))
         (priced_leg prices (token1 (Revision1.event e)));
     Revision1.timestamp := Revision1.timestamp e |}.

End Pricing.

End Revision1Pricing.

(** ** Vocabulary of the further properties *)

Section PricingVocabulary.

Context {D : Type} `{DecimalOps D}.
Context (Moralis_getTokenPrice : string -> option D).

(** Where a price can start from: the seed of an anchor, or the oracle's
    answer for the first leg of a swap of the batch. *)
Definition price_source (batch : list (SwapEvent D)) (ETH2USD : D)
    (T : string) (p : D) : Prop :=
  seed_prices anchors ETH2USD !! T = Some p
  \/ exists se, se ∈ batch /\ T = symbol (token0 se)
                /\ p = oracle_price Moralis_getTokenPrice (id (token0 se)).

(** No anchor is joined to [a] by edges of the batch. *)
Definition off_anchors (batch : list (SwapEvent D)) (a : string) : Prop :=
  forall anchor, anchor ∈ anchors -> ~ connected batch anchor a.

(** The addresses the oracle was asked for in a run. *)
Definition oracle_calls_of
    (r : Outcome (list (SwapEvent D) * PricingState D))
    : option (list string) :=
  match r with
  | Done (_, st) => Some (oracle_calls st)
  | _ => None
  end.

End PricingVocabulary.

Section AggregatorVocabulary.

Context {D : Type} `{DecimalOps D}.

(** A log as the arrival handler stores it. *)
Definition arrived (log : Index.RawLog) : Index.LogObject D :=
  {| Index.raw := log; Index.legs := None |}.

(** The two caches only gain entries. *)
Definition caches_grow (st st' : Index.State D) : Prop :=
  Index.tokens st ⊆ Index.tokens st'
  /\ Index.pairTokens st ⊆ Index.pairTokens st'.

(** Every state change of [m] is in [R]. *)
Definition steps_in (R : relation (Index.State D)) {A}
    (m : Index.Cycle D A) : Prop :=
  forall st, R st (m st).2.

(** The logs keep their number, their raw part and the legs they have. *)
Definition logs_progress (st st' : Index.State D) : Prop :=
  length (Index.logs st') = length (Index.logs st)
  /\ forall i lg,
       Index.logs st !! i = Some lg ->
       exists lg',
         Index.logs st' !! i = Some lg'
         /\ Index.raw lg' = Index.raw lg
         /\ (is_Some (Index.legs lg) -> is_Some (Index.legs lg')).

(** Every pool of the cache was there before, or its token addresses
    can be read. *)
Definition cached_only_resolved
    (getPairTokenSymbols : string -> option (string * string))
    (st st' : Index.State D) : Prop :=
  forall pool,
    is_Some (Index.pairTokens st' !! pool) ->
    is_Some (Index.pairTokens st !! pool)
    \/ is_Some (getPairTokenSymbols pool).

(** A cycle that ended without a result. *)
Definition aborted {A} (r : Outcome A) : Prop :=
  match r with
  | Done _ => False
  | _ => True
  end.

End AggregatorVocabulary.

(** ** Further sample inputs *)

Module Cases.

Import Samples.

(** A swap whose second leg lost its amount. *)
Definition foo_bar_without_amount : SwapEvent DecimalJS.t :=
  swap (leg "0xf00" "FOO" 2)
       {| id := "0xba5"; symbol := "BAR"; amount := None;
          value_in_usd := None; total_exchanged_usd := None |}.

(** A token that calls itself [USDC] at another address. *)
Definition fake_usdc_foo : SwapEvent DecimalJS.t :=
  swap (leg "0xbad" "USDC" 4) (leg "0xf00" "FOO" 1).

(** The graph of one swap: [USDC -> XTK] and [XTK -> USDC], a cycle. *)
Definition cycle_graph : gmap string (list (Edge DecimalJS.t)) :=
  <["USDC" := [{| edge_symbol := "XTK"; ratio := dec 2 |}]]>
    (<["XTK" := [{| edge_symbol := "USDC";
                    ratio := DecimalJS.dividedBy (dec 1) (dec 2) |}]]> ∅).

Definition timestamp : string := "2024-01-01T00:00:00.000Z".

(** The chain provider, answering and failing. *)
Definition getBlock_found : Z -> Outcome string := fun _ => Done timestamp.
Definition getBlock_failed : Z -> Outcome string :=
  fun _ => Throw (ExternalError "block not found").

(** A pool contract whose calls revert. *)
Definition call_reverts : string -> Outcome string :=
  fun _ => Throw (ExternalError "execution reverted").
Definition call_answers : string -> Outcome string :=
  fun _ => Done "0xa0b8".

Definition v2_log : Index.RawLog :=
  {| Index.address := "0x0d4a"; Index.topics := [Index.UNISWAP_V2_SWAP_EVENT];
     Index.data := "0x"; Index.blockNumber := 19000000;
     Index.blockHash := "0xb10c"; Index.transactionHash := "0x7b" |}.

(** An open window holding one log. *)
Definition one_log_window : Index.State DecimalJS.t :=
  Index.on_log v3_log Index.initial.

(** A stand-in for the HMAC: only equality of digests matters. *)
Definition toy_hmac : string -> string -> string :=
  fun key body => key +:+ ":" +:+ body.
Definition toy_decode : list Byte.byte -> string -> string :=
  fun buf _ => string_of_list_byte buf.

(** The bytes of the body [{}]. *)
Definition body_bytes : list Byte.byte := [Byte.x7b; Byte.x7d].

Definition signed_request : Webhook.Request :=
  {| Webhook.headers :=
       <["x-alchemy-signature" := Webhook.HeaderString "key:{}"]> ∅;
     Webhook.alchemy := None |}.

Definition fresh_response : Webhook.Response :=
  {| Webhook.statusCode := None; Webhook.sent := None |}.

(** Events of the earlier revision. *)
Definition stamp (se : SwapEvent DecimalJS.t)
    : Revision1.StampedEvent DecimalJS.t :=
  {| Revision1.event := se; Revision1.timestamp := Some timestamp |}.

(** A pool whose second token reports 81 decimals. *)
Definition odd_pair : Index.PairToken :=
  {| Index.token0 := {| Index.symbol := "USDC"; Index.decimal := 6 |};
     Index.token1 := {| Index.symbol := "ODD"; Index.decimal := 81 |} |}.

(** An event whose six decimal fields are there. *)
Definition priced_usdc_xtk : Revision1.StampedEvent DecimalJS.t :=
  stamp (enriched (<["XTK" := dec 2]> (<["USDC" := dec 1]> ∅)) usdc_xtk).

End Cases.

(** * Properties *)

(** ** Arrays used as stacks *)

Lemma pop_app_last {A} (l : list A) (x : A) : pop (l ++ [x]) = Some (l, x).
Proof.
  induction l as [|y l IH]; simpl; [done|].
  by rewrite IH.
Qed.

Lemma pop_None {A} (l : list A) : pop l = None -> l = [].
Proof.
  destruct l as [|x l]; [done|]. simpl.
  destruct (pop l) as [[r y]|]; discriminate.
Qed.

Lemma pop_Some {A} (l r : list A) (y : A) : pop l = Some (r, y) -> l = r ++ [y].
Proof.
  revert r y. induction l as [|x l IH]; intros r y; simpl; [discriminate|].
  destruct (pop l) as [[r' y']|] eqn:E.
  - intros [= <- <-]. simpl. f_equal. by apply IH.
  - intros [= <- <-]. apply pop_None in E. by subst.
Qed.

Lemma Outcome_bind_Done {A B} (m : Outcome A) (f : A -> Outcome B) (b : B) :
  m ≫= f = Done b -> exists a, m = Done a /\ f a = Done b.
Proof. destruct m; simpl; try discriminate. eauto. Qed.

Lemma bind_Done {A B} (a : A) (f : A -> Outcome B) : Done a ≫= f = f a.
Proof. reflexivity. Qed.

Section TraversalProperties.

Context {D : Type} `{DecimalOps D}.

Implicit Types (graph : gmap string (list (Edge D))) (prices : gmap string D).

Lemma measure_insert (S : gset string) prices (b : string) (q : D) :
  b ∈ S -> prices !! b = None ->
  1 + size (S ∖ dom (<[b := q]> prices)) <= size (S ∖ dom prices).
Proof.
  intros Hb Hnone.
  assert (S ∖ dom prices = {[b]} ∪ S ∖ dom (<[b := q]> prices)) as ->.
  { rewrite dom_insert_L. apply set_eq. intros x.
    rewrite !elem_of_union, !elem_of_difference, elem_of_union,
      elem_of_singleton.
    split.
    - intros [HxS Hx]. destruct (decide (x = b)) as [->|Hne]; [by left|].
      right. split; [done|]. by intros [?|?].
    - intros [->|[HxS Hx]].
      + split; [done|]. by rewrite elem_of_dom, Hnone; intros [? ?].
      + split; [done|]. intros Hd. apply Hx. by right. }
  rewrite (size_union {[b]}).
  - rewrite size_singleton. lia.
  - rewrite dom_insert_L. intros x ->%elem_of_singleton [_ Hx]%elem_of_difference.
    apply Hx, elem_of_union. left. by apply elem_of_singleton.
Qed.

Lemma size_difference_le (X Y : gset string) : size (X ∖ Y) <= size X.
Proof. apply subseteq_size. by intros x [? _]%elem_of_difference. Qed.

Lemma relax_spec (S : gset string) sym p adj prices stk :
  prices !! sym = Some p ->
  exists prices' news,
    relax sym adj prices stk = Done (prices', stk ++ news)
    /\ prices ⊆ prices'
    /\ (forall e, e ∈ adj -> is_Some (prices' !! edge_symbol e))
    /\ (forall b, b ∈ news -> prices !! b = None /\ is_Some (prices' !! b))
    /\ (forall b q, prices !! b = None -> prices' !! b = Some q ->
          b ∈ news /\
          exists e, e ∈ adj /\ edge_symbol e = b /\ q = times p (ratio e))
    /\ ((forall e, e ∈ adj -> edge_symbol e ∈ S) ->
          length news + size (S ∖ dom prices') <= size (S ∖ dom prices)).
Proof.
  revert prices stk. induction adj as [|e adj IH]; intros prices stk Hsym.
  - exists prices, []. simpl. rewrite app_nil_r. split_and!; try done.
    + intros e He. by apply elem_of_nil in He.
    + intros b Hb. by apply elem_of_nil in Hb.
    + congruence.
  - simpl. destruct (prices !! edge_symbol e) as [pe|] eqn:He.
    + destruct (IH prices stk Hsym)
        as (prices' & news & Hrun & Hsub & Hadj & Hnews & Hnew & Hsize).
      exists prices', news. split_and!; try done.
      * intros e' [->|He']%elem_of_cons; [|by apply Hadj].
        exists pe. by eapply lookup_weaken.
      * intros b q Hb Hq. split; [by apply (Hnew b q)|].
        destruct (Hnew b q) as (_ & e' & ? & ? & ?); [done..|].
        exists e'. split; [by apply elem_of_cons; right|done].
      * intros HS. apply Hsize. intros e' He'. apply HS.
        by apply elem_of_cons; right.
    + rewrite Hsym.
      set (t := edge_symbol e) in *.
      set (prices1 := <[t := times p (ratio e)]> prices).
      assert (t <> sym) as Hne by congruence.
      assert (prices1 !! sym = Some p) as Hsym1
        by (unfold prices1; by rewrite lookup_insert_ne).
      assert (prices ⊆ prices1) as Hsub1 by (by apply insert_subseteq).
      destruct (IH prices1 (stk ++ [t]) Hsym1)
        as (prices' & news & Hrun & Hsub & Hadj & Hnews & Hnew & Hsize).
      exists prices', (t :: news).
      assert (prices1 !! t = Some (times p (ratio e))) as Ht1
        by (unfold prices1; by rewrite lookup_insert_eq).
      split_and!.
      * rewrite Hrun. by rewrite <- app_assoc.
      * by etrans.
      * intros e' [->|He']%elem_of_cons; [|by apply Hadj].
        exists (times p (ratio e)). by eapply lookup_weaken.
      * intros b [->|Hb]%elem_of_cons.
        -- split; [done|]. exists (times p (ratio e)). by eapply lookup_weaken.
        -- destruct (Hnews b Hb) as [Hn ?]. split; [|done].
           destruct (decide (b = t)) as [->|Hnb]; [done|].
           unfold prices1 in Hn. by rewrite lookup_insert_ne in Hn.
      * intros b q Hb Hq. destruct (decide (b = t)) as [->|Hnb].
        -- split; [by apply elem_of_cons; left|].
           exists e. split; [by apply elem_of_cons; left|]. split; [done|].
           eapply lookup_weaken in Ht1; [|exact Hsub]. congruence.
        -- destruct (Hnew b q) as (Hin & e' & ? & ? & ?); [|done|].
           { unfold prices1. by rewrite lookup_insert_ne. }
           split; [by apply elem_of_cons; right|].
           exists e'. split; [by apply elem_of_cons; right|done].
      * intros HS. simpl.
        assert (t ∈ S) as HtS by (apply HS; by apply elem_of_cons; left).
        pose proof (measure_insert S prices t (times p (ratio e)) HtS He).
        assert (length news + size (S ∖ dom prices')
                <= size (S ∖ dom prices1)).
        { apply Hsize. intros e' He'. apply HS. by apply elem_of_cons; right. }
        unfold prices1 in *. lia.
Qed.

Lemma closed_at_mono graph prices prices' a :
  prices ⊆ prices' -> closed_at graph prices a -> closed_at graph prices' a.
Proof.
  intros Hsub Hc e He. destruct (Hc e He) as [q Hq].
  exists q. by eapply lookup_weaken.
Qed.

Lemma traverse_spec graph (S : gset string) (R : string -> D -> Prop) :
  targets_in graph S ->
  (forall a pa e, R a pa -> e ∈ adj_of graph a ->
                  R (edge_symbol e) (times pa (ratio e))) ->
  forall fuel prices stk,
    (forall a, a ∈ stk -> is_Some (prices !! a)) ->
    length stk + size (S ∖ dom prices) <= fuel ->
    exists prices',
      traverse fuel graph prices stk = Done prices'
      /\ prices ⊆ prices'
      /\ ((forall a, is_Some (prices !! a) ->
                     a ∈ stk \/ closed_at graph prices a) ->
          closed graph prices')
      /\ ((forall a pa, a ∈ stk -> prices !! a = Some pa -> R a pa) ->
          forall b q, prices !! b = None -> prices' !! b = Some q -> R b q).
Proof.
  intros HS HR fuel. induction fuel as [|fuel IH]; intros prices stk Hstk Hfuel.
  - destruct stk as [|x stk]; [|simpl in Hfuel; lia].
    exists prices. simpl. repeat split; try done.
    + intros Hinv a Ha. destruct (Hinv a Ha) as [Hin|]; [|done].
      by apply elem_of_nil in Hin.
    + congruence.
  - destruct (pop stk) as [[stk1 sym]|] eqn:Hpop.
    2:{ apply pop_None in Hpop. subst stk. exists prices.
        simpl. repeat split; try done.
        - intros Hinv a Ha. destruct (Hinv a Ha) as [Hin|]; [|done].
          by apply elem_of_nil in Hin.
        - congruence. }
    apply pop_Some in Hpop. subst stk.
    rewrite length_app in Hfuel. simpl in Hfuel.
    destruct (Hstk sym) as [p Hp]; [apply elem_of_app; right; apply list_elem_of_singleton; done|].
    destruct (relax_spec S sym p (adj_of graph sym) prices stk1 Hp)
      as (prices1 & news & Hrun & Hsub1 & Hadj & Hnews & Hnew & Hsize).
    assert (traverse (Datatypes.S fuel) graph prices (stk1 ++ [sym])
            = traverse fuel graph prices1 (stk1 ++ news)) as Hstep.
    { simpl. rewrite pop_app_last. unfold adj_of in Hrun.
      destruct (graph !! sym) as [adj|] eqn:Hg; simpl in Hrun.
      - by rewrite Hrun.
      - injection Hrun as <- Hn. apply (f_equal length) in Hn.
        rewrite length_app in Hn. destruct news; [|simpl in Hn; lia].
        by rewrite app_nil_r. }
    destruct (IH prices1 (stk1 ++ news)) as (prices' & Hrun' & Hsub' & Hcl & HRnew).
    { intros a [Ha|Ha]%elem_of_app.
      - destruct (Hstk a) as [q Hq]; [apply elem_of_app; by left|].
        exists q. by eapply lookup_weaken.
      - by apply Hnews. }
    { rewrite length_app.
      assert (length news + size (S ∖ dom prices1) <= size (S ∖ dom prices)).
      { apply Hsize. intros e He. by eapply HS. }
      lia. }
    exists prices'. rewrite Hstep. split; [done|]. split; [by etrans|]. split.
    + intros Hinv. apply Hcl. intros a [q Hq].
      destruct (prices !! a) as [q0|] eqn:Hqa.
      * destruct (Hinv a) as [[Hin|Hin]%elem_of_app|Hc]; [by eexists|..].
        -- left. apply elem_of_app. by left.
        -- apply list_elem_of_singleton in Hin. subst a. right. exact Hadj.
        -- right. by eapply closed_at_mono.
      * left. apply elem_of_app. right. by apply (Hnew a q).
    + intros HRstk b q Hb Hq.
      assert (R sym p) as HRsym.
      { apply HRstk; [|done]. apply elem_of_app. right.
        by apply list_elem_of_singleton. }
      destruct (prices1 !! b) as [q1|] eqn:Hq1.
      * assert (q1 = q) as -> by (eapply lookup_weaken in Hq1; [|exact Hsub']; congruence).
        destruct (Hnew b q Hb Hq1) as (_ & e & He & <- & ->).
        by apply (HR sym).
      * apply HRnew; [|done..].
        intros a pa [Ha|Ha]%elem_of_app Hpa.
        -- destruct (Hstk a) as [q0 Hq0]; [apply elem_of_app; by left|].
           assert (q0 = pa) as -> by (eapply lookup_weaken in Hq0; [|exact Hsub1]; congruence).
           apply HRstk; [|done]. apply elem_of_app. by left.
        -- destruct (Hnews a Ha) as [Hn _].
           destruct (Hnew a pa Hn Hpa) as (_ & e & He & <- & ->).
           by apply (HR sym).
Qed.

Lemma traverse_mono fuel graph prices stk prices' :
  traverse fuel graph prices stk = Done prices' -> prices ⊆ prices'.
Proof.
  revert prices stk. induction fuel as [|fuel IH]; intros prices stk; simpl.
  - destruct (pop stk) as [[? ?]|]; [discriminate|]. by intros [= <-].
  - destruct (pop stk) as [[stk1 sym]|]; [|by intros [= <-]].
    destruct (graph !! sym) as [adj|]; [|by apply IH].
    intros (res & Hrel & Htr)%Outcome_bind_Done. destruct res as [prices1 stk2].
    etrans; [|by eapply IH].
    clear -Hrel. revert prices stk1 Hrel.
    induction adj as [|e adj IHadj]; intros prices stk1; simpl.
    + by intros [= <- _].
    + destruct (prices !! edge_symbol e) eqn:He; [by apply IHadj|].
      destruct (prices !! sym); [|discriminate].
      intros Hrel. etrans; [|by eapply IHadj]. by apply insert_subseteq.
Qed.

(** *** The order in which the traversal reaches the symbols *)








End TraversalProperties.

(** ** The graph built from a batch *)

Section GraphProperties.

Context {D : Type} `{DecimalOps D}.

Implicit Types (graph : gmap string (list (Edge D))) (prices : gmap string D).

Lemma adj_of_addEdge graph A B r a :
  adj_of (addEdge graph A B r) a
  = adj_of graph a
    ++ (if decide (A = a) then [{| edge_symbol := B; ratio := r |}] else []).
Proof.
  unfold adj_of, addEdge.
  destruct (graph !! A) as [adj|] eqn:HA; case_decide as Ha; subst.
  - by rewrite lookup_insert_eq, HA.
  - rewrite lookup_insert_ne by done. by rewrite app_nil_r.
  - by rewrite lookup_insert_eq, HA.
  - rewrite lookup_insert_ne by done. by rewrite app_nil_r.
Qed.

Lemma add_swap_edges_adj graph se graph' a :
  add_swap_edges graph se = Done graph' ->
  adj_of graph' a
  = adj_of graph a ++ (filter (fun x => x.1 = a) (swap_edges se)).*2.
Proof.
  unfold add_swap_edges, swap_edges.
  destruct (truthy (symbol (token0 se)) && truthy (symbol (token1 se))).
  2:{ intros [= <-]. simpl. by rewrite app_nil_r. }
  destruct (amount (token0 se)) as [a0|], (amount (token1 se)) as [a1|];
    simpl; try discriminate.
  intros [= <-]. rewrite !adj_of_addEdge, <- app_assoc. f_equal.
  rewrite !filter_cons, filter_nil. simpl.
  repeat case_decide; done.
Qed.

Lemma batch_edges_cons (se : SwapEvent D) batch :
  batch_edges (se :: batch) = swap_edges se ++ batch_edges batch.
Proof. reflexivity. Qed.

Lemma build_graph_adj batch graph graph' a :
  build_graph graph batch = Done graph' ->
  adj_of graph' a
  = adj_of graph a ++ (filter (fun x => x.1 = a) (batch_edges batch)).*2.
Proof.
  revert graph. induction batch as [|se batch IH]; intros graph.
  - simpl. intros [= <-]. by rewrite app_nil_r.
  - rewrite batch_edges_cons. simpl.
    intros (graph1 & Hadd & Hrest)%Outcome_bind_Done.
    rewrite (IH _ Hrest), (add_swap_edges_adj _ _ _ a Hadd).
    rewrite filter_app, fmap_app. by rewrite <- app_assoc.
Qed.

Lemma build_graph_elem batch graph' a e :
  build_graph ∅ batch = Done graph' ->
  e ∈ adj_of graph' a <-> (a, e) ∈ batch_edges batch.
Proof.
  intros Hb. rewrite (build_graph_adj _ _ _ a Hb).
  unfold adj_of at 1. rewrite lookup_empty. simpl.
  rewrite list_elem_of_fmap. split.
  - intros ([a' e'] & -> & [Ha ?]%list_elem_of_filter). simpl in *. by subst.
  - intros Hin. exists (a, e). split; [done|].
    apply list_elem_of_filter. by split.
Qed.

Lemma build_graph_total batch graph :
  Forall (fun se => is_Some (amount (token0 se))
                    /\ is_Some (amount (token1 se))) batch ->
  exists graph', build_graph graph batch = Done graph'.
Proof.
  intros Hall. revert graph.
  induction Hall as [|se batch ([a0 H0] & [a1 H1]) _ IH]; intros graph; simpl.
  - by eexists.
  - unfold add_swap_edges. rewrite H0, H1.
    destruct (truthy (symbol (token0 se)) && truthy (symbol (token1 se)));
      simpl; apply IH.
Qed.

Lemma swap_edges_sym se a e :
  (a, e) ∈ swap_edges se ->
  exists e', (edge_symbol e, e') ∈ swap_edges se /\ edge_symbol e' = a.
Proof.
  unfold swap_edges.
  destruct (truthy (symbol (token0 se)) && truthy (symbol (token1 se)));
    [|by intros ?%elem_of_nil].
  destruct (amount (token0 se)) as [a0|], (amount (token1 se)) as [a1|];
    try (by intros ?%elem_of_nil).
  intros [Heq|[Heq|?%elem_of_nil]%elem_of_cons]%elem_of_cons; [| |done];
    injection Heq as -> ->; simpl; eexists; split;
    [apply elem_of_cons; right; apply elem_of_cons; by left|done
    |apply elem_of_cons; by left|done].
Qed.

Lemma edge_sym batch a b : edge batch a b -> edge batch b a.
Proof.
  intros (e & (se & He & Hse)%list_elem_of_bind & <-).
  destruct (swap_edges_sym se a e He) as (e' & He' & <-).
  exists e'. split; [|done]. apply list_elem_of_bind. eauto.
Qed.

Lemma connected_sym batch a b : connected batch a b -> connected batch b a.
Proof.
  induction 1 as [|a b c Hab _ IH]; [done|].
  eapply rtc_r; [exact IH|]. by apply edge_sym.
Qed.

(** The leg symbols of a swap with two non-empty symbols are joined. *)
Lemma swap_edge batch se :
  se ∈ batch ->
  truthy (symbol (token0 se)) = true -> truthy (symbol (token1 se)) = true ->
  is_Some (amount (token0 se)) -> is_Some (amount (token1 se)) ->
  edge batch (symbol (token0 se)) (symbol (token1 se)).
Proof.
  intros Hin H0 H1 [a0 Ha0] [a1 Ha1].
  exists {| edge_symbol := symbol (token1 se); ratio := dividedBy a0 a1 |}.
  split; [|done]. apply list_elem_of_bind. exists se. split; [|done].
  unfold swap_edges. rewrite H0, H1, Ha0, Ha1. simpl.
  apply elem_of_cons. by left.
Qed.

Lemma size_list_to_set_le (l : list string) :
  size (list_to_set l : gset string) <= length l.
Proof.
  induction l as [|x l IH].
  - by rewrite list_to_set_nil, size_empty.
  - rewrite list_to_set_cons, size_union_alt, size_singleton. simpl.
    assert (size (list_to_set l ∖ ({[x]} : gset string)) <= size (list_to_set l : gset string)).
    { apply subseteq_size. by intros y [? _]%elem_of_difference. }
    lia.
Qed.

Lemma length_swap_edges se : length (swap_edges se) <= 2.
Proof.
  unfold swap_edges.
  destruct (_ && _); [|simpl; lia].
  destruct (amount (token0 se)), (amount (token1 se)); simpl; lia.
Qed.

Lemma size_edge_targets batch : size (edge_targets batch) <= 2 * length batch.
Proof.
  unfold edge_targets. etrans; [apply size_list_to_set_le|].
  rewrite length_fmap.
  induction batch as [|se batch IH]; [simpl; lia|].
  rewrite batch_edges_cons, length_app.
  pose proof (length_swap_edges se). simpl. lia.
Qed.

Lemma build_graph_targets batch graph :
  build_graph ∅ batch = Done graph -> targets_in graph (edge_targets batch).
Proof.
  intros Hb a e He. apply (build_graph_elem _ _ _ _ Hb) in He.
  unfold edge_targets. apply elem_of_list_to_set, list_elem_of_fmap.
  by exists (a, e).
Qed.

End GraphProperties.

(** ** Seeding *)

Section SeedProperties.

Context {D : Type} `{DecimalOps D}.

Lemma fold_insert_lookup (l : list string) (v : D) (m : gmap string D) a :
  fold_left (fun m s => <[s := v]> m) l m !! a
  = if decide (a ∈ l) then Some v else m !! a.
Proof.
  revert m. induction l as [|x l IH]; intros m.
  - rewrite decide_False; [done|]. by intros ?%elem_of_nil.
  - cbn [fold_left]. rewrite IH. destruct (decide (a ∈ l)) as [Hl|Hl].
    + rewrite decide_True; [done|]. apply elem_of_cons. by right.
    + destruct (decide (a = x)) as [->|Hne].
      * rewrite lookup_insert_eq. rewrite decide_True; [done|].
        apply elem_of_cons. by left.
      * rewrite lookup_insert_ne by done. rewrite decide_False; [done|].
        by intros [?|?]%elem_of_cons.
Qed.

Lemma seed_prices_lookup (ETH2USD : D) a :
  seed_prices anchors ETH2USD !! a
  = if decide (a ∈ take 30 anchors) then Some Dec_one
    else if decide (a = "WETH") then Some ETH2USD else None.
Proof.
  unfold seed_prices. rewrite fold_insert_lookup.
  change (length anchors - 1) with 30.
  case_decide; [done|]. case_decide as Hw.
  - subst. by rewrite lookup_insert_eq.
  - rewrite lookup_insert_ne by done. apply lookup_empty.
Qed.

Lemma anchors_split : anchors = take 30 anchors ++ ["WETH"].
Proof. reflexivity. Qed.

Lemma WETH_not_stable : "WETH" ∉ take 30 anchors.
Proof. apply (bool_decide_unpack _). by vm_compute. Qed.

Lemma seed_prices_WETH (ETH2USD : D) :
  seed_prices anchors ETH2USD !! "WETH" = Some ETH2USD.
Proof.
  rewrite seed_prices_lookup. rewrite decide_False by apply WETH_not_stable.
  by rewrite decide_True.
Qed.

Lemma seed_prices_stable (ETH2USD : D) a :
  a ∈ anchors -> a <> "WETH" ->
  seed_prices anchors ETH2USD !! a = Some Dec_one.
Proof.
  intros Hin Hne. rewrite seed_prices_lookup.
  rewrite anchors_split in Hin. apply elem_of_app in Hin as [Hin|Hin].
  - by rewrite decide_True.
  - by apply list_elem_of_singleton in Hin.
Qed.

Lemma seed_prices_is_Some (ETH2USD : D) a :
  is_Some (seed_prices anchors ETH2USD !! a) <-> a ∈ anchors.
Proof.
  rewrite seed_prices_lookup, anchors_split, elem_of_app, list_elem_of_singleton.
  repeat case_decide; split; intros Hx; try (by eauto).
  all: by destruct Hx.
Qed.

End SeedProperties.

(** ** The second loop *)

Section LoopProperties.

Context {D : Type} `{DecimalOps D}.
Context (Moralis_getTokenPrice : string -> option D).

Implicit Types (graph : gmap string (list (Edge D))) (prices : gmap string D).
Implicit Types (st : PricingState D) (se : SwapEvent D).

#[local] Abbreviation visit := (visit Moralis_getTokenPrice).
#[local] Abbreviation price_events := (price_events Moralis_getTokenPrice).
#[local] Abbreviation oracle_price := (oracle_price Moralis_getTokenPrice).

(** The object [getEthereumTokenUSD] returns is never the object
    [new Decimal(0)] creates afterwards. *)
Lemma zero_check_never_fires token_address n :
  let '(usdPrice, next1) :=
    getEthereumTokenUSD Moralis_getTokenPrice token_address n in
  let '(zero, _) := new_Decimal Dec_zero next1 in
  loose_equals usdPrice zero = false.
Proof.
  unfold getEthereumTokenUSD, new_Decimal, loose_equals.
  destruct (Moralis_getTokenPrice token_address); simpl;
    apply Nat.eqb_neq; lia.
Qed.

Lemma visit_unpriced fuel graph se st :
  symbol2USD st !! symbol (token0 se) = None ->
  visit fuel graph se st
  = (prices2 ← traverse fuel graph
                 (<[symbol (token0 se) := oracle_price (id (token0 se))]>
                    (symbol2USD st))
                 (stack st ++ [symbol (token0 se)]);
     se1 ← apply_prices prices2 se;
     Done (se1, {| symbol2USD := prices2; stack := [];
                   oracle_calls := oracle_calls st ++ [id (token0 se)];
                   next_ref := S (S (next_ref st)) |})).
Proof.
  intros Hnone. unfold visit. rewrite Hnone.
  unfold getEthereumTokenUSD, new_Decimal, loose_equals, oracle_price.
  destruct (Moralis_getTokenPrice (id (token0 se))); simpl;
    by rewrite (proj2 (Nat.eqb_neq _ _)) by lia.
Qed.

Lemma apply_prices_enriched prices se :
  is_Some (amount (token0 se)) -> is_Some (amount (token1 se)) ->
  apply_prices prices se = Done (enriched prices se).
Proof.
  intros [a0 H0] [a1 H1]. unfold apply_prices, enriched, priced_leg, assign_usd.
  destruct (prices !! symbol (token0 se)) as [p0|]; [|done].
  rewrite H0. simpl.
  destruct (prices !! symbol (token1 se)) as [p1|]; [|done].
  by rewrite H1.
Qed.

Lemma priced_leg_idem prices (leg : Leg D) :
  priced_leg prices (priced_leg prices leg) = priced_leg prices leg.
Proof.
  unfold priced_leg. destruct (prices !! symbol leg) as [p|] eqn:Hp; simpl.
  - by rewrite Hp.
  - by rewrite Hp.
Qed.

Lemma symbol_priced_leg prices (leg : Leg D) :
  symbol (priced_leg prices leg) = symbol leg.
Proof. unfold priced_leg. by destruct (prices !! symbol leg). Qed.

Lemma amount_priced_leg prices (leg : Leg D) :
  amount (priced_leg prices leg) = amount leg.
Proof. unfold priced_leg. by destruct (prices !! symbol leg). Qed.

Lemma enriched_idem prices se :
  enriched prices (enriched prices se) = enriched prices se.
Proof.
  unfold enriched. destruct (prices !! symbol (token0 se)) as [p|] eqn:Hp.
  - simpl. rewrite symbol_priced_leg, Hp. unfold with_legs. simpl.
    by rewrite !priced_leg_idem.
  - by rewrite Hp.
Qed.

Lemma amount_enriched prices se :
  amount (token0 (enriched prices se)) = amount (token0 se)
  /\ amount (token1 (enriched prices se)) = amount (token1 se).
Proof.
  unfold enriched. destruct (prices !! symbol (token0 se)); [|done].
  simpl. by rewrite !amount_priced_leg.
Qed.

(** One iteration from a state whose stack is empty and whose price map is
    closed under the edges. *)
Lemma visit_spec graph (S : gset string) fuel se st :
  targets_in graph S -> 1 + size S <= fuel ->
  stack st = [] -> closed graph (symbol2USD st) ->
  is_Some (amount (token0 se)) -> is_Some (amount (token1 se)) ->
  exists st',
    visit fuel graph se st = Done (enriched (symbol2USD st') se, st')
    /\ stack st' = []
    /\ closed graph (symbol2USD st')
    /\ symbol2USD st ⊆ symbol2USD st'
    /\ is_Some (symbol2USD st' !! symbol (token0 se))
    /\ (is_Some (symbol2USD st !! symbol (token0 se)) -> st' = st)
    /\ (symbol2USD st !! symbol (token0 se) = None ->
        oracle_calls st' = oracle_calls st ++ [id (token0 se)]
        /\ symbol2USD st' !! symbol (token0 se)
           = Some (oracle_price (id (token0 se)))
        /\ forall R : string -> D -> Prop,
            (forall a pa e, R a pa -> e ∈ adj_of graph a ->
                            R (edge_symbol e) (times pa (ratio e))) ->
            R (symbol (token0 se)) (oracle_price (id (token0 se))) ->
            forall b q, symbol2USD st !! b = None ->
                        symbol2USD st' !! b = Some q -> R b q).
Proof.
  intros HS Hfuel Hstack Hclosed Ha0 Ha1.
  destruct (symbol2USD st !! symbol (token0 se)) as [p0|] eqn:Hp0.
  - exists st. unfold visit. rewrite Hp0.
    rewrite (apply_prices_enriched _ se Ha0 Ha1). simpl.
    destruct (amount_enriched (symbol2USD st) se) as [E0 E1].
    rewrite apply_prices_enriched by (by rewrite ?E0, ?E1).
    simpl. rewrite enriched_idem. split_and!; try done.
  - rewrite (visit_unpriced _ _ _ _ Hp0). rewrite Hstack. simpl.
    set (T := symbol (token0 se)) in *.
    set (p := oracle_price (id (token0 se))).
    set (prices1 := <[T := p]> (symbol2USD st)).
    assert (prices1 !! T = Some p) as HT1
      by (unfold prices1; by rewrite lookup_insert_eq).
    assert (symbol2USD st ⊆ prices1) as Hsub1 by (by apply insert_subseteq).
    assert (forall R : string -> D -> Prop,
             (forall a pa e, R a pa -> e ∈ adj_of graph a ->
                             R (edge_symbol e) (times pa (ratio e))) ->
             exists prices',
               traverse fuel graph prices1 [T] = Done prices'
               /\ prices1 ⊆ prices' /\ closed graph prices'
               /\ (R T p -> forall b q, prices1 !! b = None ->
                                        prices' !! b = Some q -> R b q))
      as Htr.
    { intros R HR.
      destruct (traverse_spec graph S R HS HR fuel prices1 [T])
        as (prices' & Hrun & Hsub & Hcl & HRnew).
      - intros a ->%list_elem_of_singleton. by eexists.
      - simpl. pose proof (size_difference_le S (dom prices1)). lia.
      - exists prices'. split_and!; try done.
        + apply Hcl. intros a [q Hq].
          destruct (decide (a = T)) as [->|Hne];
            [left; by apply list_elem_of_singleton|].
          right. unfold prices1 in Hq. rewrite lookup_insert_ne in Hq by done.
          eapply closed_at_mono; [exact Hsub1|]. apply Hclosed. by eexists.
        + intros HRT. apply HRnew.
          intros a pa ->%list_elem_of_singleton Hpa. congruence. }
    destruct (Htr (fun _ _ => True)) as (prices' & Hrun & Hsub & Hcl & _);
      [done|].
    rewrite Hrun. simpl.
    rewrite (apply_prices_enriched _ se Ha0 Ha1). simpl.
    exists {| symbol2USD := prices'; stack := [];
              oracle_calls := oracle_calls st ++ [id (token0 se)];
              next_ref := Datatypes.S (Datatypes.S (next_ref st)) |}.
    split; [reflexivity|]. simpl.
    assert (prices' !! T = Some p) as HT' by (by eapply lookup_weaken).
    split_and!; try done.
    + by etrans.
    + intros _. split_and!; try done.
      intros R HR HRT b q Hb Hq.
      destruct (Htr R HR) as (prices'' & Hrun'' & _ & _ & HRnew).
      assert (prices'' = prices') as -> by congruence.
      destruct (decide (b = T)) as [->|Hne]; [congruence|].
      apply HRnew; [done| |done].
      unfold prices1. by rewrite lookup_insert_ne.
Qed.

Lemma price_events_cons fuel graph se rest st :
  price_events fuel graph (se :: rest) st
  = ('(se', st1) ← visit fuel graph se st;
     '(rest', st2) ← price_events fuel graph rest st1;
     Done (se' :: rest', st2)).
Proof. reflexivity. Qed.

Lemma price_events_app fuel graph l1 l2 st :
  price_events fuel graph (l1 ++ l2) st
  = ('(e1, st1) ← price_events fuel graph l1 st;
     '(e2, st2) ← price_events fuel graph l2 st1;
     Done (e1 ++ e2, st2)).
Proof.
  revert st. induction l1 as [|se l1 IH]; intros st; simpl.
  - by destruct (price_events fuel graph l2 st) as [[e2 st2]| |].
  - destruct (visit fuel graph se st) as [[se' st1]| |]; simpl; [|done..].
    rewrite IH.
    destruct (price_events fuel graph l1 st1) as [[e1 st2]| |]; simpl; [|done..].
    by destruct (price_events fuel graph l2 st2) as [[e2 st3]| |].
Qed.

(** The loop from a state whose stack is empty and whose price map is
    closed: it ends, in such a state, and has priced every first leg. *)
Lemma price_events_spec graph (S : gset string) fuel :
  targets_in graph S -> 1 + size S <= fuel ->
  forall events st,
    stack st = [] -> closed graph (symbol2USD st) ->
    Forall has_amounts events ->
    exists evs st',
      price_events fuel graph events st = Done (evs, st')
      /\ length evs = length events
      /\ stack st' = []
      /\ closed graph (symbol2USD st')
      /\ symbol2USD st ⊆ symbol2USD st'
      /\ (forall se, se ∈ events ->
            is_Some (symbol2USD st' !! symbol (token0 se)))
      /\ (forall Q : string -> Prop,
            (forall a e, Q a -> e ∈ adj_of graph a -> Q (edge_symbol e)) ->
            (forall a, is_Some (symbol2USD st !! a) -> Q a) ->
            (forall se, se ∈ events -> Q (symbol (token0 se))) ->
            forall a, is_Some (symbol2USD st' !! a) -> Q a).
Proof.
  intros HS Hfuel events.
  induction events as [|se events IH]; intros st Hstack Hclosed Hall.
  - exists [], st. simpl. split_and!; try done.
    by intros se ?%elem_of_nil.
  - apply Forall_cons in Hall as [[Ha0 Ha1] Hall].
    destruct (visit_spec graph S fuel se st HS Hfuel Hstack Hclosed Ha0 Ha1)
      as (st1 & Hvisit & Hstack1 & Hclosed1 & Hsub1 & Hse & Hsame & Hnew).
    destruct (IH st1 Hstack1 Hclosed1 Hall)
      as (evs & st' & Hrun & Hlen & Hstack' & Hclosed' & Hsub' & Hpriced & Hmin).
    exists (enriched (symbol2USD st1) se :: evs), st'.
    simpl. rewrite Hvisit. simpl. rewrite Hrun. simpl.
    split_and!; try done.
    + by rewrite Hlen.
    + by etrans.
    + intros se' [->|Hin]%elem_of_cons; [|by apply Hpriced].
      destruct Hse as [q Hq]. exists q. by eapply lookup_weaken.
    + intros Q HQstep HQst HQev a Ha. apply (Hmin Q HQstep); [| |done].
      * intros b [q Hq].
        destruct (symbol2USD st !! b) as [q0|] eqn:Hb; [apply HQst; by eexists|].
        destruct (symbol2USD st !! symbol (token0 se)) as [p0|] eqn:Hp0.
        -- rewrite (Hsame (ltac:(by eexists))) in Hq. congruence.
        -- destruct (Hnew eq_refl) as (_ & _ & HR).
           apply (HR (fun a _ => Q a)) with (q := q); try done.
           ++ intros a0 _ e Ha0' He. by eapply HQstep.
           ++ apply HQev. apply elem_of_cons. by left.
      * intros se' Hin. apply HQev. apply elem_of_cons. by right.
Qed.

Lemma price_events_length fuel graph events st evs st' :
  price_events fuel graph events st = Done (evs, st') ->
  length evs = length events.
Proof.
  revert st evs st'. induction events as [|se events IH]; intros st evs st'.
  - simpl. intros Heq. by injection Heq as <- <-.
  - simpl. intros ([se' st1] & _ & Hr)%Outcome_bind_Done.
    apply Outcome_bind_Done in Hr as ([rest st2] & Hr & Heq).
    injection Heq as <- <-. simpl. f_equal. by eapply IH.
Qed.

(** The [i]-th iteration of a run that ends. *)
Lemma price_events_lookup fuel graph events st evs st' i se :
  price_events fuel graph events st = Done (evs, st') ->
  events !! i = Some se ->
  exists evs_i st_i se' st_i1 rest,
    price_events fuel graph (take i events) st = Done (evs_i, st_i)
    /\ visit fuel graph se st_i = Done (se', st_i1)
    /\ price_events fuel graph (take (S i) events) st
       = Done (evs_i ++ [se'], st_i1)
    /\ price_events fuel graph (drop (S i) events) st_i1 = Done (rest, st')
    /\ evs !! i = Some se'.
Proof.
  intros Hrun Hi.
  rewrite <- (take_drop_middle events i se Hi) in Hrun.
  rewrite price_events_app in Hrun.
  apply Outcome_bind_Done in Hrun as ([evs_i st_i] & Hpre & Hrun).
  simpl in Hrun.
  apply Outcome_bind_Done in Hrun as ([e2 st2] & Hmid & Hrun).
  injection Hrun as <- <-.
  simpl in Hmid.
  apply Outcome_bind_Done in Hmid as ([se' st_i1] & Hvisit & Hmid).
  apply Outcome_bind_Done in Hmid as ([rest st3] & Hrest & Hmid).
  injection Hmid as <- <-.
  exists evs_i, st_i, se', st_i1, rest. split_and!; try done.
  - rewrite (take_S_r _ _ _ Hi), price_events_app, Hpre. simpl.
    by rewrite Hvisit.
  - assert (length evs_i = i) as <-.
    { rewrite (price_events_length _ _ _ _ _ _ Hpre), length_take.
      apply lookup_lt_Some in Hi. lia. }
    by rewrite lookup_app_r, Nat.sub_diag by done.
Qed.

End LoopProperties.

(** ** Whole batches *)

Section BatchProperties.

Context {D : Type} `{DecimalOps D}.
Context (Moralis_getTokenPrice : string -> option D).

Implicit Types (graph : gmap string (list (Edge D))) (prices : gmap string D).
Implicit Types (st : PricingState D) (se : SwapEvent D).
Implicit Types (batch : list (SwapEvent D)).

#[local] Abbreviation visit := (visit Moralis_getTokenPrice).
#[local] Abbreviation price_events := (price_events Moralis_getTokenPrice).
#[local] Abbreviation price_batch := (price_batch Moralis_getTokenPrice).
#[local] Abbreviation price_batch_upto :=
  (price_batch_upto Moralis_getTokenPrice).
#[local] Abbreviation oracle_price := (oracle_price Moralis_getTokenPrice).

Lemma decoded_has_amounts batch :
  Forall decoded batch -> Forall has_amounts batch.
Proof. intros Hall. eapply Forall_impl; [exact Hall|]. by intros se [? _]. Qed.

Lemma loop_fuel batch :
  1 + size (edge_targets batch) <= traverse_fuel anchors batch.
Proof.
  unfold traverse_fuel. pose proof (size_edge_targets batch).
  change (length anchors) with 31. lia.
Qed.

Lemma first_fuel batch ETH2USD :
  length anchors
  + size (edge_targets batch ∖ dom (seed_prices anchors ETH2USD))
  <= traverse_fuel anchors batch.
Proof.
  unfold traverse_fuel.
  pose proof (size_edge_targets batch).
  pose proof (size_difference_le (edge_targets batch)
                (dom (seed_prices anchors ETH2USD))).
  lia.
Qed.

#[local] Opaque anchors.

(** The graph and the first traversal of a batch whose legs carry their
    amounts. *)
Lemma first_traversal batch ETH2USD :
  Forall has_amounts batch ->
  exists graph prices0,
    build_graph ∅ batch = Done graph
    /\ traverse (traverse_fuel anchors batch) graph
         (seed_prices anchors ETH2USD) anchors = Done prices0
    /\ seed_prices anchors ETH2USD ⊆ prices0
    /\ closed graph prices0
    /\ (forall Q : string -> Prop,
          (forall a e, Q a -> e ∈ adj_of graph a -> Q (edge_symbol e)) ->
          (forall a, a ∈ anchors -> Q a) ->
          forall a, is_Some (prices0 !! a) -> Q a).
Proof.
  intros Hall.
  destruct (build_graph_total batch ∅ Hall) as [graph Hg].
  pose proof (build_graph_targets _ _ Hg) as HS.
  assert (forall R : string -> D -> Prop,
           (forall a pa e, R a pa -> e ∈ adj_of graph a ->
                           R (edge_symbol e) (times pa (ratio e))) ->
           exists prices0,
             traverse (traverse_fuel anchors batch) graph
               (seed_prices anchors ETH2USD) anchors = Done prices0
             /\ seed_prices anchors ETH2USD ⊆ prices0
             /\ closed graph prices0
             /\ ((forall a pa, a ∈ anchors ->
                    seed_prices anchors ETH2USD !! a = Some pa -> R a pa) ->
                 forall b q, seed_prices anchors ETH2USD !! b = None ->
                             prices0 !! b = Some q -> R b q)) as Htr.
  { intros R HR.
    destruct (traverse_spec graph (edge_targets batch) R HS HR
                (traverse_fuel anchors batch)
                (seed_prices anchors ETH2USD) anchors)
      as (prices0 & Hrun & Hsub & Hcl & HRnew).
    - intros a Ha. by apply (proj2 (seed_prices_is_Some ETH2USD a)).
    - apply first_fuel.
    - exists prices0. split_and!; try done.
      apply Hcl. intros a Ha. left.
      by apply (proj1 (seed_prices_is_Some ETH2USD a)). }
  destruct (Htr (fun _ _ => True)) as (prices0 & Hrun & Hsub & Hcl & _); [done|].
  exists graph, prices0. split_and!; try done.
  intros Q HQ Hanch a [q Hq].
  destruct (Htr (fun a _ => Q a)) as (prices0' & Hrun' & _ & _ & HRnew).
  { intros a0 _ e Ha0 He. by eapply HQ. }
  assert (prices0' = prices0) as -> by congruence.
  destruct (seed_prices anchors ETH2USD !! a) as [q0|] eqn:Hseed.
  - apply Hanch. apply (proj1 (seed_prices_is_Some ETH2USD a)). by eexists.
  - apply (HRnew ltac:(by intros; apply Hanch) a q Hseed Hq).
Qed.

Lemma price_batch_unfold batch ETH2USD graph prices0 :
  build_graph ∅ batch = Done graph ->
  traverse (traverse_fuel anchors batch) graph
    (seed_prices anchors ETH2USD) anchors = Done prices0 ->
  price_batch batch ETH2USD
  = price_events (traverse_fuel anchors batch) graph batch (loop_start prices0)
  /\ forall k, price_batch_upto k batch ETH2USD
               = price_events (traverse_fuel anchors batch) graph
                   (take k batch) (loop_start prices0).
Proof.
  intros Hg Htr.
  unfold price_batch, price_batch_upto.
  rewrite Hg, bind_Done. cbv zeta.
  split; [|intros k; rewrite bind_Done; cbv zeta];
    rewrite Htr, bind_Done; reflexivity.
Qed.

(** A batch whose legs carry their amounts is priced without an exception,
    and so is every prefix of the second loop. *)
Lemma price_batch_total batch ETH2USD :
  Forall has_amounts batch ->
  exists graph prices0 evs st,
    build_graph ∅ batch = Done graph
    /\ traverse (traverse_fuel anchors batch) graph
         (seed_prices anchors ETH2USD) anchors = Done prices0
    /\ price_batch batch ETH2USD = Done (evs, st)
    /\ price_events (traverse_fuel anchors batch) graph batch
         (loop_start prices0) = Done (evs, st)
    /\ length evs = length batch
    /\ seed_prices anchors ETH2USD ⊆ symbol2USD st
    /\ closed graph (symbol2USD st)
    /\ (forall se, se ∈ batch -> is_Some (symbol2USD st !! symbol (token0 se)))
    /\ (forall Q : string -> Prop,
          (forall a e, Q a -> e ∈ adj_of graph a -> Q (edge_symbol e)) ->
          (forall a, a ∈ anchors -> Q a) ->
          (forall se, se ∈ batch -> Q (symbol (token0 se))) ->
          forall a, is_Some (symbol2USD st !! a) -> Q a).
Proof.
  intros Hall.
  destruct (first_traversal batch ETH2USD Hall)
    as (graph & prices0 & Hg & Htr & Hsub0 & Hcl0 & Hmin0).
  destruct (price_events_spec Moralis_getTokenPrice graph (edge_targets batch)
              (traverse_fuel anchors batch)
              (build_graph_targets _ _ Hg) (loop_fuel batch)
              batch (loop_start prices0) eq_refl Hcl0 Hall)
    as (evs & st & Hrun & Hlen & _ & Hcl & Hsub & Hpriced & Hmin).
  exists graph, prices0, evs, st.
  destruct (price_batch_unfold batch ETH2USD graph prices0 Hg Htr) as [-> _].
  split_and!; try done.
  - by etrans.
  - intros Q HQ Hanch Hev. apply (Hmin Q HQ); [|done].
    by apply Hmin0.
Qed.

(** The state before iteration [i], the iteration, and the state after. *)
Lemma price_batch_iteration batch ETH2USD i se :
  Forall has_amounts batch -> batch !! i = Some se ->
  exists graph evs st evs_i st_i se' st_i1,
    build_graph ∅ batch = Done graph
    /\ price_batch batch ETH2USD = Done (evs, st)
    /\ price_batch_upto i batch ETH2USD = Done (evs_i, st_i)
    /\ price_batch_upto (S i) batch ETH2USD = Done (evs_i ++ [se'], st_i1)
    /\ visit (traverse_fuel anchors batch) graph se st_i = Done (se', st_i1)
    /\ evs !! i = Some se'
    /\ stack st_i = [] /\ closed graph (symbol2USD st_i)
    /\ symbol2USD st_i1 ⊆ symbol2USD st
    /\ closed graph (symbol2USD st).
Proof.
  intros Hall Hi.
  destruct (price_batch_total batch ETH2USD Hall)
    as (graph & prices0 & evs & st & Hg & Htr & Hpb & Hrun & _ & _ & Hcl & _).
  destruct (price_batch_unfold batch ETH2USD graph prices0 Hg Htr) as [_ Hupto].
  destruct (price_events_lookup Moralis_getTokenPrice _ _ _ _ _ _ i se Hrun Hi)
    as (evs_i & st_i & se' & st_i1 & rest & Hpre & Hvisit & Hpre1 & Hrest & Hevs).
  exists graph, evs, st, evs_i, st_i, se', st_i1.
  rewrite !Hupto. split_and!; try done.
  - destruct (first_traversal batch ETH2USD Hall)
      as (graph' & prices0' & Hg' & Htr' & _ & Hcl0 & _).
    assert (graph' = graph) as -> by congruence.
    assert (prices0' = prices0) as -> by congruence.
    destruct (price_events_spec Moralis_getTokenPrice graph (edge_targets batch)
                (traverse_fuel anchors batch)
                (build_graph_targets _ _ Hg) (loop_fuel batch)
                (take i batch) (loop_start prices0) eq_refl Hcl0)
      as (? & ? & Hrun' & _ & Hs & _); [by apply Forall_take|].
    rewrite Hpre in Hrun'. by injection Hrun' as <- <-.
  - destruct (first_traversal batch ETH2USD Hall)
      as (graph' & prices0' & Hg' & Htr' & _ & Hcl0 & _).
    assert (graph' = graph) as -> by congruence.
    assert (prices0' = prices0) as -> by congruence.
    destruct (price_events_spec Moralis_getTokenPrice graph (edge_targets batch)
                (traverse_fuel anchors batch)
                (build_graph_targets _ _ Hg) (loop_fuel batch)
                (take i batch) (loop_start prices0) eq_refl Hcl0)
      as (? & ? & Hrun' & _ & _ & Hc & _); [by apply Forall_take|].
    rewrite Hpre in Hrun'. by injection Hrun' as <- <-.
  - destruct (first_traversal batch ETH2USD Hall)
      as (graph' & prices0' & Hg' & Htr' & _ & Hcl0 & _).
    assert (graph' = graph) as -> by congruence.
    assert (prices0' = prices0) as -> by congruence.
    destruct (price_events_spec Moralis_getTokenPrice graph (edge_targets batch)
                (traverse_fuel anchors batch)
                (build_graph_targets _ _ Hg) (loop_fuel batch)
                (take (S i) batch) (loop_start prices0) eq_refl Hcl0)
      as (? & st1' & Hrun1 & _ & Hs1 & Hc1 & _); [by apply Forall_take|].
    rewrite Hpre1 in Hrun1. injection Hrun1 as <- <-.
    destruct (price_events_spec Moralis_getTokenPrice graph (edge_targets batch)
                (traverse_fuel anchors batch)
                (build_graph_targets _ _ Hg) (loop_fuel batch)
                (drop (S i) batch) st_i1 Hs1 Hc1)
      as (? & ? & Hrun2 & _ & _ & _ & Hsub & _); [by apply Forall_drop|].
    rewrite Hrest in Hrun2. by injection Hrun2 as <- <-.
Qed.

#[local] Transparent anchors.

End BatchProperties.

Section PricingTheorems.

Context {D : Type} `{DecimalOps D}.
Context (Moralis_getTokenPrice : string -> option D).

Implicit Types (graph : gmap string (list (Edge D))) (prices : gmap string D).
Implicit Types (st : PricingState D) (se : SwapEvent D).
Implicit Types (batch : list (SwapEvent D)).

#[local] Abbreviation visit := (visit Moralis_getTokenPrice).
#[local] Abbreviation price_events := (price_events Moralis_getTokenPrice).
#[local] Abbreviation price_batch := (price_batch Moralis_getTokenPrice).
#[local] Abbreviation price_batch_upto :=
  (price_batch_upto Moralis_getTokenPrice).
#[local] Abbreviation oracle_price := (oracle_price Moralis_getTokenPrice).

#[local] Opaque anchors.

(** *** Prices are only ever added *)

Lemma visit_mono fuel graph se st se' st' :
  visit fuel graph se st = Done (se', st') ->
  symbol2USD st ⊆ symbol2USD st'.
Proof.
  destruct (symbol2USD st !! symbol (token0 se)) as [p0|] eqn:Hp0.
  - unfold visit. rewrite Hp0.
    intros (se1 & _ & Hr)%Outcome_bind_Done.
    apply Outcome_bind_Done in Hr as (se2 & _ & Heq).
    by injection Heq as _ <-.
  - rewrite (visit_unpriced _ _ _ _ _ Hp0).
    intros (prices2 & Htr & Hr)%Outcome_bind_Done.
    apply Outcome_bind_Done in Hr as (se1 & _ & Heq).
    injection Heq as _ <-. simpl.
    etrans; [|by eapply traverse_mono]. by apply insert_subseteq.
Qed.

Lemma price_events_mono fuel graph events st evs st' :
  price_events fuel graph events st = Done (evs, st') ->
  symbol2USD st ⊆ symbol2USD st'.
Proof.
  revert st evs st'. induction events as [|se events IH]; intros st evs st'.
  - simpl. intros Heq. by injection Heq as _ <-.
  - simpl. intros ([se' st1] & Hv & Hr)%Outcome_bind_Done.
    apply Outcome_bind_Done in Hr as ([rest st2] & Hr & Heq).
    injection Heq as _ <-.
    etrans; [by eapply visit_mono|by eapply IH].
Qed.

Lemma price_batch_inv batch ETH2USD evs st :
  price_batch batch ETH2USD = Done (evs, st) ->
  exists graph prices0,
    build_graph ∅ batch = Done graph
    /\ traverse (traverse_fuel anchors batch) graph
         (seed_prices anchors ETH2USD) anchors = Done prices0
    /\ price_events (traverse_fuel anchors batch) graph batch
         (loop_start prices0) = Done (evs, st).
Proof.
  unfold price_batch.
  intros (graph & Hg & Hr)%Outcome_bind_Done. cbv zeta in Hr.
  apply Outcome_bind_Done in Hr as (prices0 & Htr & Hr).
  by exists graph, prices0.
Qed.

Lemma price_batch_upto_mono batch ETH2USD evs st k evs_k st_k :
  price_batch batch ETH2USD = Done (evs, st) ->
  price_batch_upto k batch ETH2USD = Done (evs_k, st_k) ->
  seed_prices anchors ETH2USD ⊆ symbol2USD st_k
  /\ symbol2USD st_k ⊆ symbol2USD st.
Proof.
  intros (graph & prices0 & Hg & Htr & Hrun)%price_batch_inv Hk.
  destruct (price_batch_unfold Moralis_getTokenPrice batch ETH2USD graph
              prices0 Hg Htr) as [_ Hupto].
  rewrite Hupto in Hk.
  pose proof (price_events_app Moralis_getTokenPrice
                (traverse_fuel anchors batch) graph
                (take k batch) (drop k batch) (loop_start prices0)) as Happ.
  rewrite take_drop in Happ. rewrite Happ, Hk, bind_Done in Hrun.
  apply Outcome_bind_Done in Hrun as ([e2 st2] & Hrest & Heq).
  injection Heq as _ <-.
  split; [|by eapply price_events_mono].
  etrans; [by eapply traverse_mono|].
  by apply price_events_mono in Hk.
Qed.

(** *** Which path prices a symbol *)




(** *** The priced symbols do not depend on the order of the batch *)

Lemma batch_edges_perm batch1 batch2 a (e : Edge D) :
  batch1 ≡ₚ batch2 ->
  (a, e) ∈ batch_edges batch1 -> (a, e) ∈ batch_edges batch2.
Proof.
  intros Hperm (se & He & Hse)%list_elem_of_bind.
  apply list_elem_of_bind. exists se. split; [done|]. by rewrite <- Hperm.
Qed.

Lemma priced_symbols_included batch1 batch2 ETH2USD :
  batch1 ≡ₚ batch2 -> Forall has_amounts batch1 ->
  exists evs1 st1 evs2 st2,
    price_batch batch1 ETH2USD = Done (evs1, st1)
    /\ price_batch batch2 ETH2USD = Done (evs2, st2)
    /\ forall a, is_Some (symbol2USD st1 !! a) -> is_Some (symbol2USD st2 !! a).
Proof.
  intros Hperm Hall1.
  assert (Forall has_amounts batch2) as Hall2 by (by rewrite <- Hperm).
  destruct (price_batch_total Moralis_getTokenPrice batch1 ETH2USD Hall1)
    as (g1 & p1 & evs1 & st1 & Hg1 & _ & Hrun1 & _ & _ & _ & _ & _ & Hmin1).
  destruct (price_batch_total Moralis_getTokenPrice batch2 ETH2USD Hall2)
    as (g2 & p2 & evs2 & st2 & Hg2 & _ & Hrun2 & _ & _ & Hseed2 & Hcl2 & Hpr2 & _).
  exists evs1, st1, evs2, st2. split_and!; try done.
  apply (Hmin1 (fun a => is_Some (symbol2USD st2 !! a))).
  - intros a e Ha He.
    apply (build_graph_elem _ _ _ _ Hg1) in He.
    apply (batch_edges_perm _ _ _ _ Hperm) in He.
    apply (build_graph_elem _ _ _ _ Hg2) in He.
    by apply (Hcl2 a).
  - intros a Ha.
    destruct (proj2 (seed_prices_is_Some ETH2USD a) Ha) as [q Hq].
    exists q. by eapply lookup_weaken.
  - intros se Hse. apply Hpr2. by rewrite <- Hperm.
Qed.

(** C4, as amended.  For a batch whose legs carry their amounts, every
    ordering of the batch is priced without an exception and the same
    symbols receive a price (the same are left without one); which price a
    symbol receives does depend on the ordering. *)
Theorem priced_symbols_permutation_invariant batch1 batch2 ETH2USD :
  batch1 ≡ₚ batch2 -> Forall has_amounts batch1 ->
  exists evs1 st1 evs2 st2,
    price_batch batch1 ETH2USD = Done (evs1, st1)
    /\ price_batch batch2 ETH2USD = Done (evs2, st2)
    /\ dom (symbol2USD st1) = dom (symbol2USD st2).
Proof.
  intros Hperm Hall1.
  assert (Forall has_amounts batch2) as Hall2 by (by rewrite <- Hperm).
  destruct (priced_symbols_included batch1 batch2 ETH2USD Hperm Hall1)
    as (evs1 & st1 & evs2 & st2 & Hrun1 & Hrun2 & H12).
  destruct (priced_symbols_included batch2 batch1 ETH2USD (symmetry Hperm) Hall2)
    as (evs2' & st2' & evs1' & st1' & Hrun2' & Hrun1' & H21).
  assert (st2' = st2) as -> by congruence.
  assert (st1' = st1) as -> by congruence.
  exists evs1, st1, evs2, st2. split_and!; try done.
  apply set_eq. intros a. rewrite !elem_of_dom. split; [apply H12|apply H21].
Qed.

(** *** Oracle fallback *)

Lemma closed_connected batch graph prices a b :
  build_graph ∅ batch = Done graph -> closed graph prices ->
  connected batch a b -> is_Some (prices !! a) -> is_Some (prices !! b).
Proof.
  intros Hg Hcl Hconn. induction Hconn as [|a b c (e & He & <-) _ IH]; [done|].
  intros Ha. apply IH. apply (Hcl a Ha).
  by apply (build_graph_elem _ _ _ _ Hg).
Qed.

(** C6, as amended.  When the second loop reaches a swap whose first-leg
    symbol [T] has no price yet and the oracle answers a non-zero price
    [p] for that leg, [T] is priced [p] and every symbol [U] joined to [T]
    by edges of the batch has, at the end of the batch, the price [p]
    multiplied by the ratios along a path of edges from [T] to [U]. *)
Theorem oracle_seed_prices_its_component batch ETH2USD i se evs_i st_i :
  Forall has_amounts batch ->
  batch !! i = Some se ->
  price_batch_upto i batch ETH2USD = Done (evs_i, st_i) ->
  symbol2USD st_i !! symbol (token0 se) = None ->
  isZero (oracle_price (id (token0 se))) = false ->
  exists evs st,
    price_batch batch ETH2USD = Done (evs, st)
    /\ symbol2USD st !! symbol (token0 se)
       = Some (oracle_price (id (token0 se)))
    /\ forall U, connected batch (symbol (token0 se)) U ->
         exists q, symbol2USD st !! U = Some q
                   /\ path_price batch (symbol (token0 se))
                        (oracle_price (id (token0 se))) U q.
Proof.
  intros Hall Hi Hupto Hnone _.
  destruct (price_batch_iteration Moralis_getTokenPrice batch ETH2USD i se Hall Hi)
    as (graph & evs & st & evs_i' & st_i' & se' & st_i1 & Hg & Hrun & Hupto'
        & _ & Hvisit & _ & Hstack & Hclosed & Hsub & _).
  rewrite Hupto in Hupto'. injection Hupto' as <- <-.
  assert (has_amounts se) as [Ha0 Ha1].
  { rewrite Forall_forall in Hall. apply Hall.
    by eapply list_elem_of_lookup_2. }
  destruct (visit_spec Moralis_getTokenPrice graph (edge_targets batch)
              (traverse_fuel anchors batch) se st_i
              (build_graph_targets _ _ Hg) (loop_fuel batch)
              Hstack Hclosed Ha0 Ha1)
    as (st1 & Hvisit1 & _ & Hcl1 & _ & _ & _ & Hnew).
  rewrite Hvisit in Hvisit1. injection Hvisit1 as _ <-.
  destruct (Hnew Hnone) as (_ & HT & HR).
  exists evs, st. split_and!; [done|by eapply lookup_weaken|].
  intros U Hconn.
  assert (is_Some (symbol2USD st_i1 !! U)) as [q Hq].
  { eapply closed_connected; [exact Hg|exact Hcl1|exact Hconn|by eexists]. }
  exists q. split; [by eapply lookup_weaken|].
  assert (symbol2USD st_i !! U = None) as HU.
  { destruct (symbol2USD st_i !! U) as [q0|] eqn:HU; [|done].
    assert (is_Some (symbol2USD st_i !! symbol (token0 se))) as [? ?].
    { eapply closed_connected; [exact Hg|exact Hclosed| |by eexists].
      by apply connected_sym. }
    congruence. }
  apply (HR (path_price batch (symbol (token0 se))
               (oracle_price (id (token0 se))))); try done.
  - intros a pa e Hpa He. eapply path_step; [exact Hpa|].
    by apply (build_graph_elem _ _ _ _ Hg).
  - apply path_start.
Qed.

(** *** USD fields *)

Lemma enriched_fields prices se :
  decoded se ->
  id (token0 (enriched prices se)) = id (token0 se)
  /\ symbol (token0 (enriched prices se)) = symbol (token0 se)
  /\ amount (token0 (enriched prices se)) = amount (token0 se)
  /\ id (token1 (enriched prices se)) = id (token1 se)
  /\ symbol (token1 (enriched prices se)) = symbol (token1 se)
  /\ amount (token1 (enriched prices se)) = amount (token1 se)
  /\ value_in_usd (token0 (enriched prices se))
     = prices !! symbol (token0 se)
  /\ value_in_usd (token1 (enriched prices se))
     = match prices !! symbol (token0 se) with
       | Some _ => prices !! symbol (token1 se)
       | None => None
       end
  /\ total_exchanged_usd (token0 (enriched prices se))
     = (p ← value_in_usd (token0 (enriched prices se));
        times p <$> amount (token0 se))
  /\ total_exchanged_usd (token1 (enriched prices se))
     = (p ← value_in_usd (token1 (enriched prices se));
        times p <$> amount (token1 se)).
Proof.
  intros (_ & Hv0 & Ht0 & Hv1 & Ht1).
  unfold enriched, priced_leg.
  destruct (prices !! symbol (token0 se)) as [p0|] eqn:Hp0; simpl.
  - destruct (prices !! symbol (token1 se)) as [p1|] eqn:Hp1; simpl.
    + done.
    + by rewrite Hv1, Ht1.
  - by rewrite Hv0, Ht0, Hv1, Ht1.
Qed.

(** C7, as amended.  For a batch as the decoder leaves it, pricing ends
    without an exception and, for the swap at every position [i], with
    [st_i] and [st_i1] the states before and after its iteration of the
    second loop: leg 0 has its USD fields iff its symbol has a price in
    [st_i1], leg 1 has them iff both symbols have a price in [st_i1], the
    fields hold that price and the price times the amount, the price is
    still the one of the final map, and the oracle is called in the
    iteration exactly when leg 0's symbol has no price in [st_i].  A price
    found by a later iteration is not applied to the swap; for a swap
    whose two symbols are non-empty (in a batch where the oracle answers
    no zero) both legs have their fields and they are the prices of the
    final map. *)
Theorem usd_fields_follow_the_iteration batch ETH2USD :
  Forall decoded batch ->
  exists evs st,
    price_batch batch ETH2USD = Done (evs, st)
    /\ length evs = length batch
    /\ forall i se, batch !! i = Some se ->
         exists se',
           evs !! i = Some se'
           /\ iteration_fields Moralis_getTokenPrice batch ETH2USD i se se'
                (symbol2USD st).
Proof.
  intros Hdec. pose proof (decoded_has_amounts _ Hdec) as Hall.
  destruct (price_batch_total Moralis_getTokenPrice batch ETH2USD Hall)
    as (graph & prices0 & evs & st & Hg & _ & Hrun & _ & Hlen & _).
  exists evs, st. split_and!; try done.
  intros i se Hi.
  destruct (price_batch_iteration Moralis_getTokenPrice batch ETH2USD i se Hall Hi)
    as (graph' & evs' & st' & evs_i & st_i & se' & st_i1 & Hg' & Hrun' & Hupto
        & Hupto1 & Hvisit & Hevs & Hstack & Hclosed & Hsub & _).
  assert (graph' = graph) as -> by congruence.
  rewrite Hrun in Hrun'. injection Hrun' as <- <-.
  assert (decoded se) as Hse.
  { rewrite Forall_forall in Hdec. apply Hdec.
    by eapply list_elem_of_lookup_2. }
  destruct Hse as [[Ha0 Ha1] Hfields].
  destruct (visit_spec Moralis_getTokenPrice graph (edge_targets batch)
              (traverse_fuel anchors batch) se st_i
              (build_graph_targets _ _ Hg) (loop_fuel batch)
              Hstack Hclosed Ha0 Ha1)
    as (st1 & Hvisit1 & _ & Hcl1 & _ & Hpr0 & Hsame & Hnew).
  rewrite Hvisit in Hvisit1. injection Hvisit1 as -> <-.
  destruct (enriched_fields (symbol2USD st_i1) se)
    as (_ & Hs0 & Hm0 & _ & Hs1 & Hm1 & Hv0 & Hv1 & Ht0 & Ht1);
    [by split|].
  exists (enriched (symbol2USD st_i1) se). split; [done|].
  exists evs_i, st_i, (evs_i ++ [enriched (symbol2USD st_i1) se]), st_i1.
  split_and!; try done.
  - destruct (symbol2USD st_i !! symbol (token0 se)) as [p0|] eqn:Hp0.
    + rewrite (Hsame ltac:(by eexists)). by rewrite app_nil_r.
    + by destruct (Hnew eq_refl) as (-> & _).
  - intros _ Htr0 Htr1.
    destruct Hpr0 as [p0 Hp0].
    assert (is_Some (symbol2USD st_i1 !! symbol (token1 se))) as [p1 Hp1].
    { destruct (swap_edge batch se) as (e & He & <-); try done.
      - by eapply list_elem_of_lookup_2.
      - apply (Hcl1 (symbol (token0 se))); [by eexists|].
        by apply (build_graph_elem _ _ _ _ Hg). }
    rewrite Hv0, Hv1, Hp0, Hp1. split_and!; try by eexists.
    + symmetry. by eapply lookup_weaken.
    + symmetry. by eapply lookup_weaken.
Qed.

#[local] Transparent anchors.

End PricingTheorems.

(** ** Propagation along a path of two edges *)

Section Propagation.

Context {D : Type} `{DecimalOps D}.
Context (Moralis_getTokenPrice : string -> option D).

Implicit Types (graph : gmap string (list (Edge D))) (prices : gmap string D).
Implicit Types (st : PricingState D) (se : SwapEvent D).
Implicit Types (batch : list (SwapEvent D)).

#[local] Abbreviation price_events := (price_events Moralis_getTokenPrice).
#[local] Abbreviation price_batch := (price_batch Moralis_getTokenPrice).

Lemma traverse_pop fuel graph prices stk sym prices1 stk1 :
  relax sym (adj_of graph sym) prices stk = Done (prices1, stk1) ->
  traverse (S fuel) graph prices (stk ++ [sym])
  = traverse fuel graph prices1 stk1.
Proof.
  intros Hrel. simpl. rewrite pop_app_last. unfold adj_of in Hrel.
  destruct (graph !! sym) as [adj|]; simpl in Hrel.
  - by rewrite Hrel.
  - by injection Hrel as <- <-.
Qed.

Lemma traverse_skip_all graph prices stk :
  (forall a, a ∈ stk -> adj_of graph a = []) ->
  forall fuel, length stk <= fuel -> traverse fuel graph prices stk = Done prices.
Proof.
  induction stk as [|a stk IH] using rev_ind; intros Hadj fuel Hfuel.
  - by destruct fuel.
  - rewrite length_app in Hfuel. simpl in Hfuel.
    destruct fuel as [|fuel]; [lia|].
    rewrite (traverse_pop fuel graph prices stk a prices stk).
    + apply IH; [|lia]. intros b Hb. apply Hadj, elem_of_app. by left.
    + rewrite (Hadj a); [done|]. apply elem_of_app. right.
      by apply list_elem_of_singleton.
Qed.

Lemma visit_priced fuel graph se st :
  is_Some (symbol2USD st !! symbol (token0 se)) -> has_amounts se ->
  visit Moralis_getTokenPrice fuel graph se st
  = Done (enriched (symbol2USD st) se, st).
Proof.
  intros [p0 Hp0] [Ha0 Ha1]. unfold visit. rewrite Hp0.
  rewrite (apply_prices_enriched _ se Ha0 Ha1), bind_Done.
  destruct (amount_enriched (symbol2USD st) se) as [E0 E1].
  rewrite apply_prices_enriched by (by rewrite ?E0, ?E1).
  by rewrite bind_Done, enriched_idem.
Qed.

Lemma price_events_all_priced fuel graph events st :
  (forall se, se ∈ events -> is_Some (symbol2USD st !! symbol (token0 se))) ->
  Forall has_amounts events ->
  price_events fuel graph events st
  = Done (enriched (symbol2USD st) <$> events, st).
Proof.
  intros Hpriced Hall. induction Hall as [|se events Hse _ IH]; [done|].
  rewrite price_events_cons.
  rewrite visit_priced; [|apply Hpriced; apply elem_of_cons; by left|done].
  rewrite bind_Done, IH; [done|].
  intros se' Hin. apply Hpriced. apply elem_of_cons. by right.
Qed.

Lemma gives_edge_inv se A B r :
  gives_edge se A B r ->
  has_amounts se
  /\ exists r',
      (symbol (token0 se) = A /\ symbol (token1 se) = B
       /\ swap_edges se = [ (A, {| edge_symbol := B; ratio := r |});
                            (B, {| edge_symbol := A; ratio := r' |}) ])
      \/ (symbol (token0 se) = B /\ symbol (token1 se) = A
          /\ swap_edges se = [ (B, {| edge_symbol := A; ratio := r' |});
                               (A, {| edge_symbol := B; ratio := r |}) ]).
Proof.
  unfold gives_edge, swap_edges, has_amounts.
  destruct (truthy (symbol (token0 se)) && truthy (symbol (token1 se)));
    [|by intros ?%elem_of_nil].
  destruct (amount (token0 se)) as [a0|], (amount (token1 se)) as [a1|];
    try (by intros ?%elem_of_nil).
  intros [Heq|[Heq|?%elem_of_nil]%elem_of_cons]%elem_of_cons; [| |done];
    injection Heq as <- <- ->; (split; [by split; eexists|]); eexists.
  - by left.
  - by right.
Qed.

Lemma anchors_split28 :
  anchors = ((take 28 anchors ++ ["USDC"]) ++ ["USDT"]) ++ ["WETH"].
Proof. reflexivity. Qed.

Lemma USDC_not_before : "USDC" ∉ take 28 anchors.
Proof. apply (bool_decide_unpack _). by vm_compute. Qed.

Lemma perm_pair {A} (l : list A) x y :
  l ≡ₚ [x; y] -> l = [x; y] \/ l = [y; x].
Proof.
  intros Hp. pose proof (Permutation_length Hp) as Hlen.
  destruct l as [|a [|b [|? ?]]]; try discriminate.
  assert (a ∈ [x; y]) as Ha by (rewrite <- Hp; apply elem_of_cons; by left).
  apply elem_of_cons in Ha as [->|Ha%list_elem_of_singleton].
  - left. f_equal. apply Permutation_cons_inv in Hp.
    by apply Permutation_singleton_r in Hp.
  - subst a. right. f_equal.
    assert ([y; b] ≡ₚ [y; x]) as Hp'
      by (etrans; [exact Hp|apply Permutation_swap]).
    apply Permutation_cons_inv in Hp'.
    by apply Permutation_singleton_r in Hp'.
Qed.

(** The first traversal on the graph [USDC -> X -> Y]. *)
Lemma traverse_two_edges graph prices stk28 X Y r1 r1' r2 r2' fuel :
  X <> Y ->
  (forall a, a ∈ stk28 -> adj_of graph a = []) ->
  adj_of graph "WETH" = [] -> adj_of graph "USDT" = [] ->
  adj_of graph "USDC" = [{| edge_symbol := X; ratio := r1 |}] ->
  adj_of graph X ≡ₚ [ {| edge_symbol := "USDC"; ratio := r1' |};
                      {| edge_symbol := Y; ratio := r2 |} ] ->
  adj_of graph Y = [{| edge_symbol := X; ratio := r2' |}] ->
  prices !! "USDC" = Some Dec_one ->
  prices !! X = None -> prices !! Y = None ->
  length stk28 + 5 <= fuel ->
  traverse fuel graph prices (((stk28 ++ ["USDC"]) ++ ["USDT"]) ++ ["WETH"])
  = Done (<[Y := times (times Dec_one r1) r2]>
            (<[X := times Dec_one r1]> prices)).
Proof.
  intros HXY Hstk HW HT HU HX HY HpU HpX HpY Hfuel.
  assert (X <> "USDC") as HXU by congruence.
  assert (Y <> "USDC") as HYU by congruence.
  do 5 (destruct fuel as [|fuel]; [lia|]).
  rewrite (traverse_pop _ graph prices _ "WETH" prices
             ((stk28 ++ ["USDC"]) ++ ["USDT"])) by (by rewrite HW).
  rewrite (traverse_pop _ graph prices _ "USDT" prices
             (stk28 ++ ["USDC"])) by (by rewrite HT).
  set (prices1 := <[X := times Dec_one r1]> prices).
  rewrite (traverse_pop _ graph prices _ "USDC" prices1 (stk28 ++ [X])).
  2:{ rewrite HU. cbn [relax edge_symbol ratio]. by rewrite HpX, HpU. }
  set (prices2 := <[Y := times (times Dec_one r1) r2]> prices1).
  assert (prices1 !! X = Some (times Dec_one r1)) as H1X
    by (unfold prices1; by rewrite lookup_insert_eq).
  assert (prices1 !! "USDC" = Some Dec_one) as H1U
    by (unfold prices1; by rewrite lookup_insert_ne).
  assert (prices1 !! Y = None) as H1Y
    by (unfold prices1; by rewrite lookup_insert_ne).
  assert (prices2 !! "USDC" = Some Dec_one) as H2U
    by (unfold prices2; by rewrite lookup_insert_ne).
  assert (prices2 !! X = Some (times Dec_one r1)) as H2X
    by (unfold prices2; by rewrite lookup_insert_ne).
  rewrite (traverse_pop _ graph prices1 _ X prices2 (stk28 ++ [Y])).
  2:{ apply perm_pair in HX as [-> | ->]; cbn [relax edge_symbol ratio].
      - by rewrite H1U, H1Y, H1X.
      - rewrite H1Y, H1X. fold prices2. by rewrite H2U. }
  rewrite (traverse_pop _ graph prices2 _ Y prices2 stk28).
  2:{ rewrite HY. cbn [relax edge_symbol ratio]. by rewrite H2X. }
  apply traverse_skip_all; [done|lia].
Qed.

(** For a batch made of a swap that adds [USDC -> X] with ratio [r1] and a
    swap that adds [X -> Y] with ratio [r2], in either order. *)
Lemma propagation_two_edges X Y r1 r2 sUX sXY batch ETH2USD :
  X ∉ anchors -> Y ∉ anchors -> X <> Y ->
  gives_edge sUX "USDC" X r1 -> gives_edge sXY X Y r2 ->
  batch = [sUX; sXY] \/ batch = [sXY; sUX] ->
  exists evs st,
    price_batch batch ETH2USD = Done (evs, st)
    /\ symbol2USD st
       = <[Y := times (times Dec_one r1) r2]>
           (<[X := times Dec_one r1]> (seed_prices anchors ETH2USD))
    /\ oracle_calls st = [].
Proof.
  intros HX HY HXY HgU HgX Hbatch.
  apply gives_edge_inv in HgU as (HaU & r1' & HU).
  apply gives_edge_inv in HgX as (HaX & r2' & HXe).
  set (eUX := {| edge_symbol := X; ratio := r1 |}) in *.
  set (eXU := {| edge_symbol := "USDC"; ratio := r1' |}) in *.
  set (eXY := {| edge_symbol := Y; ratio := r2 |}) in *.
  set (eYX := {| edge_symbol := X; ratio := r2' |}) in *.
  assert ("USDC" ∈ anchors) as HUa
    by (apply (bool_decide_unpack _); by vm_compute).
  assert (X <> "USDC") as HXU by (intros ->; done).
  assert (Y <> "USDC") as HYU by (intros ->; done).
  assert (swap_edges sUX ≡ₚ [("USDC", eUX); (X, eXU)]
          /\ (symbol (token0 sUX) = "USDC" \/ symbol (token0 sUX) = X))
    as [HpU Ht0U].
  { destruct HU as [(? & ? & ->)|(? & ? & ->)]; split; eauto.
    apply Permutation_swap. }
  assert (swap_edges sXY ≡ₚ [(X, eXY); (Y, eYX)]
          /\ (symbol (token0 sXY) = X \/ symbol (token0 sXY) = Y))
    as [HpX Ht0X].
  { destruct HXe as [(? & ? & ->)|(? & ? & ->)]; split; eauto.
    apply Permutation_swap. }
  assert (batch_edges batch
          ≡ₚ [("USDC", eUX); (X, eXU); (X, eXY); (Y, eYX)]) as Hedges.
  { destruct Hbatch as [-> | ->]; rewrite !batch_edges_cons.
    - change (batch_edges []) with (@nil (string * Edge D)).
      by rewrite app_nil_r, HpU, HpX.
    - change (batch_edges []) with (@nil (string * Edge D)).
      rewrite app_nil_r, HpU, HpX. apply (Permutation_app_comm [_; _] [_; _]). }
  assert (Forall has_amounts batch) as Hall.
  { destruct Hbatch as [-> | ->]; by rewrite !Forall_cons, Forall_nil. }
  assert (forall se, se ∈ batch ->
            symbol (token0 se) = "USDC" \/ symbol (token0 se) = X
            \/ symbol (token0 se) = Y) as Ht0.
  { intros se Hse. destruct Hbatch as [-> | ->];
      apply elem_of_cons in Hse as [->|Hse%list_elem_of_singleton];
      subst; tauto. }
  destruct (price_batch_total Moralis_getTokenPrice batch ETH2USD Hall)
    as (graph & prices0 & evs & st & Hg & Htr & Hrun & Hev & _).
  assert (forall a, adj_of graph a
                    ≡ₚ (filter (fun x => x.1 = a)
                          [("USDC", eUX); (X, eXU); (X, eXY); (Y, eYX)]).*2)
    as Hadj.
  { intros a. rewrite (build_graph_adj _ _ _ a Hg). unfold adj_of at 1.
    rewrite lookup_empty. simpl. by rewrite Hedges. }
  assert (forall a, a <> "USDC" -> a <> X -> a <> Y -> adj_of graph a = [])
    as Hother.
  { intros a H1 H2 H3. apply Permutation_nil_r. rewrite Hadj.
    rewrite !filter_cons, filter_nil. simpl.
    repeat case_decide; congruence || done. }
  assert (adj_of graph "USDC" = [eUX]) as HadjU.
  { apply Permutation_singleton_r. rewrite Hadj.
    rewrite !filter_cons, filter_nil. simpl.
    repeat case_decide; congruence || done. }
  assert (adj_of graph X ≡ₚ [eXU; eXY]) as HadjX.
  { rewrite Hadj. rewrite !filter_cons, filter_nil. simpl.
    repeat case_decide; congruence || done. }
  assert (adj_of graph Y = [eYX]) as HadjY.
  { apply Permutation_singleton_r. rewrite Hadj.
    rewrite !filter_cons, filter_nil. simpl.
    repeat case_decide; congruence || done. }
  assert (seed_prices anchors ETH2USD !! "USDC" = Some Dec_one) as HsU
    by (by apply seed_prices_stable).
  assert (seed_prices anchors ETH2USD !! X = None) as HsX.
  { apply eq_None_not_Some. by rewrite seed_prices_is_Some. }
  assert (seed_prices anchors ETH2USD !! Y = None) as HsY.
  { apply eq_None_not_Some. by rewrite seed_prices_is_Some. }
  set (seed := seed_prices anchors ETH2USD) in *.
  assert (31 + 4 <= traverse_fuel anchors batch) as Hfuel.
  { unfold traverse_fuel. change (length anchors) with 31.
    destruct Hbatch as [-> | ->]; simpl; lia. }
  set (fuel := traverse_fuel anchors batch) in *.
  rewrite anchors_split28 in Htr.
  rewrite (traverse_two_edges graph seed (take 28 anchors) X Y r1 r1' r2 r2')
    in Htr; try done.
  - injection Htr as <-.
    rewrite price_events_all_priced in Hev; [|..|done].
    + exists evs, st. injection Hev as _ <-. by split_and!.
    + intros se Hse. simpl.
      destruct (Ht0 se Hse) as [-> |[-> | ->]].
      * exists Dec_one. by rewrite !lookup_insert_ne.
      * eexists. rewrite lookup_insert_ne by done. by rewrite lookup_insert_eq.
      * eexists. by rewrite lookup_insert_eq.
  - intros a Ha. apply Hother.
    + intros ->. by apply USDC_not_before in Ha.
    + intros ->. apply HX. rewrite anchors_split28, !elem_of_app. eauto.
    + intros ->. apply HY. rewrite anchors_split28, !elem_of_app. eauto.
  - apply Hother; [done|intros <-|intros <-].
    + apply HX. by apply (bool_decide_unpack _).
    + apply HY. by apply (bool_decide_unpack _).
  - apply Hother; [done|intros <-|intros <-].
    + apply HX. by apply (bool_decide_unpack _).
    + apply HY. by apply (bool_decide_unpack _).
  - change (length (take 28 anchors)) with 28. lia.
Qed.

End Propagation.

(** ** The decimal.js model satisfies the laws *)

Lemma strip_fuel_nonzero fuel c e :
  c <> 0%N -> (DecimalJS.strip_fuel fuel c e).1 <> 0%N.
Proof.
  revert c e. induction fuel as [|fuel IH]; intros c e Hc; simpl; [done|].
  destruct (c mod 10 =? 0)%N eqn:Hmod; [|done].
  apply IH. apply N.eqb_eq in Hmod. intros Hdiv.
  pose proof (N.div_mod c 10 ltac:(done)) as Hc'. rewrite Hdiv, Hmod in Hc'. lia.
Qed.

Lemma isZero_normalise neg c e :
  DecimalJS.isZero (DecimalJS.normalise neg c e) = (c =? 0)%N.
Proof.
  unfold DecimalJS.normalise. destruct (c =? 0)%N eqn:Hc; [done|].
  apply N.eqb_neq in Hc.
  pose proof (strip_fuel_nonzero (N.size_nat c) c e Hc) as Hs.
  destruct (DecimalJS.strip_fuel (N.size_nat c) c e) as [c' e']. simpl in *.
  by apply N.eqb_neq.
Qed.

Lemma isPositive_normalise neg c e :
  DecimalJS.isPositive (DecimalJS.normalise neg c e) = negb neg.
Proof.
  unfold DecimalJS.normalise. destruct (c =? 0)%N; [done|].
  by destruct (DecimalJS.strip_fuel (N.size_nat c) c e).
Qed.

Lemma abs_normalise neg c e :
  DecimalJS.abs (DecimalJS.normalise neg c e) = DecimalJS.normalise false c e.
Proof.
  unfold DecimalJS.normalise. destruct (c =? 0)%N; [done|].
  by destruct (DecimalJS.strip_fuel (N.size_nat c) c e).
Qed.

#[export] Instance DecimalJS_laws : DecimalLaws DecimalJS.t.
Proof.
  split.
  - intros v d. simpl. unfold DecimalJS.ofUnits.
    rewrite isPositive_normalise. by destruct v.
  - intros v d. simpl. unfold DecimalJS.ofUnits.
    rewrite abs_normalise. by destruct v.
  - intros v d. simpl. unfold DecimalJS.ofUnits.
    rewrite isZero_normalise. by destruct v.
  - reflexivity.
  - intros [| |neg c e]; simpl; try discriminate. by intros ->.
Qed.

(** ** The swap decoder *)

Section DecoderTheorems.

Context {D : Type} `{DecimalLaws D}.

(** [ethers.formatUnits] accepts at most 80 decimals and a value that fits
    in 512 bits. *)
Lemma scaled_accepts (v : Z) (decimals : nat) :
  decimals <= 80 -> Index.fits_fixed512 v = true ->
  Index.scaled (Some v) decimals = Done (ofUnits v decimals).
Proof.
  intros Hd Hv. unfold Index.scaled. rewrite Hv.
  assert ((Index.MAX_SAFE_INTEGER <? Z.of_nat decimals)%Z = false) as ->
    by (apply Z.ltb_ge; unfold Index.MAX_SAFE_INTEGER; lia).
  assert ((80 <? Z.of_nat decimals)%Z = false) as ->
    by (apply Z.ltb_ge; lia).
  reflexivity.
Qed.

Lemma scaled_rejects_decimals (amount : option Z) (decimals : nat) :
  80 < decimals ->
  exists msg, Index.scaled (D:=D) amount decimals = Throw (TypeError msg).
Proof.
  intros Hd. unfold Index.scaled.
  destruct (Index.MAX_SAFE_INTEGER <? Z.of_nat decimals)%Z; [by eexists|].
  assert ((80 <? Z.of_nat decimals)%Z = true) as ->
    by (apply Z.ltb_lt; lia).
  by eexists.
Qed.

(** A pool with a token of more than 80 decimals is never decoded: the
    cycle throws at [formatUnits], whatever the deltas. *)
Lemma decoder_rejects_more_than_80_decimals (pairToken : Index.PairToken)
    (amount0 amount1 : option Z) :
  80 < Index.decimal (Index.token0 pairToken)
  \/ 80 < Index.decimal (Index.token1 pairToken) ->
  exists err,
    Index.decode_legs (D:=D) pairToken amount0 amount1 = Throw err.
Proof.
  intros Hd. unfold Index.decode_legs.
  destruct (decide (80 < Index.decimal (Index.token0 pairToken))) as [Hd0|Hd0].
  - destruct (scaled_rejects_decimals amount0 _ Hd0) as [msg ->]. by eexists.
  - destruct Hd as [?|Hd1]; [done|].
    destruct (scaled_rejects_decimals amount1 _ Hd1) as [msg Hmsg].
    destruct (Index.scaled amount0 _) as [d0|err|] eqn:Hs0; simpl.
    + rewrite Hmsg. by eexists.
    + by eexists.
    + unfold Index.scaled in Hs0. by repeat case_match.
Qed.

(** C8.  For tokens [formatUnits] accepts (at most 80 decimals, deltas that
    fit in 512 bits, as every [int256] does): when both raw deltas are
    non-zero and of opposite sign, the log is decoded, leg 0 is the side
    whose delta is positive, with that delta scaled by its token's
    decimals (a positive amount), and leg 1 is the other side with the
    absolute value of its delta scaled by its own token's decimals. *)
Theorem directional_normalisation (pairToken : Index.PairToken)
    (amount0 amount1 : Z) :
  Index.decimal (Index.token0 pairToken) <= 80 ->
  Index.decimal (Index.token1 pairToken) <= 80 ->
  Index.fits_fixed512 amount0 = true ->
  Index.fits_fixed512 amount1 = true ->
  amount0 <> 0%Z -> amount1 <> 0%Z -> (amount0 * amount1 < 0)%Z ->
  exists leg0 leg1,
    Index.decode_legs pairToken (Some amount0) (Some amount1)
    = Done (leg0, leg1)
    /\ isPositive (Index.leg_amount leg0) = true
    /\ isZero (Index.leg_amount leg0) = false
    /\ ((0 < amount0)%Z
        /\ leg0 = {| Index.leg_symbol := Index.symbol (Index.token0 pairToken);
                     Index.leg_amount :=
                       ofUnits amount0 (Index.decimal (Index.token0 pairToken)) |}
        /\ leg1 = {| Index.leg_symbol := Index.symbol (Index.token1 pairToken);
                     Index.leg_amount :=
                       ofUnits (Z.abs amount1)
                         (Index.decimal (Index.token1 pairToken)) |}
        \/ (0 < amount1)%Z
           /\ leg0 = {| Index.leg_symbol := Index.symbol (Index.token1 pairToken);
                        Index.leg_amount :=
                          ofUnits amount1
                            (Index.decimal (Index.token1 pairToken)) |}
           /\ leg1 = {| Index.leg_symbol := Index.symbol (Index.token0 pairToken);
                        Index.leg_amount :=
                          ofUnits (Z.abs amount0)
                            (Index.decimal (Index.token0 pairToken)) |}).
Proof.
  intros Hd0 Hd1 Hfit0 Hfit1 Hnz0 Hnz1 Hsign.
  unfold Index.decode_legs, Index.normalise_direction.
  rewrite !scaled_accepts by done.
  rewrite !bind_Done, isPositive_ofUnits.
  destruct (Z.leb_spec 0 amount0) as [Hpos|Hneg].
  - eexists _, _. split; [reflexivity|]. simpl.
    rewrite isPositive_ofUnits, isZero_ofUnits, abs_ofUnits.
    split_and!; [lia|lia|]. left. split_and!; [lia|done..].
  - eexists _, _. split; [reflexivity|]. simpl.
    rewrite isPositive_ofUnits, isZero_ofUnits, abs_ofUnits.
    split_and!; [nia|nia|]. right. split_and!; [nia|done..].
Qed.

End DecoderTheorems.

(** ** The persistence loop *)

Section SinkTheorems.

Context {D : Type} `{DecimalOps D}.
Context (client_query : nat -> list SqlParam -> option JsError).

Lemma persist_row_spec ETH2USD block_timestamp (event : SwapEvent D) sink :
  exists sink',
    persist_row client_query ETH2USD block_timestamp event sink = Done sink'
    /\ attempted sink'
       = attempted sink ++ [row_values ETH2USD block_timestamp event]
    /\ match client_query (length (attempted sink))
               (row_values ETH2USD block_timestamp event) with
       | None =>
           saved sink'
           = saved sink ++ [row_values ETH2USD block_timestamp event]
           /\ console_error sink' = console_error sink
       | Some err =>
           saved sink' = saved sink
           /\ console_error sink' = console_error sink ++ [err]
       end.
Proof.
  unfold persist_row, await_query, try_catch.
  destruct (client_query _ _) as [err|]; by eexists.
Qed.

Lemma persist_keeps ETH2USD block_timestamp (events : list (SwapEvent D))
    sink sink' :
  persist client_query ETH2USD block_timestamp events sink = Done sink' ->
  saved sink ⊆ saved sink' /\ console_error sink ⊆ console_error sink'.
Proof.
  revert sink. induction events as [|event events IH]; intros sink; simpl.
  - by intros [= ->].
  - destruct (persist_row_spec ETH2USD block_timestamp event sink)
      as (sink1 & Hrow & _ & Hans).
    rewrite Hrow, bind_Done. intros [Hs He]%IH.
    destruct (client_query _ _) as [err|]; destruct Hans as [Es Ee];
      rewrite Es in Hs; rewrite Ee in He; split; try done.
    + intros x Hx. apply He, elem_of_app. by left.
    + intros x Hx. apply Hs, elem_of_app. by left.
Qed.

(** C9.  Whatever the store answers and whatever fields the events carry,
    the persistence loop ends without an exception, hands the row of every
    event to the store, in order, and each row is either saved or has its
    error logged; nothing already recorded is lost. *)
Theorem persist_attempts_every_row ETH2USD block_timestamp
    (events : list (SwapEvent D)) sink :
  exists sink',
    persist client_query ETH2USD block_timestamp events sink = Done sink'
    /\ attempted sink'
       = attempted sink ++ (row_values ETH2USD block_timestamp <$> events)
    /\ length (saved sink') + length (console_error sink')
       = length (saved sink) + length (console_error sink) + length events
    /\ forall i event, events !! i = Some event ->
         row_settled client_query sink sink' i
           (row_values ETH2USD block_timestamp event).
Proof.
  revert sink. induction events as [|event events IH]; intros sink.
  - exists sink. simpl. rewrite app_nil_r. split_and!; [done..|lia|done].
  - destruct (persist_row_spec ETH2USD block_timestamp event sink)
      as (sink1 & Hrow & Hatt1 & Hans).
    destruct (IH sink1) as (sink' & Hrun & Hatt & Hcount & Hall).
    destruct (persist_keeps _ _ _ _ _ Hrun) as [Hsaved Herr].
    exists sink'. simpl. rewrite Hrow, bind_Done.
    split_and!; [done| | |].
    + rewrite Hatt, Hatt1. by rewrite <- app_assoc.
    + rewrite Hcount. simpl.
      destruct (client_query _ _) as [err|]; destruct Hans as [-> ->];
        rewrite ?length_app; simpl; lia.
    + intros [|i] ev Hi; simpl in Hi.
      * injection Hi as <-. unfold row_settled. rewrite Nat.add_0_r. split.
        -- rewrite Hatt, Hatt1, <- app_assoc.
           by rewrite lookup_app_r, Nat.sub_diag by done.
        -- destruct (client_query _ _) as [err|]; destruct Hans as [Es Ee].
           ++ apply Herr. rewrite Ee. apply elem_of_app. right.
              by apply list_elem_of_singleton.
           ++ apply Hsaved. rewrite Es. apply elem_of_app. right.
              by apply list_elem_of_singleton.
      * destruct (Hall i ev Hi) as [Hlook Hq]. unfold row_settled.
        rewrite Hatt1, length_app in Hlook, Hq. simpl in Hlook, Hq.
        replace (length (attempted sink) + S i)
          with (length (attempted sink) + 1 + i) by lia.
        by split.
Qed.

End SinkTheorems.

(** ** The persistence loop of the earlier revision *)

Section Revision1Theorems.

Context {D : Type} `{DecimalOps D}.
Context (client_query : nat -> list SqlParam -> option JsError).

Lemma revision1_row_values_printable ETH2USD (e : Revision1.StampedEvent D) :
  Revision1.printable e ->
  exists values, Revision1.row_values ETH2USD e = Done values
                 /\ length values = 15.
Proof.
  intros ([a0 E0] & [v0 E1] & [t0 E2] & [a1 E3] & [v1 E4] & [t1 E5]).
  unfold Revision1.row_values. rewrite E0, E1, E2, E3, E4, E5. simpl.
  by eexists.
Qed.

Lemma revision1_row_values_unprintable ETH2USD (e : Revision1.StampedEvent D) :
  ~ Revision1.printable e ->
  Revision1.row_values ETH2USD e
  = Throw (TypeError "reading 'toString' of undefined").
Proof.
  intros Hno. unfold Revision1.row_values, Revision1.printable in *.
  destruct (amount (token0 (Revision1.event e))); [|done].
  destruct (value_in_usd (token0 (Revision1.event e))); [|done].
  destruct (total_exchanged_usd (token0 (Revision1.event e))); [|done].
  destruct (amount (token1 (Revision1.event e))); [|done].
  destruct (value_in_usd (token1 (Revision1.event e))); [|done].
  destruct (total_exchanged_usd (token1 (Revision1.event e))); [|done].
  destruct Hno. by split_and!.
Qed.

(** X21.  As long as every row has its six decimal fields, the earlier loop
    also hands every row to the store and ends normally. *)
Lemma revision1_printable_rows_are_attempted ETH2USD
    (events : list (Revision1.StampedEvent D)) sink :
  Forall Revision1.printable events ->
  exists sink',
    Revision1.persist client_query ETH2USD events sink = Done sink'
    /\ length (attempted sink') = length (attempted sink) + length events
    /\ length (saved sink') + length (console_error sink')
       = length (saved sink) + length (console_error sink) + length events.
Proof.
  intros Hall. revert sink.
  induction Hall as [|e events He _ IH]; intros sink; simpl.
  - exists sink. split_and!; [done|lia..].
  - destruct (revision1_row_values_printable ETH2USD e He)
      as (values & Hvalues & _).
    unfold Revision1.persist_row. rewrite Hvalues, bind_Done.
    unfold await_query, try_catch.
    destruct (client_query _ _) as [err|]; rewrite bind_Done;
      match goal with |- context [Revision1.persist _ _ _ ?s] =>
        destruct (IH s) as (sink' & -> & Hatt & Hcount) end;
      exists sink'; simpl in *; rewrite ?length_app in *; simpl in *;
      split_and!; done || lia.
Qed.

(** A row with a missing decimal field (a leg without a price has no USD
    fields) raises while the row is built, outside the [try]: the row is
    not handed to the store, the rows after it are not reached and the
    exception leaves the loop. *)
Lemma revision1_unpriced_row_raises ETH2USD
    (e : Revision1.StampedEvent D) rest sink :
  ~ Revision1.printable e ->
  Revision1.persist client_query ETH2USD (e :: rest) sink
  = Throw (TypeError "reading 'toString' of undefined").
Proof.
  intros Hno. simpl. unfold Revision1.persist_row.
  by rewrite (revision1_row_values_unprintable ETH2USD e Hno).
Qed.

End Revision1Theorems.

Section RowTheorems.

Context {D : Type} `{DecimalLaws D}.

(** C10.  A row always has its sixteen values, and each of the seven
    numeric columns reads ["0"] when the field it is printed from is
    absent, the same text a field holding a decimal zero produces. *)
Theorem absent_fields_are_written_as_zero (ETH2USD : option D)
    (block_timestamp : string) (event : SwapEvent D) (i : nat) (x : option D) :
  (i, x) ∈ numeric_columns ETH2USD event ->
  x = None \/ (exists d, x = Some d /\ isZero d = true) ->
  length (row_values ETH2USD block_timestamp event) = 16
  /\ row_values ETH2USD block_timestamp event !! i = Some (PText "0").
Proof.
  intros Hin Hx. split; [done|].
  assert (nullish_zero_toString x = "0") as Hzero.
  { destruct Hx as [->|(d & -> & Hd)]; [done|]. simpl. by apply toString_zero. }
  unfold numeric_columns in Hin.
  repeat (apply elem_of_cons in Hin as [Heq|Hin];
          [injection Heq as -> ->; simpl; by rewrite Hzero|]).
  by apply elem_of_nil in Hin.
Qed.

End RowTheorems.

(** ** The batch aggregator *)

Section AggregatorTheorems.

Context {D : Type} `{DecimalOps D}.
Context (getEthereumUSD : Outcome D).
Context (parseLog_V3 : Index.RawLog -> Outcome (option (Z * Z))).
Context (parseLog_V2 : Index.RawLog -> Outcome (option (Z * Z * Z * Z))).
Context (getPairTokenSymbols : string -> option (string * string)).
Context (getTokenMetadata : string -> Outcome (string * nat)).
Context (fillUSDAmounts
          : list (Index.LogObject D) -> D -> Outcome (list (Index.LogObject D))).

#[local] Abbreviation parseSwapEvents :=
  (Index.parseSwapEvents getEthereumUSD parseLog_V3 parseLog_V2
     getPairTokenSymbols getTokenMetadata fillUSDAmounts).
#[local] Abbreviation deliver :=
  (Index.deliver getEthereumUSD parseLog_V3 parseLog_V2
     getPairTokenSymbols getTokenMetadata fillUSDAmounts).
#[local] Abbreviation run :=
  (Index.run getEthereumUSD parseLog_V3 parseLog_V2
     getPairTokenSymbols getTokenMetadata fillUSDAmounts).

Lemma keeps_flags_cret {A} (a : A) : Index.keeps_flags (Index.cret (D:=D) a).
Proof. done. Qed.

Lemma keeps_flags_await {A} (x : Outcome A) : Index.keeps_flags (Index.await (D:=D) x).
Proof. done. Qed.

Lemma keeps_flags_get : Index.keeps_flags (Index.get (D:=D)).
Proof. done. Qed.

Lemma keeps_flags_modify (f : Index.State D -> Index.State D) :
  (forall st, Index.PARSING (f st) = Index.PARSING st
              /\ Index.timer_pending (f st) = Index.timer_pending st) ->
  Index.keeps_flags (Index.modify f).
Proof. intros Hf st. apply Hf. Qed.

Lemma keeps_flags_cbind {A B} (m : Index.Cycle D A) (f : A -> Index.Cycle D B) :
  Index.keeps_flags m -> (forall a, Index.keeps_flags (f a)) -> Index.keeps_flags (Index.cbind m f).
Proof.
  intros Hm Hf st. unfold Index.cbind. specialize (Hm st).
  destruct (m st) as [[a| |] st1]; simpl in *; [|done..].
  destruct Hm as [? ?], (Hf a st1) as [? ?]. split; congruence.
Qed.

Lemma keeps_flags_resolve_token address :
  Index.keeps_flags (D:=D) (Index.resolve_token getTokenMetadata address).
Proof.
  unfold Index.resolve_token.
  apply keeps_flags_cbind; [apply keeps_flags_get|]. intros st.
  destruct (Index.tokens st !! address); [apply keeps_flags_cret|].
  apply keeps_flags_cbind; [apply keeps_flags_await|]. intros response.
  apply keeps_flags_cbind; [by apply keeps_flags_modify|].
  intros _. apply keeps_flags_cret.
Qed.

Lemma keeps_flags_resolve_pair pool :
  Index.keeps_flags (D:=D)
    (Index.resolve_pair getPairTokenSymbols getTokenMetadata pool).
Proof.
  unfold Index.resolve_pair.
  apply keeps_flags_cbind; [apply keeps_flags_get|]. intros st.
  destruct (Index.pairTokens st !! pool); [apply keeps_flags_cret|].
  destruct (getPairTokenSymbols pool) as [[address0 address1]|];
    [|apply keeps_flags_await].
  apply keeps_flags_cbind; [apply keeps_flags_resolve_token|]. intros t0.
  apply keeps_flags_cbind; [apply keeps_flags_resolve_token|]. intros t1.
  apply keeps_flags_cbind; [by apply keeps_flags_modify|].
  intros _. apply keeps_flags_cret.
Qed.

Lemma keeps_flags_decode_log i previous :
  Index.keeps_flags (Index.decode_log parseLog_V3 parseLog_V2 getPairTokenSymbols
                 getTokenMetadata i previous).
Proof.
  unfold Index.decode_log.
  apply keeps_flags_cbind; [apply keeps_flags_get|]. intros st.
  destruct (Index.logs st !! i) as [log|]; [|apply keeps_flags_await].
  apply keeps_flags_cbind; [apply keeps_flags_await|]. intros amounts.
  apply keeps_flags_cbind; [apply keeps_flags_resolve_pair|]. intros pairToken.
  apply keeps_flags_cbind; [apply keeps_flags_await|]. intros decoded.
  apply keeps_flags_cbind; [by apply keeps_flags_modify|].
  intros _. apply keeps_flags_cret.
Qed.

Lemma keeps_flags_decode_logs indices previous :
  Index.keeps_flags (Index.decode_logs parseLog_V3 parseLog_V2 getPairTokenSymbols
                 getTokenMetadata indices previous).
Proof.
  revert previous. induction indices as [|i indices IH]; intros previous.
  - apply keeps_flags_cret.
  - simpl. apply keeps_flags_cbind; [apply keeps_flags_decode_log|done].
Qed.

(** The flag after a cycle: cleared when the cycle ran to its end, still
    set when a step threw; the timer is not touched. *)
Lemma parseSwapEvents_flag st r st' :
  parseSwapEvents st = (r, st') ->
  Index.timer_pending st' = Index.timer_pending st
  /\ match r with
     | Done _ => Index.PARSING st' = false
     | _ => Index.PARSING st' = true
     end.
Proof.
  unfold Index.parseSwapEvents.
  unfold Index.cbind, Index.modify, Index.await, Index.get.
  set (st1 := Index.set_ARRIVING false (Index.set_PARSING true st)).
  assert (Index.PARSING st1 = true) as HP by done.
  assert (Index.timer_pending st1 = Index.timer_pending st) as HT by done.
  clearbody st1.
  destruct getEthereumUSD as [ETH| |]; [|by intros [= <- <-]..].
  pose proof (keeps_flags_decode_logs (seq 0 (length (Index.logs st1)))
                (None, None) st1) as [HP2 HT2].
  destruct (Index.decode_logs _ _ _ _ _ _ st1) as [[[]| |] st2];
    simpl in HP2, HT2; [|intros [= <- <-]; split; congruence..].
  destruct (fillUSDAmounts (Index.logs st2) ETH) as [enriched| |];
    intros [= <- <-]; simpl; split; congruence.
Qed.

(** Once the flag is set and no timer is scheduled, nothing the event loop
    delivers changes the state. *)
Lemma locked_forever st ds :
  Index.PARSING st = true -> Index.timer_pending st = false -> run ds st = st.
Proof.
  intros HP HT. induction ds as [|d ds IH]; [done|].
  unfold Index.run in *. simpl.
  assert (deliver d st = st) as ->; [|done].
  destruct d as [log|]; simpl.
  - unfold Index.on_log. by rewrite HP.
  - by rewrite HT.
Qed.

(** What the code does when the quiet period expires: the cycle sets the
    flag; the flag is cleared if the cycle runs to its end, and if any
    step of the cycle throws ([parseSwapEvents] has no [try]) the flag
    stays set, after which every log that arrives is dropped and no cycle
    ever starts again. *)
Theorem flag_is_cleared_only_by_a_completed_cycle st :
  Index.timer_pending st = true ->
  match (parseSwapEvents (Index.set_timer_pending false st)).1 with
  | Done _ => Index.PARSING (deliver Index.TimerFired st) = false
  | _ =>
      Index.PARSING (deliver Index.TimerFired st) = true
      /\ forall ds, run ds (deliver Index.TimerFired st)
                    = deliver Index.TimerFired st
  end.
Proof.
  intros Hpending. simpl. rewrite Hpending.
  destruct (parseSwapEvents (Index.set_timer_pending false st))
    as [r st'] eqn:Hcycle.
  apply parseSwapEvents_flag in Hcycle as [HT HP]. simpl in *.
  destruct r; [done| |]; (split; [done|]); intros ds;
    by apply locked_forever.
Qed.

End AggregatorTheorems.

(** ** Concrete batches *)

Import Samples.

(** C1.  A batch made of a swap that adds the edge [USDC -> X] with ratio 2
    and a swap that adds the edge [X -> Y] with ratio 3 (in either order,
    whichever leg comes first in each swap), for two distinct symbols that
    are not anchors: the price map has [USDC] at 1, [X] at exactly 2 and [Y]
    at exactly 6. *)
Theorem propagation_USDC_X_Y (oracle : string -> option DecimalJS.t)
    (X Y : string) (sUX sXY : SwapEvent DecimalJS.t)
    (batch : list (SwapEvent DecimalJS.t)) (ETH : DecimalJS.t) :
  X ∉ anchors -> Y ∉ anchors -> X <> Y ->
  gives_edge sUX "USDC" X (DecimalJS.ofN 2) ->
  gives_edge sXY X Y (DecimalJS.ofN 3) ->
  batch = [sUX; sXY] \/ batch = [sXY; sUX] ->
  price_in (price_batch oracle batch ETH) "USDC" = Done (Some (DecimalJS.ofN 1))
  /\ price_in (price_batch oracle batch ETH) X = Done (Some (DecimalJS.ofN 2))
  /\ price_in (price_batch oracle batch ETH) Y = Done (Some (DecimalJS.ofN 6)).
Proof.
  intros HX HY HXY HgU HgX Hbatch.
  destruct (propagation_two_edges oracle X Y _ _ sUX sXY batch ETH
              HX HY HXY HgU HgX Hbatch) as (evs & st & Hrun & Hprices & _).
  assert ("USDC" ∈ anchors) as HUa
    by (apply (bool_decide_unpack _); by vm_compute).
  assert (X <> "USDC") as HXU by (intros ->; done).
  assert (Y <> "USDC") as HYU by (intros ->; done).
  unfold price_in. rewrite Hrun, !bind_Done, Hprices.
  split_and!; f_equal.
  - rewrite !lookup_insert_ne by done.
    exact (seed_prices_stable ETH "USDC" HUa ltac:(discriminate)).
  - rewrite lookup_insert_ne by done. by rewrite lookup_insert_eq.
  - by rewrite lookup_insert_eq.
Qed.

Lemma XTK_not_anchor : "XTK" ∉ anchors.
Proof. apply (bool_decide_unpack _). by vm_compute. Qed.

Lemma YTK_not_anchor : "YTK" ∉ anchors.
Proof. apply (bool_decide_unpack _). by vm_compute. Qed.

Lemma propagation_USDC_X_Y_witness :
  ("XTK" ∉ anchors) /\ ("YTK" ∉ anchors) /\ "XTK" <> "YTK"
  /\ gives_edge usdc_xtk "USDC" "XTK" (DecimalJS.ofN 2)
  /\ gives_edge xtk_ytk "XTK" "YTK" (DecimalJS.ofN 3)
  /\ price_in (price_batch oracle_down [usdc_xtk; xtk_ytk] ETH2USD) "USDC"
     = Done (Some (DecimalJS.ofN 1))
  /\ price_in (price_batch oracle_down [usdc_xtk; xtk_ytk] ETH2USD) "XTK"
     = Done (Some (DecimalJS.ofN 2))
  /\ price_in (price_batch oracle_down [usdc_xtk; xtk_ytk] ETH2USD) "YTK"
     = Done (Some (DecimalJS.ofN 6)).
Proof.
  assert (gives_edge usdc_xtk "USDC" "XTK" (DecimalJS.ofN 2)) as HgU
    by (apply elem_of_cons; left; reflexivity).
  assert (gives_edge xtk_ytk "XTK" "YTK" (DecimalJS.ofN 3)) as HgX
    by (apply elem_of_cons; left; reflexivity).
  split_and!; [exact XTK_not_anchor|exact YTK_not_anchor|discriminate
              |exact HgU|exact HgX|..];
    apply (propagation_USDC_X_Y oracle_down "XTK" "YTK" usdc_xtk xtk_ytk
             [usdc_xtk; xtk_ytk] ETH2USD XTK_not_anchor YTK_not_anchor
             ltac:(discriminate) HgU HgX (or_introl eq_refl)).
Defined.

(** C3, at the failing input.  The oracle has no price for [FOO] and returns
    zero; the comparison [usdPrice == new Decimal(0)] is between two
    distinct objects, so the loop goes on: [FOO] is seeded with price 0,
    the traversal prices [BAR] at 0 times the ratio, and both legs get USD
    fields holding 0. *)
Theorem zero_oracle_price_is_seeded :
  oracle_price oracle_down "0xf00" = dec 0
  /\ price_in (price_batch oracle_down [foo_bar] ETH2USD) "FOO"
     = Done (Some (dec 0))
  /\ price_in (price_batch oracle_down [foo_bar] ETH2USD) "BAR"
     = Done (Some (dec 0))
  /\ field_in (price_batch oracle_down [foo_bar] ETH2USD) 0
       (fun se => value_in_usd (token0 se)) = Done (Some (Some (dec 0)))
  /\ field_in (price_batch oracle_down [foo_bar] ETH2USD) 0
       (fun se => total_exchanged_usd (token1 se)) = Done (Some (Some (dec 0))).
Proof. by vm_compute. Qed.

(** C4, counterexample.  The same pool swapped at ratio 2 and at ratio 3:
    the first entry of the adjacency array wins, so the price of [XTK]
    follows the order of the batch. *)
Lemma price_depends_on_batch_order :
  [usdc_xtk; usdc_xtk_at_3] ≡ₚ [usdc_xtk_at_3; usdc_xtk]
  /\ price_in (price_batch oracle_down [usdc_xtk; usdc_xtk_at_3] ETH2USD) "XTK"
     = Done (Some (dec 2))
  /\ price_in (price_batch oracle_down [usdc_xtk_at_3; usdc_xtk] ETH2USD) "XTK"
     = Done (Some (dec 3)).
Proof. split; [apply Permutation_swap|by vm_compute]. Qed.

Lemma has_amounts_swap (t0 t1 : Leg DecimalJS.t) :
  is_Some (amount t0) -> is_Some (amount t1) -> has_amounts (swap t0 t1).
Proof. by split. Qed.

Lemma priced_symbols_permutation_invariant_witness :
  [usdc_xtk; usdc_xtk_at_3] ≡ₚ [usdc_xtk_at_3; usdc_xtk]
  /\ Forall has_amounts [usdc_xtk; usdc_xtk_at_3]
  /\ exists evs1 st1 evs2 st2,
      price_batch oracle_down [usdc_xtk; usdc_xtk_at_3] ETH2USD = Done (evs1, st1)
      /\ price_batch oracle_down [usdc_xtk_at_3; usdc_xtk] ETH2USD
         = Done (evs2, st2)
      /\ dom (symbol2USD st1) = dom (symbol2USD st2).
Proof.
  assert (Forall has_amounts [usdc_xtk; usdc_xtk_at_3]) as Hall.
  { repeat (apply Forall_cons_2; [split; by eexists|]). apply Forall_nil_2. }
  split_and!; [apply Permutation_swap|exact Hall|].
  exact (priced_symbols_permutation_invariant oracle_down
           [usdc_xtk; usdc_xtk_at_3] [usdc_xtk_at_3; usdc_xtk] ETH2USD
           (Permutation_swap _ _ _) Hall).
Defined.

(** [ZTK] is joined to [USDC] with ratio 2 and to [USDT] with ratio 3;
    [USDT] is popped first, in either order of the batch. *)
Example first_reached_path_wins :
  price_in (price_batch oracle_down [usdc_ztk; usdt_ztk] ETH2USD) "ZTK"
  = Done (Some (dec 3))
  /\ price_in (price_batch oracle_down [usdt_ztk; usdc_ztk] ETH2USD) "ZTK"
     = Done (Some (dec 3)).
Proof. by vm_compute. Qed.



(** C6, counterexample.  [BAR] is joined to no anchor and the oracle has the
    non-zero price 7 for it, but [BAR] is the second leg: the fallback asks
    for [FOO] only and [BAR] gets [FOO]'s price times the ratio, 10. *)
Lemma second_leg_is_not_seeded_from_the_oracle :
  (forall a, a ∈ anchors -> ~ connected [foo_bar] a "BAR")
  /\ oracle_price oracle_foo_bar "0xba5" = dec 7
  /\ isZero (dec 7) = false
  /\ price_in (price_batch oracle_foo_bar [foo_bar] ETH2USD) "BAR"
     = Done (Some (dec 10)).
Proof.
  split; [|by vm_compute].
  intros a Ha Hconn.
  assert (forall b c, edge [foo_bar] b c -> b = "FOO" \/ b = "BAR") as Hedge.
  { intros b c (e & He & _). vm_compute in He.
    apply elem_of_cons in He as [He|He]; [injection He as -> _; by left|].
    apply elem_of_cons in He as [He|He]; [injection He as -> _; by right|].
    by apply elem_of_nil in He. }
  assert (a <> "FOO" /\ a <> "BAR") as [HF HB].
  { split; intros ->; revert Ha; apply (bool_decide_unpack _); by vm_compute. }
  destruct Hconn as [|a b c Hab _]; [done|].
  by destruct (Hedge _ _ Hab).
Qed.

Lemma oracle_seed_prices_its_component_witness :
  Forall has_amounts [foo_bar]
  /\ [foo_bar] !! 0 = Some foo_bar
  /\ isZero (oracle_price oracle_foo_bar (id (token0 foo_bar))) = false
  /\ exists evs st,
      price_batch oracle_foo_bar [foo_bar] ETH2USD = Done (evs, st)
      /\ symbol2USD st !! "FOO" = Some (dec 5)
      /\ forall U, connected [foo_bar] "FOO" U ->
           exists q, symbol2USD st !! U = Some q
                     /\ path_price [foo_bar] "FOO" (dec 5) U q.
Proof.
  assert (Forall has_amounts [foo_bar]) as Hall.
  { apply Forall_cons_2; [split; by eexists|apply Forall_nil_2]. }
  split_and!; [exact Hall|reflexivity|reflexivity|].
  destruct (price_batch_upto oracle_foo_bar 0 [foo_bar] ETH2USD)
    as [[evs_i st_i]| |] eqn:Hupto; [|vm_compute in Hupto; discriminate..].
  apply (oracle_seed_prices_its_component oracle_foo_bar [foo_bar] ETH2USD
           0 foo_bar evs_i st_i Hall eq_refl Hupto); [|reflexivity].
  vm_compute in Hupto. injection Hupto as _ <-. reflexivity.
Defined.

(** C7, counterexample.  The first swap has a token with an empty symbol,
    so no edge joins it to [BAR]; when its iteration ends [BAR] has no price
    and leg 1 stays without USD fields.  The second swap then prices [BAR]
    through the oracle: [BAR] has a price in the final map, the leg does
    not have the fields. *)
Lemma later_price_is_not_applied_to_earlier_swap :
  price_in (price_batch oracle_foo_bar [nameless_bar; bar_foo] ETH2USD) "BAR"
  = Done (Some (dec 7))
  /\ symbol (token1 nameless_bar) = "BAR"
  /\ field_in (price_batch oracle_foo_bar [nameless_bar; bar_foo] ETH2USD) 0
       (fun se => value_in_usd (token1 se)) = Done (Some None)
  /\ field_in (price_batch oracle_foo_bar [nameless_bar; bar_foo] ETH2USD) 0
       (fun se => total_exchanged_usd (token1 se)) = Done (Some None).
Proof. by vm_compute. Qed.

Lemma usd_fields_follow_the_iteration_witness :
  Forall decoded [nameless_bar; bar_foo]
  /\ exists evs st,
      price_batch oracle_foo_bar [nameless_bar; bar_foo] ETH2USD = Done (evs, st)
      /\ length evs = length [nameless_bar; bar_foo]
      /\ forall i se, [nameless_bar; bar_foo] !! i = Some se ->
           exists se',
             evs !! i = Some se'
             /\ iteration_fields oracle_foo_bar [nameless_bar; bar_foo]
                  ETH2USD i se se' (symbol2USD st).
Proof.
  assert (Forall decoded [nameless_bar; bar_foo]) as Hdec.
  { repeat (apply Forall_cons_2; [by repeat split; try eexists|]).
    apply Forall_nil_2. }
  split; [exact Hdec|].
  exact (usd_fields_follow_the_iteration oracle_foo_bar
           [nameless_bar; bar_foo] ETH2USD Hdec).
Defined.

(** C2, at the failing input.  One log arrives, the quiet period expires,
    and the ETH price request fails: [parseSwapEvents] is left by the
    exception before it reaches [PARSING = false], so the cycle ends with
    the flag still set, and a later window, even with every collaborator
    answering, leaves the state as it is: its log is dropped and no cycle
    starts. *)
Lemma failed_price_fetch_wedges_the_aggregator :
  Index.PARSING wedged = true
  /\ Index.timer_pending wedged = false
  /\ Index.run getEthereumUSD_up parseLog_V3 parseLog_V2 getPairTokenSymbols
       getTokenMetadata fillUSDAmounts_ok
       [Index.Arrival v3_log; Index.TimerFired] wedged
     = wedged.
Proof. by vm_compute. Qed.

(** The wedged aggregator stays wedged, whatever is delivered next. *)
Example wedged_for_every_later_delivery :
  Index.timer_pending (Index.on_log v3_log (Index.initial (D:=DecimalJS.t)))
  = true
  /\ Index.PARSING wedged = true
  /\ forall ds,
      Index.run getEthereumUSD_down parseLog_V3 parseLog_V2 getPairTokenSymbols
        getTokenMetadata fillUSDAmounts_ok ds wedged
      = wedged.
Proof.
  split; [reflexivity|].
  exact (flag_is_cleared_only_by_a_completed_cycle getEthereumUSD_down
           parseLog_V3 parseLog_V2 getPairTokenSymbols getTokenMetadata
           fillUSDAmounts_ok (Index.on_log v3_log Index.initial) eq_refl).
Qed.

(** The same window when every collaborator answers: the flag is cleared. *)
Example completed_cycle_clears_the_flag :
  Index.PARSING settled = false /\ Index.timer_pending settled = false.
Proof. by vm_compute. Qed.

Lemma directional_normalisation_witness :
  6 <= 80 /\ 18 <= 80
  /\ Index.fits_fixed512 (-1500000) = true
  /\ Index.fits_fixed512 500000000000000 = true
  /\ (-1500000)%Z <> 0%Z /\ 500000000000000%Z <> 0%Z
  /\ (-1500000 * 500000000000000 < 0)%Z
  /\ exists leg0 leg1,
      Index.decode_legs usdc_weth_pair (Some (-1500000)%Z)
        (Some 500000000000000%Z) = Done (leg0, leg1)
      /\ isPositive (Index.leg_amount leg0) = true
      /\ isZero (Index.leg_amount leg0) = false
      /\ Index.leg_symbol leg0 = "WETH"
      /\ DecimalJS.toString (Index.leg_amount leg0) = "0.0005"
      /\ Index.leg_symbol leg1 = "USDC"
      /\ DecimalJS.toString (Index.leg_amount leg1) = "1.5".
Proof.
  split_and!;
    [lia|lia|reflexivity|reflexivity|discriminate|discriminate|reflexivity|].
  destruct (directional_normalisation usdc_weth_pair (-1500000) 500000000000000
              ltac:(simpl; lia) ltac:(simpl; lia) eq_refl eq_refl
              ltac:(discriminate) ltac:(discriminate) eq_refl)
    as (leg0 & leg1 & Hrun & Hpos & Hnz & [(Hlt & _)|(_ & -> & ->)]);
    [discriminate|].
  eexists _, _. split; [exact Hrun|]. by split_and!.
Defined.

(** A batch of three rows whose second write fails: all three rows are
    handed to the store, the first and the third are saved, the error of
    the second is logged, and the loop ends normally. *)
Example second_row_fails_rows_1_and_3_saved :
  let rows := row_values (Some ETH2USD) "2024-01-01T00:00:00.000Z"
                <$> [foo_bar; bar_foo; usdc_xtk] in
  persist second_row_fails (Some ETH2USD) "2024-01-01T00:00:00.000Z"
    [foo_bar; bar_foo; usdc_xtk] empty_sink
  = Done {| attempted := rows;
            saved := [row_values (Some ETH2USD) "2024-01-01T00:00:00.000Z" foo_bar;
                      row_values (Some ETH2USD) "2024-01-01T00:00:00.000Z" usdc_xtk];
            console_error := [ExternalError "connection reset"] |}.
Proof. reflexivity. Qed.

(** The same three events in the earlier revision: the first row has no USD
    fields, building it raises, and no row reaches the store. *)
Example revision1_unpriced_batch_raises :
  let stamp e := {| Revision1.event := e;
                    Revision1.timestamp := Some "2024-01-01T00:00:00.000Z" |} in
  Revision1.persist second_row_fails ETH2USD
    (stamp <$> [foo_bar; bar_foo; usdc_xtk]) empty_sink
  = Throw (TypeError "reading 'toString' of undefined").
Proof. reflexivity. Qed.

Lemma absent_fields_are_written_as_zero_witness :
  (7, None) ∈ numeric_columns (Some ETH2USD) foo_bar
  /\ length (row_values (Some ETH2USD) "2024-01-01T00:00:00.000Z" foo_bar) = 16
  /\ row_values (Some ETH2USD) "2024-01-01T00:00:00.000Z" foo_bar !! 7
     = Some (PText "0").
Proof.
  assert ((7, None) ∈ numeric_columns (Some ETH2USD) foo_bar) as Hin
    by (apply elem_of_cons; right; apply elem_of_cons; left; reflexivity).
  split; [exact Hin|].
  exact (absent_fields_are_written_as_zero (Some ETH2USD)
           "2024-01-01T00:00:00.000Z" foo_bar 7 None Hin (or_introl eq_refl)).
Defined.

(** An unresolved price and a price of zero give the same row. *)
Example unresolved_and_zero_price_rows_agree :
  row_values (Some ETH2USD) "2024-01-01T00:00:00.000Z"
    (swap (leg "0xf00" "FOO" 2) (leg "0xba5" "BAR" 1))
  = row_values (Some ETH2USD) "2024-01-01T00:00:00.000Z"
      (swap {| id := "0xf00"; symbol := "FOO"; amount := Some (dec 2);
               value_in_usd := Some (dec 0);
               total_exchanged_usd := Some (dec 0) |}
            {| id := "0xba5"; symbol := "BAR"; amount := Some (dec 1);
               value_in_usd := Some (dec 0);
               total_exchanged_usd := Some (dec 0) |}).
Proof. reflexivity. Qed.

(** ** Further properties of the price propagation *)

Section PropagationProperties.

Context {D : Type} `{DecimalOps D}.
Context (Moralis_getTokenPrice : string -> option D).

Implicit Types (graph : gmap string (list (Edge D))) (prices : gmap string D).
Implicit Types (st : PricingState D) (se : SwapEvent D).
Implicit Types (batch : list (SwapEvent D)).

#[local] Abbreviation visit := (visit Moralis_getTokenPrice).
#[local] Abbreviation price_events := (price_events Moralis_getTokenPrice).
#[local] Abbreviation price_batch := (price_batch Moralis_getTokenPrice).
#[local] Abbreviation price_batch_upto :=
  (price_batch_upto Moralis_getTokenPrice).
#[local] Abbreviation oracle_price := (oracle_price Moralis_getTokenPrice).
#[local] Abbreviation price_source := (price_source Moralis_getTokenPrice).

#[local] Opaque anchors.

(** The second loop, with the swaps the oracle is asked for and an
    invariant [R] of the prices. *)
Lemma price_events_trace batch graph fuel :
  build_graph ∅ batch = Done graph ->
  1 + size (edge_targets batch) <= fuel ->
  forall events st,
    stack st = [] -> closed graph (symbol2USD st) ->
    Forall has_amounts events ->
    exists evs st' asked,
      price_events fuel graph events st = Done (evs, st')
      /\ closed graph (symbol2USD st')
      /\ symbol2USD st ⊆ symbol2USD st'
      /\ asked `sublist_of` events
      /\ oracle_calls st'
         = oracle_calls st ++ ((fun se => id (token0 se)) <$> asked)
      /\ (forall se, se ∈ asked ->
            symbol2USD st !! symbol (token0 se) = None)
      /\ (forall i j se_i se_j,
            asked !! i = Some se_i -> asked !! j = Some se_j -> i < j ->
            ~ connected batch (symbol (token0 se_i)) (symbol (token0 se_j)))
      /\ (forall R : string -> D -> Prop,
            (forall a pa e, R a pa -> e ∈ adj_of graph a ->
                            R (edge_symbol e) (times pa (ratio e))) ->
            (forall se, se ∈ events ->
               R (symbol (token0 se)) (oracle_price (id (token0 se)))) ->
            (forall b q, symbol2USD st !! b = Some q -> R b q) ->
            forall b q, symbol2USD st' !! b = Some q -> R b q).
Proof.
  intros Hg Hfuel events.
  induction events as [|se events IH]; intros st Hstack Hcl Hall.
  - exists [], st, []. simpl. rewrite app_nil_r.
    split_and!; try done.
    intros se Hse. by apply elem_of_nil in Hse.
  - apply Forall_cons in Hall as [[Ha0 Ha1] Hall].
    destruct (visit_spec Moralis_getTokenPrice graph (edge_targets batch)
                fuel se st (build_graph_targets _ _ Hg) Hfuel
                Hstack Hcl Ha0 Ha1)
      as (st1 & Hvisit & Hstack1 & Hcl1 & Hsub1 & Hpr0 & Hsame & Hnew).
    destruct (IH st1 Hstack1 Hcl1 Hall)
      as (evs & st' & asked & Hrun & Hcl' & Hsub' & Hsl & Hcalls & Hun
          & Hapart & HR').
    rewrite price_events_cons, Hvisit, bind_Done. cbv beta iota.
    rewrite Hrun, bind_Done. cbv beta iota.
    assert (forall R : string -> D -> Prop,
              (forall a pa e, R a pa -> e ∈ adj_of graph a ->
                              R (edge_symbol e) (times pa (ratio e))) ->
              (forall se0, se0 ∈ se :: events ->
                 R (symbol (token0 se0)) (oracle_price (id (token0 se0)))) ->
              (forall b q, symbol2USD st !! b = Some q -> R b q) ->
              forall b q, symbol2USD st' !! b = Some q -> R b q) as HRall.
    { intros R Hstep Hev Hst. apply (HR' R Hstep).
      - intros se0 Hse0. apply Hev. apply elem_of_cons. by right.
      - intros b q Hb.
        destruct (symbol2USD st !! b) as [q0|] eqn:Hb0.
        + assert (q0 = q) as <-.
          { pose proof (lookup_weaken _ _ _ _ Hb0 Hsub1). congruence. }
          by apply Hst.
        + destruct (symbol2USD st !! symbol (token0 se)) as [p0|] eqn:Hp0.
          * rewrite (Hsame ltac:(by eexists)) in Hb. congruence.
          * destruct (Hnew eq_refl) as (_ & _ & HRnew).
            apply (HRnew R Hstep); [|done..].
            apply Hev. apply elem_of_cons. by left. }
    destruct (symbol2USD st !! symbol (token0 se)) as [p0|] eqn:Hp0.
    + assert (st1 = st) as -> by (apply Hsame; by eexists).
      exists (enriched (symbol2USD st) se :: evs), st', asked.
      split_and!; try done. by apply sublist_cons.
    + destruct (Hnew eq_refl) as (Hcalls1 & Hprice & _).
      exists (enriched (symbol2USD st1) se :: evs), st', (se :: asked).
      split_and!; try done.
      * by etrans.
      * by apply sublist_skip.
      * rewrite Hcalls, Hcalls1, fmap_cons, <- app_assoc. reflexivity.
      * intros se0 [->|Hse0]%elem_of_cons; [done|].
        eapply lookup_weaken_None; [by apply Hun|done].
      * intros [|i] [|j] se_i se_j Hi Hj Hlt; simpl in Hi, Hj; try lia.
        -- injection Hi as <-. intros Hconn.
           assert (is_Some (symbol2USD st1 !! symbol (token0 se_j))) as [q Hq].
           { eapply closed_connected; [exact Hg|exact Hcl1|exact Hconn|].
             by eexists. }
           rewrite (Hun se_j) in Hq; [done|].
           by eapply list_elem_of_lookup_2.
        -- apply (Hapart i j); [done..|lia].
Qed.

(** The first traversal, with an invariant [R] of the prices. *)
Lemma first_traversal_trace batch ETH2USD graph (R : string -> D -> Prop) :
  build_graph ∅ batch = Done graph ->
  (forall a pa e, R a pa -> e ∈ adj_of graph a ->
                  R (edge_symbol e) (times pa (ratio e))) ->
  (forall a pa, seed_prices anchors ETH2USD !! a = Some pa -> R a pa) ->
  exists prices0,
    traverse (traverse_fuel anchors batch) graph
      (seed_prices anchors ETH2USD) anchors = Done prices0
    /\ seed_prices anchors ETH2USD ⊆ prices0
    /\ closed graph prices0
    /\ forall b q, prices0 !! b = Some q -> R b q.
Proof.
  intros Hg Hstep Hseed.
  destruct (traverse_spec graph (edge_targets batch) R
              (build_graph_targets _ _ Hg) Hstep
              (traverse_fuel anchors batch)
              (seed_prices anchors ETH2USD) anchors)
    as (prices0 & Hrun & Hsub & Hcl & HRnew).
  - intros a Ha. by apply (proj2 (seed_prices_is_Some ETH2USD a)).
  - apply first_fuel.
  - exists prices0. split_and!; try done.
    + apply Hcl. intros a Ha. left.
      by apply (proj1 (seed_prices_is_Some ETH2USD a)).
    + intros b q Hb.
      destruct (seed_prices anchors ETH2USD !! b) as [q0|] eqn:Hb0.
      * assert (q0 = q) as <-.
        { pose proof (lookup_weaken _ _ _ _ Hb0 Hsub). congruence. }
        by apply Hseed.
      * apply (HRnew ltac:(by intros; apply Hseed) b q Hb0 Hb).
Qed.

(** The whole pricing phase of a batch whose legs carry their amounts. *)
Lemma price_batch_trace batch ETH2USD :
  Forall has_amounts batch ->
  exists graph prices0 evs st asked,
    build_graph ∅ batch = Done graph
    /\ price_batch batch ETH2USD = Done (evs, st)
    /\ closed graph prices0
    /\ seed_prices anchors ETH2USD ⊆ prices0
    /\ prices0 ⊆ symbol2USD st
    /\ closed graph (symbol2USD st)
    /\ asked `sublist_of` batch
    /\ oracle_calls st = (fun se => id (token0 se)) <$> asked
    /\ (forall se, se ∈ asked -> prices0 !! symbol (token0 se) = None)
    /\ (forall i j se_i se_j,
          asked !! i = Some se_i -> asked !! j = Some se_j -> i < j ->
          ~ connected batch (symbol (token0 se_i)) (symbol (token0 se_j)))
    /\ (forall R : string -> D -> Prop,
          (forall a pa e, R a pa -> e ∈ adj_of graph a ->
                          R (edge_symbol e) (times pa (ratio e))) ->
          (forall a pa, seed_prices anchors ETH2USD !! a = Some pa -> R a pa) ->
          (forall se, se ∈ batch ->
             R (symbol (token0 se)) (oracle_price (id (token0 se)))) ->
          forall b q, symbol2USD st !! b = Some q -> R b q).
Proof.
  intros Hall.
  destruct (build_graph_total batch ∅ Hall) as [graph Hg].
  destruct (first_traversal_trace batch ETH2USD graph (fun _ _ => True) Hg)
    as (prices0 & Htr & Hsub0 & Hcl0 & _); [done..|].
  destruct (price_events_trace batch graph (traverse_fuel anchors batch)
              Hg (loop_fuel batch) batch (loop_start prices0)
              eq_refl Hcl0 Hall)
    as (evs & st & asked & Hrun & Hcl & Hsub & Hsl & Hcalls & Hun & Hapart
        & HR).
  exists graph, prices0, evs, st, asked.
  destruct (price_batch_unfold Moralis_getTokenPrice batch ETH2USD graph
              prices0 Hg Htr) as [-> _].
  split_and!; try done.
  intros R Hstep Hseed Hev.
  destruct (first_traversal_trace batch ETH2USD graph R Hg Hstep Hseed)
    as (prices0' & Htr' & _ & _ & HR0).
  assert (prices0' = prices0) as -> by congruence.
  by apply (HR R Hstep Hev).
Qed.

(** X3.  After the pricing phase the priced symbols are closed under the
    edges of the batch: a symbol swapped against a priced symbol is
    priced, so the two symbols of a swap (both non-empty) are priced
    together or not at all. *)
Theorem priced_symbols_are_closed_under_swaps batch ETH2USD :
  Forall has_amounts batch ->
  exists evs st,
    price_batch batch ETH2USD = Done (evs, st)
    /\ (forall a b, connected batch a b ->
          is_Some (symbol2USD st !! a) -> is_Some (symbol2USD st !! b))
    /\ (forall se, se ∈ batch ->
          truthy (symbol (token0 se)) = true ->
          truthy (symbol (token1 se)) = true ->
          is_Some (symbol2USD st !! symbol (token0 se))
          <-> is_Some (symbol2USD st !! symbol (token1 se))).
Proof.
  intros Hall.
  destruct (price_batch_trace batch ETH2USD Hall)
    as (graph & prices0 & evs & st & asked & Hg & Hrun & _ & _ & _ & Hcl & _).
  exists evs, st. split_and!; [done| |].
  - intros a b Hconn Ha. by eapply closed_connected.
  - intros se Hse Ht0 Ht1.
    assert (has_amounts se) as [Ha0 Ha1].
    { rewrite Forall_forall in Hall. by apply Hall. }
    pose proof (swap_edge batch se Hse Ht0 Ht1 Ha0 Ha1) as He.
    split; intros Hp.
    + eapply closed_connected; [exact Hg|exact Hcl| |exact Hp].
      by apply rtc_once.
    + eapply closed_connected; [exact Hg|exact Hcl| |exact Hp].
      apply rtc_once. by apply edge_sym.
Qed.

(** X4.  No price comes from nowhere: every price of the final map is the
    seed of an anchor, or the oracle's answer for the first leg of a swap
    of the batch, multiplied by the ratios along a path of edges of the
    batch. *)
Theorem every_price_has_a_source batch ETH2USD :
  Forall has_amounts batch ->
  exists evs st,
    price_batch batch ETH2USD = Done (evs, st)
    /\ forall b q, symbol2USD st !! b = Some q ->
         exists T p, price_source batch ETH2USD T p
                     /\ path_price batch T p b q.
Proof.
  intros Hall.
  destruct (price_batch_trace batch ETH2USD Hall)
    as (graph & prices0 & evs & st & asked & Hg & Hrun & _ & _ & _ & _ & _
        & _ & _ & _ & HR).
  exists evs, st. split; [done|].
  apply (HR (fun b q => exists T p, price_source batch ETH2USD T p
                                    /\ path_price batch T p b q)).
  - intros a pa e (T & p & Hsrc & Hpath) He.
    exists T, p. split; [done|].
    eapply path_step; [exact Hpath|].
    by apply (build_graph_elem _ _ _ _ Hg).
  - intros a pa Ha. exists a, pa. split; [by left|apply path_start].
  - intros se Hse. eexists _, _. split; [|apply path_start].
    right. by exists se.
Qed.

(** X5.  The oracle is asked for first legs of swaps of the batch only, in
    the order of the batch, and never for a symbol that edges of the
    batch join to an anchor. *)
Theorem oracle_is_not_asked_inside_anchor_components batch ETH2USD :
  Forall has_amounts batch ->
  exists evs st asked,
    price_batch batch ETH2USD = Done (evs, st)
    /\ asked `sublist_of` batch
    /\ oracle_calls st = (fun se => id (token0 se)) <$> asked
    /\ forall se, se ∈ asked -> off_anchors batch (symbol (token0 se)).
Proof.
  intros Hall.
  destruct (price_batch_trace batch ETH2USD Hall)
    as (graph & prices0 & evs & st & asked & Hg & Hrun & Hcl0 & Hseed & _
        & _ & Hsl & Hcalls & Hun & _).
  exists evs, st, asked. split_and!; try done.
  intros se Hse anchor Hanchor Hconn.
  assert (is_Some (prices0 !! symbol (token0 se))) as [q Hq].
  { eapply closed_connected; [exact Hg|exact Hcl0|exact Hconn|].
    destruct (proj2 (seed_prices_is_Some ETH2USD anchor) Hanchor) as [q Hq].
    exists q. by eapply lookup_weaken. }
  by rewrite (Hun se Hse) in Hq.
Qed.

(** X6.  In a batch for which the oracle answers no zero, the oracle is asked
    at most once per connected component of the batch: the first legs it
    is asked for are pairwise not joined by edges of the batch. *)
Theorem one_oracle_request_per_component batch ETH2USD :
  Forall has_amounts batch ->
  (forall se, se ∈ batch ->
     isZero (oracle_price (id (token0 se))) = false) ->
  exists evs st asked,
    price_batch batch ETH2USD = Done (evs, st)
    /\ asked `sublist_of` batch
    /\ oracle_calls st = (fun se => id (token0 se)) <$> asked
    /\ forall i j se_i se_j,
         asked !! i = Some se_i -> asked !! j = Some se_j -> i <> j ->
         ~ connected batch (symbol (token0 se_i)) (symbol (token0 se_j)).
Proof.
  intros Hall _.
  destruct (price_batch_trace batch ETH2USD Hall)
    as (graph & prices0 & evs & st & asked & Hg & Hrun & _ & _ & _
        & _ & Hsl & Hcalls & _ & Hapart & _).
  exists evs, st, asked. split_and!; try done.
  intros i j se_i se_j Hi Hj Hne Hconn.
  destruct (decide (i < j)) as [Hlt|Hge].
  - by apply (Hapart i j se_i se_j).
  - apply (Hapart j i se_j se_i); [done..|lia|by apply connected_sym].
Qed.

#[local] Transparent anchors.

End PropagationProperties.

(** ** The graph, the traversal and the batch as a whole *)

Section GraphAndBatchProperties.

Context {D : Type} `{DecimalOps D}.
Context (Moralis_getTokenPrice : string -> option D).

Implicit Types (graph : gmap string (list (Edge D))) (prices : gmap string D).
Implicit Types (st : PricingState D) (se : SwapEvent D).
Implicit Types (batch : list (SwapEvent D)).

#[local] Abbreviation price_batch := (price_batch Moralis_getTokenPrice).
#[local] Abbreviation price_batch_upto :=
  (price_batch_upto Moralis_getTokenPrice).

#[local] Opaque anchors.

Lemma swap_edges_inv se a e :
  (a, e) ∈ swap_edges se <->
  truthy (symbol (token0 se)) = true /\ truthy (symbol (token1 se)) = true
  /\ exists x y,
       amount (token0 se) = Some x /\ amount (token1 se) = Some y
       /\ ((a = symbol (token0 se)
            /\ e = {| edge_symbol := symbol (token1 se);
                      ratio := dividedBy x y |})
           \/ (a = symbol (token1 se)
               /\ e = {| edge_symbol := symbol (token0 se);
                         ratio := dividedBy y x |})).
Proof.
  unfold swap_edges.
  destruct (truthy (symbol (token0 se))), (truthy (symbol (token1 se)));
    simpl; try (split; [by intros ?%elem_of_nil|by intros (? & ? & _)]).
  destruct (amount (token0 se)) as [x|], (amount (token1 se)) as [y|];
    try (split; [by intros ?%elem_of_nil
                |by intros (_ & _ & ? & ? & ? & ? & _)]).
  split.
  - intros [Heq|[Heq|?%elem_of_nil]%elem_of_cons]%elem_of_cons; [| |done];
      injection Heq as -> ->; (split_and!; [done..|]); exists x, y;
      split_and!; try done; [by left|by right].
  - intros (_ & _ & x' & y' & [= <-] & [= <-] & [[-> ->]|[-> ->]]).
    + apply elem_of_cons. by left.
    + apply elem_of_cons. right. apply elem_of_cons. by left.
Qed.

(** X1.  The graph of a batch has exactly the edges of its swaps: a swap with
    two non-empty symbols gives [s0 -> s1] with ratio
    [amount0 / amount1] and [s1 -> s0] with ratio [amount1 / amount0];
    a swap with an empty symbol gives none, so no edge leaves or
    reaches the empty symbol. *)
Theorem graph_edges_are_the_swaps batch :
  Forall has_amounts batch ->
  exists graph,
    build_graph ∅ batch = Done graph
    /\ forall a e,
         e ∈ adj_of graph a <->
         exists se x y,
           se ∈ batch
           /\ truthy (symbol (token0 se)) = true
           /\ truthy (symbol (token1 se)) = true
           /\ amount (token0 se) = Some x /\ amount (token1 se) = Some y
           /\ ((a = symbol (token0 se)
                /\ e = {| edge_symbol := symbol (token1 se);
                          ratio := dividedBy x y |})
               \/ (a = symbol (token1 se)
                   /\ e = {| edge_symbol := symbol (token0 se);
                             ratio := dividedBy y x |})).
Proof.
  intros Hall. destruct (build_graph_total batch ∅ Hall) as [graph Hg].
  exists graph. split; [done|]. intros a e.
  rewrite (build_graph_elem _ _ _ _ Hg). unfold batch_edges.
  rewrite list_elem_of_bind. split.
  - intros (se & (Ht0 & Ht1 & x & y & Hx & Hy & Hcase)%swap_edges_inv & Hse).
    by exists se, x, y.
  - intros (se & x & y & Hse & Ht0 & Ht1 & Hx & Hy & Hcase).
    exists se. split; [|done]. apply swap_edges_inv.
    split_and!; [done..|]. by exists x, y.
Qed.

(** X2.  The traversal ends, whatever cycles the graph has: from a stack of
    priced symbols it returns within [length stack] plus the number of
    unpriced edge targets iterations, without an exception; it only
    adds prices, and it leaves no edge from a priced symbol to an
    unpriced one if the priced symbols outside the stack had none. *)
Theorem traversal_terminates graph (S : gset string) prices stk fuel :
  targets_in graph S ->
  (forall a, a ∈ stk -> is_Some (prices !! a)) ->
  length stk + size (S ∖ dom prices) <= fuel ->
  exists prices',
    traverse fuel graph prices stk = Done prices'
    /\ prices ⊆ prices'
    /\ ((forall a, is_Some (prices !! a) ->
           a ∈ stk \/ closed_at graph prices a) ->
        closed graph prices').
Proof.
  intros HS Hstk Hfuel.
  destruct (traverse_spec graph S (fun _ _ => True) HS ltac:(done)
              fuel prices stk Hstk Hfuel)
    as (prices' & Hrun & Hsub & Hcl & _).
  by exists prices'.
Qed.

(** X7.  Tokens are priced by symbol: a first leg whose symbol is the symbol
    of an anchor gets the anchor's price (the ETH price for [WETH], 1
    for the others) whatever its address, and so does the second leg of
    that swap. *)
Theorem anchor_symbol_is_priced_by_name batch ETH2USD :
  Forall decoded batch ->
  exists evs st,
    price_batch batch ETH2USD = Done (evs, st)
    /\ forall i se,
         batch !! i = Some se -> symbol (token0 se) ∈ anchors ->
         exists se',
           evs !! i = Some se'
           /\ value_in_usd (token0 se')
              = Some (if decide (symbol (token0 se) = "WETH")
                      then ETH2USD else Dec_one)
           /\ (symbol (token1 se) ∈ anchors ->
               value_in_usd (token1 se')
               = Some (if decide (symbol (token1 se) = "WETH")
                       then ETH2USD else Dec_one)).
Proof.
  intros Hdec. pose proof (decoded_has_amounts _ Hdec) as Hall.
  destruct (price_batch_total Moralis_getTokenPrice batch ETH2USD Hall)
    as (graph & prices0 & evs & st & Hg & _ & Hrun & _).
  exists evs, st. split; [done|]. intros i se Hi Hanchor.
  destruct (price_batch_iteration Moralis_getTokenPrice batch ETH2USD i se
              Hall Hi)
    as (graph' & evs' & st' & evs_i & st_i & se' & st_i1 & Hg' & Hrun'
        & Hupto & _ & Hvisit & Hevs & _).
  assert (graph' = graph) as -> by congruence.
  rewrite Hrun in Hrun'. injection Hrun' as <- <-.
  destruct (price_batch_upto_mono Moralis_getTokenPrice _ _ _ _ _ _ _
              Hrun Hupto) as [Hseed _].
  assert (decoded se) as Hse.
  { rewrite Forall_forall in Hdec. apply Hdec.
    by eapply list_elem_of_lookup_2. }
  assert (forall a, a ∈ anchors ->
            symbol2USD st_i !! a
            = Some (if decide (a = "WETH") then ETH2USD else Dec_one))
    as Hprice.
  { intros a Ha. eapply lookup_weaken; [|exact Hseed].
    case_decide as Hw.
    - subst. apply seed_prices_WETH.
    - by apply seed_prices_stable. }
  rewrite (visit_priced Moralis_getTokenPrice _ graph se st_i) in Hvisit;
    [|rewrite (Hprice _ Hanchor); by eexists|by destruct Hse].
  injection Hvisit as <- <-.
  destruct (enriched_fields (symbol2USD st_i) se Hse)
    as (_ & _ & _ & _ & _ & _ & Hv0 & Hv1 & _).
  exists (enriched (symbol2USD st_i) se). split_and!; [done| |].
  - by rewrite Hv0, (Hprice _ Hanchor).
  - intros Hanchor1. by rewrite Hv1, (Hprice _ Hanchor), (Hprice _ Hanchor1).
Qed.

(** *** The batch as a whole *)

Lemma build_graph_missing_amount batch se :
  se ∈ batch ->
  truthy (symbol (token0 se)) = true -> truthy (symbol (token1 se)) = true ->
  ~ has_amounts se ->
  forall graph, exists err, build_graph graph batch = Throw err.
Proof.
  intros Hse Ht0 Ht1 Hno.
  induction batch as [|se0 batch IH]; [by apply elem_of_nil in Hse|].
  intros graph. simpl.
  apply elem_of_cons in Hse as [<-|Hse].
  - unfold add_swap_edges. rewrite Ht0, Ht1. simpl.
    unfold has_amounts in Hno.
    destruct (amount (token0 se)) as [x|], (amount (token1 se)) as [y|];
      simpl; try (by eexists).
    destruct Hno. by split.
  - destruct (add_swap_edges graph se0) as [graph1|err|] eqn:Hadd; simpl.
    + by apply IH.
    + by eexists.
    + unfold add_swap_edges in Hadd.
      destruct (truthy (symbol (token0 se0)) && truthy (symbol (token1 se0)));
        [|done].
      destruct (amount (token0 se0)), (amount (token1 se0)); done.
Qed.

Context (client_query : nat -> list SqlParam -> option JsError).
Context (getBlock_timestamp : Z -> Outcome string).

#[local] Abbreviation fillUSDAmounts :=
  (fillUSDAmounts Moralis_getTokenPrice client_query getBlock_timestamp).

(** X8.  A swap with two non-empty symbols and a missing amount makes
    [fillUSDAmounts] throw while the graph is built: no price is
    computed and no row is written for any swap of the batch. *)
Theorem missing_amount_rejects_the_batch batch ETH2USD se :
  se ∈ batch ->
  truthy (symbol (token0 se)) = true -> truthy (symbol (token1 se)) = true ->
  ~ has_amounts se ->
  exists err,
    build_graph ∅ batch = Throw err
    /\ fillUSDAmounts batch ETH2USD = Throw err.
Proof.
  intros Hse Ht0 Ht1 Hno.
  destruct (build_graph_missing_amount batch se Hse Ht0 Ht1 Hno ∅)
    as [err Hg].
  exists err. split; [done|].
  destruct batch as [|first rest]; [by apply elem_of_nil in Hse|].
  unfold fillUSDAmounts, price_batch.
  by rewrite Hg.
Qed.

Lemma persist_attempted ETH2USD block_timestamp
    (events : list (SwapEvent D)) sink :
  exists sink',
    persist client_query ETH2USD block_timestamp events sink = Done sink'
    /\ attempted sink'
       = attempted sink ++ (row_values ETH2USD block_timestamp <$> events)
    /\ length (saved sink') + length (console_error sink')
       = length (saved sink) + length (console_error sink) + length events.
Proof.
  revert sink. induction events as [|event events IH]; intros sink.
  - exists sink. simpl. rewrite app_nil_r. split_and!; [done..|lia].
  - destruct (persist_row_spec client_query ETH2USD block_timestamp event sink)
      as (sink1 & Hrow & Hatt1 & Hans).
    destruct (IH sink1) as (sink' & Hrun & Hatt & Hcount).
    exists sink'. simpl. rewrite Hrow, bind_Done.
    split_and!; [done| |].
    + rewrite Hatt, Hatt1. by rewrite <- app_assoc.
    + rewrite Hcount. simpl.
      destruct (client_query _ _) as [err|]; destruct Hans as [-> ->];
        rewrite ?length_app; simpl; lia.
Qed.

(** X9.  For a batch whose legs carry their amounts, once the block of the
    first event is read, [fillUSDAmounts] returns normally whatever the
    oracle and the store answer: it hands the store one row per swap, in
    the order of the batch, and every row carries the timestamp of the
    first event's block. *)
Theorem one_row_per_swap batch ETH2USD first rest block_timestamp :
  batch = first :: rest ->
  Forall has_amounts batch ->
  getBlock_timestamp (blockNumber first) = Done block_timestamp ->
  exists evs st sink,
    fillUSDAmounts batch ETH2USD = Done (Some (evs, st, sink))
    /\ price_batch batch ETH2USD = Done (evs, st)
    /\ length evs = length batch
    /\ attempted sink = row_values (Some ETH2USD) block_timestamp <$> evs
    /\ (forall row, row ∈ attempted sink ->
          length row = 16 /\ row !! 15 = Some (PText block_timestamp))
    /\ length (saved sink) + length (console_error sink) = length batch.
Proof.
  intros Hbatch Hall Hblock.
  destruct (price_batch_total Moralis_getTokenPrice batch ETH2USD Hall)
    as (graph & prices0 & evs & st & _ & _ & Hrun & _ & Hlen & _).
  destruct (persist_attempted (Some ETH2USD) block_timestamp evs empty_sink)
    as (sink & Hpersist & Hatt & Hcount).
  exists evs, st, sink.
  assert (fillUSDAmounts batch ETH2USD = Done (Some (evs, st, sink))) as Hfill.
  { unfold fillUSDAmounts. rewrite Hbatch. rewrite <- Hbatch.
    rewrite Hrun, bind_Done. cbv beta iota.
    rewrite Hblock, bind_Done, Hpersist, bind_Done. reflexivity. }
  simpl in Hatt, Hcount.
  split_and!; try done.
  - intros row Hrow. rewrite Hatt in Hrow.
    apply list_elem_of_fmap in Hrow as (ev & -> & _). by split.
  - lia.
Qed.

(** X10.  When the block of the first event cannot be read, [fillUSDAmounts]
    throws after the prices are computed and before the first row is
    built: nothing of the batch is written. *)
Theorem failed_block_lookup_loses_the_batch batch ETH2USD first rest err :
  batch = first :: rest ->
  Forall has_amounts batch ->
  getBlock_timestamp (blockNumber first) = Throw err ->
  (exists evs st, price_batch batch ETH2USD = Done (evs, st))
  /\ fillUSDAmounts batch ETH2USD = Throw err.
Proof.
  intros Hbatch Hall Hblock.
  destruct (price_batch_total Moralis_getTokenPrice batch ETH2USD Hall)
    as (graph & prices0 & evs & st & _ & _ & Hrun & _).
  split; [by exists evs, st|].
  unfold fillUSDAmounts. rewrite Hbatch. rewrite <- Hbatch.
  rewrite Hrun, bind_Done. cbv beta iota.
  by rewrite Hblock.
Qed.

#[local] Transparent anchors.

End GraphAndBatchProperties.

(** ** Further properties of the aggregator and the decoder *)

Section CycleProperties.

Context {D : Type} `{DecimalOps D}.
Context (getEthereumUSD : Outcome D).
Context (parseLog_V3 : Index.RawLog -> Outcome (option (Z * Z))).
Context (parseLog_V2 : Index.RawLog -> Outcome (option (Z * Z * Z * Z))).
Context (getPairTokenSymbols : string -> option (string * string)).
Context (getTokenMetadata : string -> Outcome (string * nat)).
Context (fillUSDAmounts
          : list (Index.LogObject D) -> D -> Outcome (list (Index.LogObject D))).

Implicit Types (st : Index.State D).

#[local] Abbreviation resolve_token := (Index.resolve_token getTokenMetadata).
#[local] Abbreviation resolve_pair :=
  (Index.resolve_pair getPairTokenSymbols getTokenMetadata).
#[local] Abbreviation decode_amounts :=
  (Index.decode_amounts parseLog_V3 parseLog_V2).
#[local] Abbreviation decode_log :=
  (Index.decode_log parseLog_V3 parseLog_V2 getPairTokenSymbols
     getTokenMetadata).
#[local] Abbreviation decode_logs :=
  (Index.decode_logs parseLog_V3 parseLog_V2 getPairTokenSymbols
     getTokenMetadata).
#[local] Abbreviation parseSwapEvents :=
  (Index.parseSwapEvents getEthereumUSD parseLog_V3 parseLog_V2
     getPairTokenSymbols getTokenMetadata fillUSDAmounts).
#[local] Abbreviation deliver :=
  (Index.deliver getEthereumUSD parseLog_V3 parseLog_V2
     getPairTokenSymbols getTokenMetadata fillUSDAmounts).
#[local] Abbreviation run :=
  (Index.run getEthereumUSD parseLog_V3 parseLog_V2
     getPairTokenSymbols getTokenMetadata fillUSDAmounts).

(** *** The token cache and the pair cache *)

(** The three ways [resolve_token] ends. *)
Lemma resolve_token_cases address st :
  (exists token,
      Index.tokens st !! address = Some token
      /\ resolve_token address st = (Done token, st))
  \/ (exists sym dec,
        Index.tokens st !! address = None
        /\ getTokenMetadata address = Done (sym, dec)
        /\ resolve_token address st
           = (Done {| Index.symbol := sym; Index.decimal := dec |},
              Index.set_tokens
                (<[address := {| Index.symbol := sym; Index.decimal := dec |}]>
                   (Index.tokens st)) st))
  \/ (exists r,
        Index.tokens st !! address = None
        /\ aborted r /\ resolve_token address st = (r, st)).
Proof.
  unfold Index.resolve_token, Index.cbind, Index.get, Index.await,
    Index.modify, Index.cret.
  destruct (Index.tokens st !! address) as [token|] eqn:Htok.
  - left. by exists token.
  - right. destruct (getTokenMetadata address) as [[sym dec]|err|] eqn:Hmeta.
    + left. by exists sym, dec.
    + right. by exists (Throw err).
    + right. by exists OutOfFuel.
Qed.

Lemma cbind_Done {A B} (m : Index.Cycle D A) (f : A -> Index.Cycle D B)
    st a st1 :
  m st = (Done a, st1) -> Index.cbind m f st = f a st1.
Proof. intros Hm. unfold Index.cbind. by rewrite Hm. Qed.

Lemma cbind_aborted {A B} (m : Index.Cycle D A) (f : A -> Index.Cycle D B)
    st r st1 :
  m st = (r, st1) -> aborted r ->
  exists r', Index.cbind m f st = (r', st1) /\ aborted r'.
Proof.
  intros Hm Hr. unfold Index.cbind. rewrite Hm.
  destruct r as [a|err|]; [done|by eexists..].
Qed.

Lemma resolve_pair_unfold pool st :
  resolve_pair pool st
  = match Index.pairTokens st !! pool with
    | Some pairToken => (Done pairToken, st)
    | None =>
        match getPairTokenSymbols pool with
        | None => (Throw (TypeError "reading 'token0' of null"), st)
        | Some (address0, address1) =>
            Index.cbind (resolve_token address0)
              (fun t0 =>
                 Index.cbind (resolve_token address1)
                   (fun t1 st2 =>
                      (Done {| Index.token0 := t0; Index.token1 := t1 |},
                       Index.set_pairTokens
                         (<[pool := {| Index.token0 := t0;
                                       Index.token1 := t1 |}]>
                            (Index.pairTokens st2)) st2))) st
        end
    end.
Proof.
  unfold Index.resolve_pair, Index.cbind, Index.get, Index.modify, Index.cret.
  destruct (Index.pairTokens st !! pool); [reflexivity|].
  destruct (getPairTokenSymbols pool) as [[? ?]|]; reflexivity.
Qed.

(** How [resolve_pair] ends and what it leaves. *)
Lemma resolve_pair_spec pool st :
  exists r st',
    resolve_pair pool st = (r, st')
    /\ Index.logs st' = Index.logs st
    /\ Index.PARSING st' = Index.PARSING st
    /\ Index.ARRIVING st' = Index.ARRIVING st
    /\ Index.timer_pending st' = Index.timer_pending st
    /\ Index.tokens st ⊆ Index.tokens st'
    /\ match r with
       | Done pairToken =>
           (Index.pairTokens st !! pool = Some pairToken /\ st' = st)
           \/ (Index.pairTokens st !! pool = None
               /\ is_Some (getPairTokenSymbols pool)
               /\ Index.pairTokens st'
                  = <[pool := pairToken]> (Index.pairTokens st))
       | _ =>
           Index.pairTokens st !! pool = None
           /\ Index.pairTokens st' = Index.pairTokens st
       end.
Proof.
  rewrite resolve_pair_unfold.
  destruct (Index.pairTokens st !! pool) as [pairToken|] eqn:Hpair.
  { eexists _, _. split_and!; [reflexivity|done..|]. by left. }
  destruct (getPairTokenSymbols pool) as [[address0 address1]|] eqn:Hsym.
  2:{ eexists _, _. by split_and!; [reflexivity|..]. }
  destruct (resolve_token_cases address0 st)
    as [(t0 & Ht0 & E0)|[(sym0 & dec0 & Ht0 & Hm0 & E0)|(r0 & Ht0 & Hr0 & E0)]].
  - rewrite (cbind_Done _ _ _ _ _ E0).
    destruct (resolve_token_cases address1 st)
      as [(t1 & Ht1 & E1)|[(sym1 & dec1 & Ht1 & Hm1 & E1)|(r1 & Ht1 & Hr1 & E1)]].
    + rewrite (cbind_Done _ _ _ _ _ E1).
      eexists _, _. split_and!; [reflexivity|done..|]. right. by split_and!.
    + rewrite (cbind_Done _ _ _ _ _ E1).
      eexists _, _. split_and!; [reflexivity|done..| |].
      * simpl. by apply insert_subseteq.
      * right. by split_and!.
    + destruct (cbind_aborted _
                  (fun t1 st2 =>
                     (Done {| Index.token0 := t0; Index.token1 := t1 |},
                      Index.set_pairTokens
                        (<[pool := {| Index.token0 := t0;
                                      Index.token1 := t1 |}]>
                           (Index.pairTokens st2)) st2))
                  _ _ _ E1 Hr1) as (r' & -> & Hr').
      exists r', st. split_and!; [done..|].
      destruct r'; [done|by split..].
  - rewrite (cbind_Done _ _ _ _ _ E0).
    set (st1 := Index.set_tokens _ st) in *.
    assert (Index.tokens st ⊆ Index.tokens st1) as Hsub1
      by (by apply insert_subseteq).
    destruct (resolve_token_cases address1 st1)
      as [(t1 & Ht1 & E1)|[(sym1 & dec1 & Ht1 & Hm1 & E1)|(r1 & Ht1 & Hr1 & E1)]].
    + rewrite (cbind_Done _ _ _ _ _ E1).
      eexists _, _. split_and!; [reflexivity|done..|]. right. by split_and!.
    + rewrite (cbind_Done _ _ _ _ _ E1).
      eexists _, _. split_and!; [reflexivity|done..| |].
      * simpl. etrans; [exact Hsub1|]. by apply insert_subseteq.
      * right. by split_and!.
    + destruct (cbind_aborted _
                  (fun t1 st2 =>
                     (Done {| Index.token0 :=
                                {| Index.symbol := sym0;
                                   Index.decimal := dec0 |};
                              Index.token1 := t1 |},
                      Index.set_pairTokens
                        (<[pool := {| Index.token0 :=
                                        {| Index.symbol := sym0;
                                           Index.decimal := dec0 |};
                                      Index.token1 := t1 |}]>
                           (Index.pairTokens st2)) st2))
                  _ _ _ E1 Hr1) as (r' & -> & Hr').
      exists r', st1. split_and!; [done..|].
      destruct r'; [done|by split..].
  - destruct (cbind_aborted _
                (fun t0 =>
                   Index.cbind (resolve_token address1)
                     (fun t1 st2 =>
                        (Done {| Index.token0 := t0; Index.token1 := t1 |},
                         Index.set_pairTokens
                           (<[pool := {| Index.token0 := t0;
                                         Index.token1 := t1 |}]>
                              (Index.pairTokens st2)) st2)))
                _ _ _ E0 Hr0) as (r' & -> & Hr').
    exists r', st. split_and!; [done..|].
    destruct r'; [done|by split..].
Qed.

(** *** Decoding the logs of a window *)

Lemma decode_log_unfold i previous st :
  decode_log i previous st
  = match Index.logs st !! i with
    | None => (Throw (TypeError "reading 'topics' of undefined"), st)
    | Some log =>
        match decode_amounts (Index.raw log) previous with
        | Done amounts =>
            match resolve_pair (Index.address (Index.raw log)) st with
            | (Done pairToken, st1) =>
                match Index.decode_legs pairToken amounts.1 amounts.2 with
                | Done decoded =>
                    (Done amounts,
                     Index.set_logs
                       (<[i := {| Index.raw := Index.raw log;
                                  Index.legs := Some decoded |}]>
                          (Index.logs st1)) st1)
                | Throw e => (Throw e, st1)
                | OutOfFuel => (OutOfFuel, st1)
                end
            | (Throw e, st1) => (Throw e, st1)
            | (OutOfFuel, st1) => (OutOfFuel, st1)
            end
        | Throw e => (Throw e, st)
        | OutOfFuel => (OutOfFuel, st)
        end
    end.
Proof.
  unfold Index.decode_log, Index.cbind, Index.get, Index.await,
    Index.modify, Index.cret.
  destruct (Index.logs st !! i) as [log|]; [|reflexivity].
  destruct (decode_amounts (Index.raw log) previous) as [amounts|e|];
    [|reflexivity..].
  destruct (resolve_pair (Index.address (Index.raw log)) st)
    as [[pairToken|e|] st1]; [|reflexivity..].
  destruct (Index.decode_legs pairToken amounts.1 amounts.2); reflexivity.
Qed.

(** How decoding one log ends and what it leaves. *)
Lemma decode_log_spec i previous st :
  exists r st',
    decode_log i previous st = (r, st')
    /\ Index.PARSING st' = Index.PARSING st
    /\ Index.ARRIVING st' = Index.ARRIVING st
    /\ Index.timer_pending st' = Index.timer_pending st
    /\ caches_grow st st'
    /\ cached_only_resolved getPairTokenSymbols st st'
    /\ match r with
       | Done amounts =>
           exists log pairToken decoded,
             Index.logs st !! i = Some log
             /\ decode_amounts (Index.raw log) previous = Done amounts
             /\ (resolve_pair (Index.address (Index.raw log)) st).1
                = Done pairToken
             /\ Index.decode_legs pairToken amounts.1 amounts.2
                = Done decoded
             /\ Index.logs st'
                = <[i := {| Index.raw := Index.raw log;
                            Index.legs := Some decoded |}]> (Index.logs st)
       | _ => Index.logs st' = Index.logs st
       end.
Proof.
  rewrite decode_log_unfold.
  assert (caches_grow st st) as Hrefl by done.
  assert (cached_only_resolved getPairTokenSymbols st st) as Hrefl2
    by (intros pool ?; by left).
  destruct (Index.logs st !! i) as [log|] eqn:Hlog.
  2:{ eexists _, _. by split_and!; [reflexivity|..]. }
  destruct (decode_amounts (Index.raw log) previous) as [amounts|e|] eqn:Ham.
  2,3: eexists _, _; by split_and!; [reflexivity|..].
  destruct (resolve_pair_spec (Index.address (Index.raw log)) st)
    as (r & st1 & Hpair & Hlogs & HP & HA & HT & Htok & Hcache).
  rewrite Hpair.
  assert (caches_grow st st1 /\ cached_only_resolved getPairTokenSymbols st st1)
    as [Hgrow Honly].
  { destruct r as [pairToken|e|].
    - destruct Hcache as [[_ ->]|(Hnone & Hsome & Heq)]; [done|].
      split; [split; [done|]|].
      + rewrite Heq. by apply insert_subseteq.
      + intros pool. rewrite Heq.
        destruct (decide (pool = Index.address (Index.raw log))) as [->|Hne].
        * by right.
        * rewrite lookup_insert_ne by done. by left.
    - destruct Hcache as [_ Heq]. split; [by split; [|rewrite Heq]|].
      intros pool. rewrite Heq. by left.
    - destruct Hcache as [_ Heq]. split; [by split; [|rewrite Heq]|].
      intros pool. rewrite Heq. by left. }
  destruct r as [pairToken|e|].
  2,3: eexists _, _; by split_and!; [reflexivity|..].
  destruct (Index.decode_legs pairToken amounts.1 amounts.2)
    as [decoded|e|] eqn:Hlegs.
  2,3: eexists _, _; by split_and!; [reflexivity|..].
  eexists _, _. split_and!; [reflexivity|done..|].
  exists log, pairToken, decoded. split_and!; try done.
  - by rewrite Hpair.
  - simpl. by rewrite Hlogs.
Qed.

Lemma logs_progress_refl st : logs_progress st st.
Proof. split; [done|]. intros i lg Hi. by exists lg. Qed.

Lemma logs_progress_trans st1 st2 st3 :
  logs_progress st1 st2 -> logs_progress st2 st3 -> logs_progress st1 st3.
Proof.
  intros [Hlen1 H1] [Hlen2 H2]. split; [congruence|].
  intros i lg Hi. destruct (H1 i lg Hi) as (lg' & Hi' & Hraw & Hlegs).
  destruct (H2 i lg' Hi') as (lg'' & Hi'' & Hraw' & Hlegs').
  exists lg''. split_and!; [done|congruence|auto].
Qed.

Lemma logs_progress_insert st st' i log decoded :
  Index.logs st !! i = Some log ->
  Index.logs st'
  = <[i := {| Index.raw := Index.raw log; Index.legs := Some decoded |}]>
      (Index.logs st) ->
  logs_progress st st'.
Proof.
  intros Hi Heq. split; [by rewrite Heq, length_insert|].
  intros j lg Hj. rewrite Heq.
  destruct (decide (j = i)) as [->|Hne].
  - rewrite list_lookup_insert_eq by (by eapply lookup_lt_Some).
    eexists. split_and!; [done| |by eexists]. simpl. congruence.
  - rewrite list_lookup_insert_ne by done. by exists lg.
Qed.

Lemma decode_log_progress i previous st :
  logs_progress st (decode_log i previous st).2.
Proof.
  destruct (decode_log_spec i previous st)
    as (r & st' & -> & _ & _ & _ & _ & _ & Hr). simpl.
  destruct r as [amounts|e|].
  - destruct Hr as (log & pairToken & decoded & Hi & _ & _ & _ & Heq).
    by eapply logs_progress_insert.
  - split; [by rewrite Hr|]. intros i' lg Hi'. rewrite Hr. by exists lg.
  - split; [by rewrite Hr|]. intros i' lg Hi'. rewrite Hr. by exists lg.
Qed.

(** How decoding the logs at [indices] ends and what it leaves. *)
Lemma decode_logs_spec indices :
  forall previous st,
  exists r st',
    decode_logs indices previous st = (r, st')
    /\ Index.PARSING st' = Index.PARSING st
    /\ Index.ARRIVING st' = Index.ARRIVING st
    /\ Index.timer_pending st' = Index.timer_pending st
    /\ caches_grow st st'
    /\ cached_only_resolved getPairTokenSymbols st st'
    /\ logs_progress st st'
    /\ (r = Done tt ->
        forall i, i ∈ indices ->
          exists lg, Index.logs st' !! i = Some lg
                     /\ is_Some (Index.legs lg)).
Proof.
  induction indices as [|i indices IH]; intros previous st.
  - exists (Done tt), st. split_and!; try done.
    + intros pool ?. by left.
    + apply logs_progress_refl.
    + intros _ i Hi. by apply elem_of_nil in Hi.
  - simpl.
    pose proof (decode_log_progress i previous st) as Hprog.
    destruct (decode_log_spec i previous st)
      as (r & st1 & Hrun & HP & HA & HT & Hgrow & Honly & Hr).
    rewrite Hrun in Hprog. simpl in Hprog.
    destruct r as [amounts|e|].
    2,3: destruct (cbind_aborted _ (fun amounts => decode_logs indices amounts)
                     _ _ _ Hrun I) as (r' & -> & Hr');
         exists r', st1; split_and!; try done; by intros ->.
    rewrite (cbind_Done _ _ _ _ _ Hrun).
    destruct (IH amounts st1)
      as (r & st' & -> & HP' & HA' & HT' & Hgrow' & Honly' & Hprog' & Hall).
    exists r, st'. split_and!; try congruence.
    + destruct Hgrow as [? ?], Hgrow' as [? ?]. split; by etrans.
    + intros pool Hpool. destruct (Honly' pool Hpool) as [Hp|Hp]; [|by right].
      by apply Honly.
    + by eapply logs_progress_trans.
    + intros -> i' [->|Hi']%elem_of_cons; [|by apply Hall].
      destruct Hr as (log & pairToken & decoded & Hi & _ & _ & _ & Heq).
      destruct Hprog' as [_ Hkeep].
      destruct (Hkeep i {| Index.raw := Index.raw log;
                           Index.legs := Some decoded |})
        as (lg' & Hlg' & _ & Hlegs).
      { rewrite Heq. apply list_lookup_insert_eq. by eapply lookup_lt_Some. }
      exists lg'. split; [done|]. apply Hlegs. by eexists.
Qed.

(** *** The cycle *)

Lemma parseSwapEvents_unfold st :
  parseSwapEvents st
  = let st1 := Index.set_ARRIVING false (Index.set_PARSING true st) in
    match getEthereumUSD with
    | Done ETH_LATEST_PRICE =>
        match decode_logs (seq 0 (length (Index.logs st1))) (None, None) st1
        with
        | (Done _, st2) =>
            match fillUSDAmounts (Index.logs st2) ETH_LATEST_PRICE with
            | Done enriched =>
                (Done tt, Index.set_PARSING false (Index.set_logs enriched st2))
            | Throw e => (Throw e, st2)
            | OutOfFuel => (OutOfFuel, st2)
            end
        | (Throw e, st2) => (Throw e, st2)
        | (OutOfFuel, st2) => (OutOfFuel, st2)
        end
    | Throw e => (Throw e, st1)
    | OutOfFuel => (OutOfFuel, st1)
    end.
Proof.
  unfold Index.parseSwapEvents, Index.cbind, Index.get, Index.await,
    Index.modify, Index.cret.
  cbv zeta.
  destruct getEthereumUSD as [ETH|e|]; [|reflexivity..].
  destruct (decode_logs _ _ _) as [[[]|e|] st2]; [|reflexivity..].
  destruct (fillUSDAmounts _ _); reflexivity.
Qed.

Lemma parseSwapEvents_caches st : caches_grow st (parseSwapEvents st).2.
Proof.
  rewrite parseSwapEvents_unfold. cbv zeta.
  set (st1 := Index.set_ARRIVING false (Index.set_PARSING true st)).
  destruct getEthereumUSD as [ETH|e|]; [|done..].
  destruct (decode_logs_spec (seq 0 (length (Index.logs st1))) (None, None) st1)
    as (r & st2 & -> & _ & _ & _ & Hgrow & _).
  destruct r as [[]|e|]; [|done..].
  destruct (fillUSDAmounts _ _); done.
Qed.

(** X13.  The two caches never lose or change an entry, whatever is
    delivered and however the cycles end. *)
Theorem caches_only_grow ds st : caches_grow st (run ds st).
Proof.
  revert st. induction ds as [|d ds IH]; intros st; [done|].
  unfold Index.run in *. simpl.
  assert (caches_grow st (deliver d st)) as [Ht Hp].
  { destruct d as [log|]; simpl.
    - unfold Index.on_log.
      destruct (Index.PARSING st); [done|]. by destruct (Index.ARRIVING st).
    - destruct (Index.timer_pending st); [|done].
      apply (parseSwapEvents_caches (Index.set_timer_pending false st)). }
  destruct (IH (deliver d st)) as [Ht' Hp']. split; by etrans.
Qed.

(** X12.  A cycle that runs to its end has decoded every log of the window:
    [fillUSDAmounts] receives one event per log, in arrival order, each
    with its two legs, and the aggregator is idle again. *)
Theorem completed_cycle_decodes_every_log st :
  (parseSwapEvents st).1 = Done tt ->
  exists ETH_LATEST_PRICE decoded_logs,
    getEthereumUSD = Done ETH_LATEST_PRICE
    /\ Forall2 (fun lg lg' => Index.raw lg' = Index.raw lg
                              /\ is_Some (Index.legs lg'))
         (Index.logs st) decoded_logs
    /\ fillUSDAmounts decoded_logs ETH_LATEST_PRICE
       = Done (Index.logs (parseSwapEvents st).2)
    /\ Index.PARSING (parseSwapEvents st).2 = false
    /\ Index.ARRIVING (parseSwapEvents st).2 = false.
Proof.
  rewrite parseSwapEvents_unfold. cbv zeta.
  set (st1 := Index.set_ARRIVING false (Index.set_PARSING true st)).
  destruct getEthereumUSD as [ETH|e|]; [|done..].
  destruct (decode_logs_spec (seq 0 (length (Index.logs st1))) (None, None) st1)
    as (r & st2 & -> & _ & HA & _ & _ & _ & [Hlen Hkeep] & Hall).
  destruct r as [[]|e|]; [|done..].
  destruct (fillUSDAmounts (Index.logs st2) ETH) as [enriched|e|] eqn:Hfill;
    [|done..].
  intros _. exists ETH, (Index.logs st2). simpl.
  split_and!; [done| |done|done|by rewrite HA].
  apply Forall2_same_length_lookup. split; [by rewrite Hlen|].
  intros i lg lg' Hi Hi'.
  destruct (Hkeep i lg Hi) as (lg2 & Hlg2 & Hraw & _).
  assert (lg2 = lg') as -> by congruence.
  split; [done|].
  destruct (Hall eq_refl i) as (lg3 & Hlg3 & Hlegs).
  { apply elem_of_seq. split; [lia|]. simpl.
    by apply lookup_lt_Some in Hi. }
  congruence.
Qed.

(** *** The arrival handler *)

Lemma arrivals_append st ls :
  Index.PARSING st = false -> Index.ARRIVING st = true ->
  Index.timer_pending st = true ->
  run (Index.Arrival <$> ls) st
  = Index.set_logs (Index.logs st ++ (arrived <$> ls)) st.
Proof.
  revert st. induction ls as [|log ls IH]; intros st HP HA HT.
  - unfold Index.run. simpl. rewrite app_nil_r. by destruct st.
  - unfold Index.run in *. rewrite fmap_cons. cbn [fold_left].
    change (deliver (Index.Arrival log) st) with (Index.on_log log st).
    assert (Index.on_log log st
            = Index.set_logs (Index.logs st ++ [arrived log]) st) as ->.
    { unfold Index.on_log. rewrite HP, HA.
      unfold Index.set_logs, Index.set_timer_pending. simpl.
      by rewrite HT. }
    rewrite IH; [|done..]. simpl. by rewrite <- app_assoc.
Qed.

(** X11.  The logs of a window are kept in arrival order: after a first log
    and any number of later ones (while no cycle runs) [logs] holds the
    logs already there if a window was open, none otherwise, followed by
    the new logs in the order they arrived; the timer is scheduled; the
    caches are untouched. *)
Theorem window_keeps_arrival_order st log ls :
  Index.PARSING st = false ->
  run (Index.Arrival <$> log :: ls) st
  = {| Index.logs := (if Index.ARRIVING st then Index.logs st else [])
                     ++ (arrived <$> log :: ls);
       Index.pairTokens := Index.pairTokens st;
       Index.tokens := Index.tokens st;
       Index.PARSING := false;
       Index.ARRIVING := true;
       Index.timer_pending := true |}.
Proof.
  intros HP.
  change (run (Index.Arrival <$> log :: ls) st)
    with (run (Index.Arrival <$> ls) (Index.on_log log st)).
  assert (Index.on_log log st
          = {| Index.logs := (if Index.ARRIVING st then Index.logs st else [])
                             ++ [arrived log];
               Index.pairTokens := Index.pairTokens st;
               Index.tokens := Index.tokens st;
               Index.PARSING := false;
               Index.ARRIVING := true;
               Index.timer_pending := true |}) as ->.
  { unfold Index.on_log. rewrite HP.
    destruct (Index.ARRIVING st) eqn:HA; simpl;
      unfold Index.set_logs, Index.set_timer_pending, Index.set_ARRIVING;
      simpl; by rewrite ?HP, ?HA. }
  rewrite arrivals_append by done.
  unfold Index.set_logs. simpl. by rewrite <- app_assoc.
Qed.

(** *** The pair cache *)

(** X14.  Once a pool is resolved it is answered from the cache: a second
    lookup returns the same pair and leaves the state alone, whatever the
    chain and the metadata service answer by then. *)
Theorem pair_cache_round_trip pool st pairToken st' :
  resolve_pair pool st = (Done pairToken, st') ->
  Index.pairTokens st' !! pool = Some pairToken
  /\ forall getPairTokenSymbols' getTokenMetadata',
       Index.resolve_pair getPairTokenSymbols' getTokenMetadata' pool st'
       = (Done pairToken, st').
Proof.
  intros Hrun.
  destruct (resolve_pair_spec pool st) as (r & st2 & Hrun2 & _ & _ & _ & _ & _ & Hr).
  rewrite Hrun in Hrun2. injection Hrun2 as <- <-.
  assert (Index.pairTokens st' !! pool = Some pairToken) as Hcached.
  { destruct Hr as [[? ->]|(_ & _ & ->)]; [done|]. by rewrite lookup_insert_eq. }
  split; [done|]. intros gps' gtm'.
  unfold Index.resolve_pair, Index.cbind, Index.get, Index.cret.
  by rewrite Hcached.
Qed.

(** *** A pool whose token addresses cannot be read *)

Lemma decode_logs_unresolved indices :
  forall previous st i lg,
    i ∈ indices -> Index.logs st !! i = Some lg ->
    Index.pairTokens st !! Index.address (Index.raw lg) = None ->
    getPairTokenSymbols (Index.address (Index.raw lg)) = None ->
    aborted (decode_logs indices previous st).1
    /\ Index.pairTokens (decode_logs indices previous st).2
         !! Index.address (Index.raw lg) = None.
Proof.
  induction indices as [|j indices IH]; intros previous st i lg Hin Hi Hpool Hgps;
    [by apply elem_of_nil in Hin|].
  simpl.
  pose proof (decode_log_progress j previous st) as [_ Hkeep].
  destruct (decode_log_spec j previous st)
    as (r & st1 & Hrun & _ & _ & _ & _ & Honly & Hr).
  rewrite Hrun in Hkeep. simpl in Hkeep.
  assert (Index.pairTokens st1 !! Index.address (Index.raw lg) = None)
    as Hpool1.
  { destruct (Index.pairTokens st1 !! Index.address (Index.raw lg)) eqn:Hp;
      [|done].
    destruct (Honly (Index.address (Index.raw lg))) as [[? Hs]|[? Hs]];
      [by eexists|congruence..]. }
  destruct r as [amounts|e|].
  2,3: destruct (cbind_aborted _ (fun amounts => decode_logs indices amounts)
                   _ _ _ Hrun I) as (r' & -> & Hr'); by split.
  rewrite (cbind_Done _ _ _ _ _ Hrun).
  destruct Hr as (log & pairToken & decoded & Hj & _ & Hpair & _ & _).
  assert (j <> i) as Hne.
  { intros ->. assert (log = lg) as -> by congruence.
    destruct (resolve_pair_spec (Index.address (Index.raw lg)) st)
      as (r & st2 & Hrun2 & _ & _ & _ & _ & _ & Hr2).
    rewrite Hrun2 in Hpair. simpl in Hpair. subst r.
    destruct Hr2 as [[? _]|(_ & [? ?] & _)]; congruence. }
  apply elem_of_cons in Hin as [->|Hin]; [done|].
  destruct (Hkeep i lg Hi) as (lg' & Hi' & Hraw & _).
  rewrite <- Hraw. apply (IH amounts st1 i lg'); [done..| |]; by rewrite Hraw.
Qed.

Lemma unresolved_pool_aborts st i lg :
  Index.logs st !! i = Some lg ->
  Index.pairTokens st !! Index.address (Index.raw lg) = None ->
  getPairTokenSymbols (Index.address (Index.raw lg)) = None ->
  aborted (parseSwapEvents st).1
  /\ Index.pairTokens (parseSwapEvents st).2
       !! Index.address (Index.raw lg) = None
  /\ forall fillUSDAmounts',
       Index.parseSwapEvents getEthereumUSD parseLog_V3 parseLog_V2
         getPairTokenSymbols getTokenMetadata fillUSDAmounts' st
       = parseSwapEvents st.
Proof.
  intros Hi Hpool Hgps.
  assert (forall fill,
            Index.parseSwapEvents getEthereumUSD parseLog_V3 parseLog_V2
              getPairTokenSymbols getTokenMetadata fill st
            = (let st1 := Index.set_ARRIVING false (Index.set_PARSING true st) in
               match getEthereumUSD with
               | Done _ =>
                   decode_logs (seq 0 (length (Index.logs st1))) (None, None) st1
               | Throw e => (Throw e, st1)
               | OutOfFuel => (OutOfFuel, st1)
               end)
            /\ aborted (Index.parseSwapEvents getEthereumUSD parseLog_V3
                          parseLog_V2 getPairTokenSymbols getTokenMetadata
                          fill st).1) as Hsame.
  { intros fill.
    unfold Index.parseSwapEvents, Index.cbind, Index.get, Index.await,
      Index.modify, Index.cret. cbv zeta.
    set (st1 := Index.set_ARRIVING false (Index.set_PARSING true st)).
    destruct getEthereumUSD as [ETH|e|]; [|done..].
    destruct (decode_logs_unresolved (seq 0 (length (Index.logs st1)))
                (None, None) st1 i lg) as [Hab _]; [|done..|].
    { apply elem_of_seq. split; [lia|]. simpl.
      by apply lookup_lt_Some in Hi. }
    destruct (decode_logs _ _ st1) as [[[]|e|] st2]; done. }
  destruct (Hsame fillUSDAmounts) as [Heq Hab].
  split_and!; [done| |].
  - rewrite Heq. cbv zeta.
    set (st1 := Index.set_ARRIVING false (Index.set_PARSING true st)).
    destruct getEthereumUSD as [ETH|e|]; [|done..].
    by apply (decode_logs_unresolved _ _ st1 i lg);
      [apply elem_of_seq; split; [lia|]; simpl;
       by apply lookup_lt_Some in Hi|..].
  - intros fill'. destruct (Hsame fill') as [-> _]. by rewrite Heq.
Qed.

End CycleProperties.

(** ** A pool whose contract calls fail *)

Section UnreadablePool.

Context {D : Type} `{DecimalOps D}.
Context (getEthereumUSD : Outcome D).
Context (parseLog_V3 : Index.RawLog -> Outcome (option (Z * Z))).
Context (parseLog_V2 : Index.RawLog -> Outcome (option (Z * Z * Z * Z))).
Context (token0_call token1_call : string -> Outcome string).
Context (getTokenMetadata : string -> Outcome (string * nat)).

#[local] Abbreviation deliver_with fillUSDAmounts :=
  (Index.deliver getEthereumUSD parseLog_V3 parseLog_V2
     (Pool.getPairTokenSymbols token0_call token1_call)
     getTokenMetadata fillUSDAmounts).
#[local] Abbreviation run_with fillUSDAmounts :=
  (Index.run getEthereumUSD parseLog_V3 parseLog_V2
     (Pool.getPairTokenSymbols token0_call token1_call)
     getTokenMetadata fillUSDAmounts).

(** X15.  One pool whose [token0()] or [token1()] call fails aborts the whole
    window: [getPairTokenSymbols] swallows the error and returns [null],
    the cycle then throws, [fillUSDAmounts] is never called (no swap of
    the window is priced or written), the pool is not cached, and the
    aggregator stays locked. *)
Theorem unreadable_pool_aborts_the_window
    (fillUSDAmounts
      : list (Index.LogObject D) -> D -> Outcome (list (Index.LogObject D)))
    (st : Index.State D) i lg :
  Index.timer_pending st = true ->
  Index.logs st !! i = Some lg ->
  Index.pairTokens st !! Index.address (Index.raw lg) = None ->
  aborted (token0_call (Index.address (Index.raw lg)))
  \/ aborted (token1_call (Index.address (Index.raw lg))) ->
  Index.PARSING (deliver_with fillUSDAmounts Index.TimerFired st) = true
  /\ Index.pairTokens (deliver_with fillUSDAmounts Index.TimerFired st)
       !! Index.address (Index.raw lg) = None
  /\ (forall fillUSDAmounts',
        deliver_with fillUSDAmounts' Index.TimerFired st
        = deliver_with fillUSDAmounts Index.TimerFired st)
  /\ forall ds,
       run_with fillUSDAmounts ds
         (deliver_with fillUSDAmounts Index.TimerFired st)
       = deliver_with fillUSDAmounts Index.TimerFired st.
Proof.
  intros HT Hi Hpool Hcalls.
  assert (Pool.getPairTokenSymbols token0_call token1_call
            (Index.address (Index.raw lg)) = None) as Hgps.
  { unfold Pool.getPairTokenSymbols.
    destruct (token0_call _) as [t0|e|]; [|done..].
    destruct (token1_call _) as [t1|e|]; [|done..].
    by destruct Hcalls. }
  destruct (unresolved_pool_aborts getEthereumUSD parseLog_V3 parseLog_V2
              (Pool.getPairTokenSymbols token0_call token1_call)
              getTokenMetadata fillUSDAmounts
              (Index.set_timer_pending false st) i lg Hi Hpool Hgps)
    as (Hab & Hnone & Hsame).
  simpl. rewrite HT.
  destruct (Index.parseSwapEvents _ _ _ _ _ fillUSDAmounts
              (Index.set_timer_pending false st)) as [r st'] eqn:Hcycle.
  simpl in *.
  destruct (parseSwapEvents_flag _ _ _ _ _ _ _ _ _ Hcycle) as [HT' HP'].
  assert (Index.PARSING st' = true) as HP by (by destruct r).
  split_and!; [done|done| |].
  - intros fill'. by rewrite Hsame.
  - intros ds. by apply locked_forever.
Qed.

End UnreadablePool.

(** ** The decoder on other inputs *)

Section DecoderProperties.

Context {D : Type} `{DecimalLaws D}.
Context (parseLog_V3 : Index.RawLog -> Outcome (option (Z * Z))).
Context (parseLog_V2 : Index.RawLog -> Outcome (option (Z * Z * Z * Z))).

(** An unsigned 256-bit value and its opposite fit in 512 bits. *)
Lemma uint256_fits (v : Z) :
  (0 <= v < 2 ^ 256)%Z ->
  Index.fits_fixed512 v = true /\ Index.fits_fixed512 (- v) = true.
Proof.
  intros [Hlo Hhi].
  assert (2 ^ 256 < 2 ^ 511)%Z as Hpow by reflexivity.
  assert (0 < 2 ^ 511)%Z as Hpos by reflexivity.
  unfold Index.fits_fixed512.
  split; apply andb_true_intro; split;
    (apply Z.leb_le || apply Z.ltb_lt); lia.
Qed.

(** X16.  For tokens [formatUnits] accepts (at most 80 decimals, deltas
    that fit in 512 bits): whatever the signs of the two deltas, the two
    legs are produced and the amount of leg 1 is never negative; the
    amount of leg 0 is negative exactly when both deltas are negative. *)
Theorem second_leg_is_never_negative (pairToken : Index.PairToken)
    (amount0 amount1 : Z) :
  Index.decimal (Index.token0 pairToken) <= 80 ->
  Index.decimal (Index.token1 pairToken) <= 80 ->
  Index.fits_fixed512 amount0 = true ->
  Index.fits_fixed512 amount1 = true ->
  exists leg0 leg1,
    Index.decode_legs pairToken (Some amount0) (Some amount1)
    = Done (leg0, leg1)
    /\ isPositive (Index.leg_amount leg1) = true
    /\ (isPositive (Index.leg_amount leg0) = false
        <-> (amount0 < 0 /\ amount1 < 0)%Z).
Proof.
  intros Hd0 Hd1 Hfit0 Hfit1.
  unfold Index.decode_legs, Index.normalise_direction.
  rewrite !scaled_accepts by done.
  rewrite !bind_Done, isPositive_ofUnits.
  destruct (Z.leb_spec 0 amount0) as [Hpos|Hneg].
  - eexists _, _. split; [reflexivity|]. simpl.
    rewrite abs_ofUnits, !isPositive_ofUnits.
    split; [apply Z.leb_le; lia|].
    split; [intros ?%Z.leb_gt; lia|lia].
  - eexists _, _. split; [reflexivity|]. simpl.
    rewrite abs_ofUnits, !isPositive_ofUnits.
    split; [apply Z.leb_le; lia|].
    split; [intros ?%Z.leb_gt; lia|intros [_ ?]; by apply Z.leb_gt].
Qed.

(** X17.  A V2 log of a pool whose tokens have at most 80 decimals (the
    four amounts are [uint256] values) is read as paid in, paid out: when
    [amount0In] is not zero leg 0 is token 0 with [amount0In] and leg 1 is
    token 1 with [amount1Out]; when it is zero and [amount0Out] is not,
    leg 0 is token 1 with [amount1In] and leg 1 is token 0 with
    [amount0Out]; when both are zero leg 0 is token 0 with amount zero. *)
Theorem V2_log_is_paid_in_then_paid_out (log : Index.RawLog)
    (previous : option Z * option Z) (pairToken : Index.PairToken)
    (amount0In amount1In amount0Out amount1Out : Z) :
  head (Index.topics log) = Some Index.UNISWAP_V2_SWAP_EVENT ->
  parseLog_V2 log = Done (Some (amount0In, amount1In, amount0Out, amount1Out)) ->
  Index.decimal (Index.token0 pairToken) <= 80 ->
  Index.decimal (Index.token1 pairToken) <= 80 ->
  (0 <= amount0In < 2 ^ 256)%Z -> (0 <= amount1In < 2 ^ 256)%Z ->
  (0 <= amount0Out < 2 ^ 256)%Z -> (0 <= amount1Out < 2 ^ 256)%Z ->
  exists amounts,
    Index.decode_amounts parseLog_V3 parseLog_V2 log previous = Done amounts
    /\ exists leg0 leg1,
    Index.decode_legs pairToken amounts.1 amounts.2 = Done (leg0, leg1)
    /\ (leg0, leg1)
       = let t0 := Index.token0 pairToken in
         let t1 := Index.token1 pairToken in
         let leg t v := {| Index.leg_symbol := Index.symbol t;
                           Index.leg_amount := ofUnits v (Index.decimal t) |} in
         if (amount0In =? 0)%Z then
           if (amount0Out =? 0)%Z then (leg t0 0%Z, leg t1 amount1In)
           else (leg t1 amount1In, leg t0 amount0Out)
         else (leg t0 amount0In, leg t1 amount1Out).
Proof.
  intros Htopic Hparse Hd0 Hd1 H0in H1in H0out H1out.
  destruct (uint256_fits _ H0in) as [F0in _].
  destruct (uint256_fits _ H1in) as [F1in _].
  destruct (uint256_fits _ H0out) as [_ F0out].
  destruct (uint256_fits _ H1out) as [F1out _].
  assert (Index.decode_amounts parseLog_V3 parseLog_V2 log previous
          = Done (if (amount0In =? 0)%Z
                  then (Some (- amount0Out)%Z, Some amount1In)
                  else (Some amount0In, Some amount1Out))) as Ham.
  { unfold Index.decode_amounts. rewrite Htopic.
    change (String.eqb Index.UNISWAP_V2_SWAP_EVENT Index.UNISWAP_V3_SWAP_EVENT)
      with false.
    change (String.eqb Index.UNISWAP_V2_SWAP_EVENT Index.UNISWAP_V2_SWAP_EVENT)
      with true.
    cbv iota. rewrite Hparse, bind_Done. by destruct (amount0In =? 0)%Z. }
  eexists. split; [exact Ham|]. clear Ham.
  unfold Index.decode_legs, Index.normalise_direction.
  destruct (Z.eqb_spec amount0In 0) as [->|Hin]; cbn [fst snd];
    rewrite !scaled_accepts by done;
    rewrite !bind_Done, isPositive_ofUnits, !abs_ofUnits.
  - destruct (Z.eqb_spec amount0Out 0) as [->|Hout].
    + eexists _, _. split; [reflexivity|].
      simpl. by rewrite Z.abs_eq by lia.
    + destruct (Z.leb_spec 0 (- amount0Out)) as [?|_]; [lia|].
      eexists _, _. split; [reflexivity|].
      by rewrite Z.abs_opp, Z.abs_eq by lia.
  - destruct (Z.leb_spec 0 amount0In) as [_|?]; [|lia].
    eexists _, _. split; [reflexivity|].
    by rewrite Z.abs_eq by lia.
Qed.

End DecoderProperties.

(** ** The signature middleware *)

Section MiddlewareProperties.

Context (hmac_sha256_hex : string -> string -> string).
Context (Buffer_toString : list Byte.byte -> string -> string).

#[local] Abbreviation addAlchemyContextToRequest :=
  (Webhook.addAlchemyContextToRequest Buffer_toString).
#[local] Abbreviation validateAlchemySignature :=
  (Webhook.validateAlchemySignature hmac_sha256_hex).

(** X18.  A request that went through [addAlchemyContextToRequest] reaches
    [next()] exactly when its [x-alchemy-signature] header is one string
    equal to the hex HMAC of the raw body under the signing key;
    otherwise (a wrong, a missing or a repeated header) it is answered
    403 and an error is thrown, and [next()] is not called.  A request
    that never received the context is not answered at all: reading it
    throws a [TypeError]. *)
Theorem only_signed_requests_pass (signingKey : string)
    (req : Webhook.Request) (buf : list Byte.byte)
    (encoding : option string) (res : Webhook.Response) :
  let body := Buffer_toString buf (Webhook.encoding_or_utf8 encoding) in
  let digest := hmac_sha256_hex signingKey body in
  let handled :=
    validateAlchemySignature signingKey
      (addAlchemyContextToRequest req buf encoding) res in
  (Webhook.headers req !! "x-alchemy-signature"
   = Some (Webhook.HeaderString digest) ->
   handled = {| Webhook.response := res; Webhook.next_called := true;
                Webhook.thrown := None |})
  /\ (Webhook.headers req !! "x-alchemy-signature"
      <> Some (Webhook.HeaderString digest) ->
      handled
      = {| Webhook.response :=
             {| Webhook.statusCode := Some 403;
                Webhook.sent := Some Webhook.errMessage |};
           Webhook.next_called := false;
           Webhook.thrown := Some (Webhook.ThrownError Webhook.errMessage) |})
  /\ (Webhook.alchemy req = None ->
      validateAlchemySignature signingKey req res
      = {| Webhook.response := res; Webhook.next_called := false;
           Webhook.thrown :=
             Some (Webhook.ThrownJs
                     (TypeError "reading 'rawBody' of undefined")) |}).
Proof.
  cbv zeta.
  unfold Webhook.validateAlchemySignature,
    Webhook.isValidSignatureForAlchemyRequest,
    Webhook.addAlchemyContextToRequest,
    Webhook.isValidSignatureForStringBody. simpl.
  split_and!.
  - intros ->. by rewrite String.eqb_refl.
  - intros Hne.
    destruct (Webhook.headers req !! "x-alchemy-signature") as [[s|l]|];
      [|done..].
    destruct (String.eqb_spec s
                (hmac_sha256_hex signingKey
                   (Buffer_toString buf (Webhook.encoding_or_utf8 encoding))))
      as [->|_]; done.
  - by intros ->.
Qed.

End MiddlewareProperties.

(** ** The further properties on concrete inputs *)

Import Cases.

Lemma has_amounts_usdc_xtk_foo_bar : Forall has_amounts [usdc_xtk; foo_bar].
Proof. repeat (apply Forall_cons_2; [split; by eexists|]). apply Forall_nil_2. Qed.

Lemma has_amounts_foo_bar_bar_foo : Forall has_amounts [foo_bar; bar_foo].
Proof. repeat (apply Forall_cons_2; [split; by eexists|]). apply Forall_nil_2. Qed.

Lemma priced_symbols_are_closed_under_swaps_witness :
  Forall has_amounts [usdc_xtk; foo_bar]
  /\ exists evs st,
      price_batch oracle_foo_bar [usdc_xtk; foo_bar] ETH2USD = Done (evs, st)
      /\ (forall a b, connected [usdc_xtk; foo_bar] a b ->
            is_Some (symbol2USD st !! a) -> is_Some (symbol2USD st !! b))
      /\ (forall se, se ∈ [usdc_xtk; foo_bar] ->
            truthy (symbol (token0 se)) = true ->
            truthy (symbol (token1 se)) = true ->
            is_Some (symbol2USD st !! symbol (token0 se))
            <-> is_Some (symbol2USD st !! symbol (token1 se))).
Proof.
  split; [exact has_amounts_usdc_xtk_foo_bar|].
  exact (priced_symbols_are_closed_under_swaps oracle_foo_bar
           [usdc_xtk; foo_bar] ETH2USD has_amounts_usdc_xtk_foo_bar).
Defined.

Lemma every_price_has_a_source_witness :
  Forall has_amounts [usdc_xtk; foo_bar]
  /\ exists evs st,
      price_batch oracle_foo_bar [usdc_xtk; foo_bar] ETH2USD = Done (evs, st)
      /\ forall b q, symbol2USD st !! b = Some q ->
           exists T p,
             price_source oracle_foo_bar [usdc_xtk; foo_bar] ETH2USD T p
             /\ path_price [usdc_xtk; foo_bar] T p b q.
Proof.
  split; [exact has_amounts_usdc_xtk_foo_bar|].
  exact (every_price_has_a_source oracle_foo_bar
           [usdc_xtk; foo_bar] ETH2USD has_amounts_usdc_xtk_foo_bar).
Defined.

Lemma oracle_is_not_asked_inside_anchor_components_witness :
  Forall has_amounts [usdc_xtk; foo_bar]
  /\ exists evs st asked,
      price_batch oracle_foo_bar [usdc_xtk; foo_bar] ETH2USD = Done (evs, st)
      /\ asked `sublist_of` [usdc_xtk; foo_bar]
      /\ oracle_calls st = (fun se => id (token0 se)) <$> asked
      /\ forall se, se ∈ asked ->
           off_anchors [usdc_xtk; foo_bar] (symbol (token0 se)).
Proof.
  split; [exact has_amounts_usdc_xtk_foo_bar|].
  exact (oracle_is_not_asked_inside_anchor_components oracle_foo_bar
           [usdc_xtk; foo_bar] ETH2USD has_amounts_usdc_xtk_foo_bar).
Defined.

(** The batch above asks the oracle once, for [FOO]. *)
Example oracle_asked_for_FOO_only :
  oracle_calls_of (price_batch oracle_foo_bar [usdc_xtk; foo_bar] ETH2USD)
  = Some ["0xf00"].
Proof. by vm_compute. Qed.

Lemma one_oracle_request_per_component_witness :
  Forall has_amounts [foo_bar; bar_foo]
  /\ (forall se, se ∈ [foo_bar; bar_foo] ->
        isZero (oracle_price oracle_foo_bar (id (token0 se))) = false)
  /\ exists evs st asked,
      price_batch oracle_foo_bar [foo_bar; bar_foo] ETH2USD = Done (evs, st)
      /\ asked `sublist_of` [foo_bar; bar_foo]
      /\ oracle_calls st = (fun se => id (token0 se)) <$> asked
      /\ forall i j se_i se_j,
           asked !! i = Some se_i -> asked !! j = Some se_j -> i <> j ->
           ~ connected [foo_bar; bar_foo]
               (symbol (token0 se_i)) (symbol (token0 se_j)).
Proof.
  assert (forall se, se ∈ [foo_bar; bar_foo] ->
            isZero (oracle_price oracle_foo_bar (id (token0 se))) = false)
    as Hnz.
  { intros se [->|[->|?%elem_of_nil]%elem_of_cons]%elem_of_cons;
      [reflexivity|reflexivity|done]. }
  split_and!; [exact has_amounts_foo_bar_bar_foo|exact Hnz|].
  exact (one_oracle_request_per_component oracle_foo_bar
           [foo_bar; bar_foo] ETH2USD has_amounts_foo_bar_bar_foo Hnz).
Defined.

(** Two swaps of one pool, [FOO] first then [BAR] first: one request. *)
Example one_request_for_the_FOO_BAR_pool :
  oracle_calls_of (price_batch oracle_foo_bar [foo_bar; bar_foo] ETH2USD)
  = Some ["0xf00"].
Proof. by vm_compute. Qed.

Lemma graph_edges_are_the_swaps_witness :
  Forall has_amounts [usdc_xtk; foo_bar]
  /\ exists graph,
      build_graph ∅ [usdc_xtk; foo_bar] = Done graph
      /\ forall a e,
           e ∈ adj_of graph a <->
           exists se x y,
             se ∈ [usdc_xtk; foo_bar]
             /\ truthy (symbol (token0 se)) = true
             /\ truthy (symbol (token1 se)) = true
             /\ amount (token0 se) = Some x /\ amount (token1 se) = Some y
             /\ ((a = symbol (token0 se)
                  /\ e = {| edge_symbol := symbol (token1 se);
                            ratio := dividedBy x y |})
                 \/ (a = symbol (token1 se)
                     /\ e = {| edge_symbol := symbol (token0 se);
                               ratio := dividedBy y x |})).
Proof.
  split; [exact has_amounts_usdc_xtk_foo_bar|].
  exact (graph_edges_are_the_swaps [usdc_xtk; foo_bar]
           has_amounts_usdc_xtk_foo_bar).
Defined.

(** A swap with an empty symbol adds no edge. *)
Example nameless_swap_adds_no_edge :
  build_graph (D:=DecimalJS.t) ∅ [nameless_bar] = Done ∅.
Proof. reflexivity. Qed.

Lemma cycle_graph_targets :
  targets_in cycle_graph ({["USDC"; "XTK"]} : gset string).
Proof.
  intros a e. unfold adj_of, cycle_graph.
  destruct (decide (a = "USDC")) as [->|HU].
  { rewrite lookup_insert_eq. simpl.
    intros ->%list_elem_of_singleton. simpl. set_solver. }
  rewrite lookup_insert_ne by done.
  destruct (decide (a = "XTK")) as [->|HX].
  { rewrite lookup_insert_eq. simpl.
    intros ->%list_elem_of_singleton. simpl. set_solver. }
  rewrite lookup_insert_ne by done. rewrite lookup_empty. simpl.
  by intros ?%elem_of_nil.
Qed.

Lemma traversal_terminates_witness :
  targets_in cycle_graph ({["USDC"; "XTK"]} : gset string)
  /\ (forall a, a ∈ ["USDC"] ->
        is_Some ((<["USDC" := dec 1]> ∅ : gmap string DecimalJS.t) !! a))
  /\ exists prices',
      traverse 2 cycle_graph (<["USDC" := dec 1]> ∅) ["USDC"] = Done prices'
      /\ (<["USDC" := dec 1]> ∅ : gmap string DecimalJS.t) ⊆ prices'
      /\ ((forall a,
             is_Some ((<["USDC" := dec 1]> ∅ : gmap string DecimalJS.t) !! a) ->
             a ∈ ["USDC"] \/ closed_at cycle_graph (<["USDC" := dec 1]> ∅) a) ->
          closed cycle_graph prices').
Proof.
  assert (forall a, a ∈ ["USDC"] ->
            is_Some ((<["USDC" := dec 1]> ∅ : gmap string DecimalJS.t) !! a))
    as Hstk.
  { intros a ->%list_elem_of_singleton. rewrite lookup_insert_eq. by eexists. }
  split_and!; [exact cycle_graph_targets|exact Hstk|].
  apply (traversal_terminates cycle_graph {["USDC"; "XTK"]}
           (<["USDC" := dec 1]> ∅) ["USDC"] 2 cycle_graph_targets Hstk).
  apply (bool_decide_unpack _). by vm_compute.
Defined.

(** On the cycle the traversal stops after two iterations, with [XTK]
    priced. *)
Example traversal_of_a_cycle :
  traverse 2 cycle_graph (<["USDC" := dec 1]> ∅) ["USDC"]
  = Done (<["XTK" := dec 2]> (<["USDC" := dec 1]> ∅)).
Proof. by vm_compute. Qed.

Lemma decoded_fake_usdc_foo : Forall decoded [fake_usdc_foo].
Proof.
  apply Forall_cons_2; [by repeat split; try eexists|apply Forall_nil_2].
Qed.

Lemma anchor_symbol_is_priced_by_name_witness :
  Forall decoded [fake_usdc_foo]
  /\ [fake_usdc_foo] !! 0 = Some fake_usdc_foo
  /\ symbol (token0 fake_usdc_foo) ∈ anchors
  /\ exists evs st se',
      price_batch oracle_foo_bar [fake_usdc_foo] ETH2USD = Done (evs, st)
      /\ evs !! 0 = Some se'
      /\ id (token0 fake_usdc_foo) = "0xbad"
      /\ value_in_usd (token0 se') = Some (dec 1).
Proof.
  assert (symbol (token0 fake_usdc_foo) ∈ anchors) as Hanchor
    by (apply (bool_decide_unpack _); by vm_compute).
  split_and!; [exact decoded_fake_usdc_foo|reflexivity|exact Hanchor|].
  destruct (anchor_symbol_is_priced_by_name oracle_foo_bar [fake_usdc_foo]
              ETH2USD decoded_fake_usdc_foo) as (evs & st & Hrun & Hlegs).
  destruct (Hlegs 0 fake_usdc_foo eq_refl Hanchor) as (se' & Hse' & Hv0 & _).
  exists evs, st, se'. split_and!; [done|done|reflexivity|exact Hv0].
Defined.

Lemma missing_amount_rejects_the_batch_witness :
  foo_bar_without_amount ∈ [usdc_xtk; foo_bar_without_amount]
  /\ truthy (symbol (token0 foo_bar_without_amount)) = true
  /\ truthy (symbol (token1 foo_bar_without_amount)) = true
  /\ ~ has_amounts foo_bar_without_amount
  /\ exists err,
      build_graph ∅ [usdc_xtk; foo_bar_without_amount] = Throw err
      /\ fillUSDAmounts oracle_foo_bar second_row_fails getBlock_found
           [usdc_xtk; foo_bar_without_amount] ETH2USD = Throw err.
Proof.
  assert (foo_bar_without_amount ∈ [usdc_xtk; foo_bar_without_amount]) as Hin
    by (apply elem_of_cons; right; apply elem_of_cons; by left).
  assert (~ has_amounts foo_bar_without_amount) as Hno
    by (intros [_ [? ?]]; discriminate).
  split_and!; [exact Hin|reflexivity|reflexivity|exact Hno|].
  exact (missing_amount_rejects_the_batch oracle_foo_bar second_row_fails
           getBlock_found [usdc_xtk; foo_bar_without_amount] ETH2USD
           foo_bar_without_amount Hin eq_refl eq_refl Hno).
Defined.

(** The error of the batch above. *)
Example missing_amount_error :
  fillUSDAmounts oracle_foo_bar second_row_fails getBlock_found
    [usdc_xtk; foo_bar_without_amount] ETH2USD
  = Throw (DecimalError "Invalid argument: undefined").
Proof. by vm_compute. Qed.

Lemma one_row_per_swap_witness :
  Forall has_amounts [usdc_xtk; foo_bar]
  /\ getBlock_found (blockNumber usdc_xtk) = Done timestamp
  /\ exists evs st sink,
      fillUSDAmounts oracle_foo_bar second_row_fails getBlock_found
        [usdc_xtk; foo_bar] ETH2USD = Done (Some (evs, st, sink))
      /\ price_batch oracle_foo_bar [usdc_xtk; foo_bar] ETH2USD = Done (evs, st)
      /\ length evs = length [usdc_xtk; foo_bar]
      /\ attempted sink = row_values (Some ETH2USD) timestamp <$> evs
      /\ (forall row, row ∈ attempted sink ->
            length row = 16 /\ row !! 15 = Some (PText timestamp))
      /\ length (saved sink) + length (console_error sink)
         = length [usdc_xtk; foo_bar].
Proof.
  split_and!; [exact has_amounts_usdc_xtk_foo_bar|reflexivity|].
  exact (one_row_per_swap oracle_foo_bar second_row_fails getBlock_found
           [usdc_xtk; foo_bar] ETH2USD usdc_xtk [foo_bar] timestamp
           eq_refl has_amounts_usdc_xtk_foo_bar eq_refl).
Defined.

Lemma failed_block_lookup_loses_the_batch_witness :
  Forall has_amounts [usdc_xtk; foo_bar]
  /\ getBlock_failed (blockNumber usdc_xtk)
     = Throw (ExternalError "block not found")
  /\ (exists evs st,
        price_batch oracle_foo_bar [usdc_xtk; foo_bar] ETH2USD = Done (evs, st))
  /\ fillUSDAmounts oracle_foo_bar second_row_fails getBlock_failed
       [usdc_xtk; foo_bar] ETH2USD
     = Throw (ExternalError "block not found").
Proof.
  split_and!; [exact has_amounts_usdc_xtk_foo_bar|reflexivity|..];
    apply (failed_block_lookup_loses_the_batch oracle_foo_bar second_row_fails
             getBlock_failed [usdc_xtk; foo_bar] ETH2USD usdc_xtk [foo_bar]
             (ExternalError "block not found")
             eq_refl has_amounts_usdc_xtk_foo_bar eq_refl).
Defined.

(** *** The aggregator *)

Lemma completed_cycle_decodes_every_log_witness :
  (Index.parseSwapEvents getEthereumUSD_up parseLog_V3 parseLog_V2
     getPairTokenSymbols getTokenMetadata fillUSDAmounts_ok one_log_window).1
  = Done tt
  /\ exists ETH_LATEST_PRICE decoded_logs,
      getEthereumUSD_up = Done ETH_LATEST_PRICE
      /\ Forall2 (fun lg lg' => Index.raw lg' = Index.raw lg
                                /\ is_Some (Index.legs lg'))
           (Index.logs one_log_window) decoded_logs
      /\ fillUSDAmounts_ok decoded_logs ETH_LATEST_PRICE
         = Done (Index.logs
                   (Index.parseSwapEvents getEthereumUSD_up parseLog_V3
                      parseLog_V2 getPairTokenSymbols getTokenMetadata
                      fillUSDAmounts_ok one_log_window).2)
      /\ Index.PARSING
           (Index.parseSwapEvents getEthereumUSD_up parseLog_V3 parseLog_V2
              getPairTokenSymbols getTokenMetadata fillUSDAmounts_ok
              one_log_window).2 = false
      /\ Index.ARRIVING
           (Index.parseSwapEvents getEthereumUSD_up parseLog_V3 parseLog_V2
              getPairTokenSymbols getTokenMetadata fillUSDAmounts_ok
              one_log_window).2 = false.
Proof.
  assert ((Index.parseSwapEvents getEthereumUSD_up parseLog_V3 parseLog_V2
             getPairTokenSymbols getTokenMetadata fillUSDAmounts_ok
             one_log_window).1 = Done tt) as Hdone by (by vm_compute).
  split; [exact Hdone|].
  exact (completed_cycle_decodes_every_log getEthereumUSD_up parseLog_V3
           parseLog_V2 getPairTokenSymbols getTokenMetadata fillUSDAmounts_ok
           one_log_window Hdone).
Defined.

Lemma window_keeps_arrival_order_witness :
  Index.PARSING (Index.initial (D:=DecimalJS.t)) = false
  /\ Index.run getEthereumUSD_up parseLog_V3 parseLog_V2 getPairTokenSymbols
       getTokenMetadata fillUSDAmounts_ok
       (Index.Arrival <$> [v3_log; v2_log; v3_log]) Index.initial
     = {| Index.logs := arrived <$> [v3_log; v2_log; v3_log];
          Index.pairTokens := ∅;
          Index.tokens := ∅;
          Index.PARSING := false;
          Index.ARRIVING := true;
          Index.timer_pending := true |}.
Proof.
  split; [reflexivity|].
  exact (window_keeps_arrival_order getEthereumUSD_up parseLog_V3 parseLog_V2
           getPairTokenSymbols getTokenMetadata fillUSDAmounts_ok
           Index.initial v3_log [v2_log; v3_log] eq_refl).
Defined.

Lemma pair_cache_round_trip_witness :
  let st' := (Index.resolve_pair (D:=DecimalJS.t) getPairTokenSymbols
                getTokenMetadata "0x88e6" Index.initial).2 in
  Index.resolve_pair getPairTokenSymbols getTokenMetadata "0x88e6"
    Index.initial = (Done usdc_weth_pair, st')
  /\ Index.pairTokens st' !! "0x88e6" = Some usdc_weth_pair
  /\ Index.resolve_pair (fun _ => None) (fun _ => Throw (ExternalError "down"))
       "0x88e6" st'
     = (Done usdc_weth_pair, st').
Proof.
  cbv zeta.
  assert (Index.resolve_pair (D:=DecimalJS.t) getPairTokenSymbols
            getTokenMetadata "0x88e6" Index.initial
          = (Done usdc_weth_pair,
             (Index.resolve_pair (D:=DecimalJS.t) getPairTokenSymbols
                getTokenMetadata "0x88e6" Index.initial).2)) as Hrun
    by (by vm_compute).
  split; [exact Hrun|].
  destruct (pair_cache_round_trip getPairTokenSymbols getTokenMetadata
              "0x88e6" Index.initial usdc_weth_pair _ Hrun) as [Hcached Hagain].
  split; [exact Hcached|apply Hagain].
Defined.

Lemma unreadable_pool_aborts_the_window_witness :
  Index.timer_pending one_log_window = true
  /\ Index.logs one_log_window !! 0 = Some (arrived v3_log)
  /\ Index.pairTokens one_log_window !! "0x88e6" = None
  /\ aborted (call_reverts "0x88e6")
  /\ let locked :=
       Index.deliver getEthereumUSD_up parseLog_V3 parseLog_V2
         (Pool.getPairTokenSymbols call_reverts call_answers)
         getTokenMetadata fillUSDAmounts_ok Index.TimerFired one_log_window in
     Index.PARSING locked = true
     /\ Index.pairTokens locked !! "0x88e6" = None
     /\ forall ds,
          Index.run getEthereumUSD_up parseLog_V3 parseLog_V2
            (Pool.getPairTokenSymbols call_reverts call_answers)
            getTokenMetadata fillUSDAmounts_ok ds locked
          = locked.
Proof.
  split_and!; [reflexivity|reflexivity|reflexivity|exact I|].
  cbv zeta.
  destruct (unreadable_pool_aborts_the_window getEthereumUSD_up parseLog_V3
              parseLog_V2 call_reverts call_answers getTokenMetadata
              fillUSDAmounts_ok one_log_window 0 (arrived v3_log)
              eq_refl eq_refl eq_refl (or_introl I))
    as (HP & Hnone & _ & Hlocked).
  split_and!; [exact HP|exact Hnone|exact Hlocked].
Defined.

(** *** The decoder *)

Lemma second_leg_is_never_negative_witness :
  6 <= 80 /\ 18 <= 80
  /\ Index.fits_fixed512 (-5) = true /\ Index.fits_fixed512 (-7) = true
  /\ exists leg0 leg1,
      Index.decode_legs usdc_weth_pair (Some (-5)%Z) (Some (-7)%Z)
      = Done (leg0, leg1)
      /\ isPositive (Index.leg_amount leg1) = true
      /\ (isPositive (Index.leg_amount leg0) = false
          <-> (-5 < 0 /\ -7 < 0)%Z).
Proof.
  split_and!; [lia|lia|reflexivity|reflexivity|].
  exact (second_leg_is_never_negative usdc_weth_pair (-5) (-7)
           ltac:(simpl; lia) ltac:(simpl; lia) eq_refl eq_refl).
Defined.

(** A token that reports 81 decimals: [formatUnits] throws and the log is
    not decoded. *)
Example token_with_81_decimals_is_rejected :
  Index.decode_legs (D:=DecimalJS.t) odd_pair (Some (-1500000)%Z)
    (Some 500000000000000%Z)
  = Throw (TypeError "invalid FixedNumber decimals (too large)").
Proof. reflexivity. Qed.

(** Two negative deltas: leg 0 carries a negative amount. *)
Example both_deltas_negative :
  (fun legs => (DecimalJS.toString (Index.leg_amount legs.1),
                DecimalJS.toString (Index.leg_amount legs.2)))
    <$> (match Index.decode_legs (D:=DecimalJS.t) usdc_weth_pair
                 (Some (-5000000)%Z) (Some (-7000000000000000000)%Z) with
         | Done legs => Some legs
         | _ => None
         end)
  = Some ("-7", "5").
Proof. by vm_compute. Qed.

Lemma V2_log_is_paid_in_then_paid_out_witness :
  head (Index.topics v2_log) = Some Index.UNISWAP_V2_SWAP_EVENT
  /\ parseLog_V2 v2_log = Done (Some (0, 1000000, 400000000000000, 0)%Z)
  /\ 6 <= 80 /\ 18 <= 80
  /\ (0 <= 0 < 2 ^ 256)%Z /\ (0 <= 1000000 < 2 ^ 256)%Z
  /\ (0 <= 400000000000000 < 2 ^ 256)%Z
  /\ exists amounts,
      Index.decode_amounts parseLog_V3 parseLog_V2 v2_log (None, None)
      = Done amounts
      /\ exists leg0 leg1,
          Index.decode_legs usdc_weth_pair amounts.1 amounts.2
          = Done (leg0, leg1)
          /\ (leg0, leg1)
             = ({| Index.leg_symbol := "WETH";
                   Index.leg_amount := DecimalJS.ofUnits 1000000 18 |},
                {| Index.leg_symbol := "USDC";
                   Index.leg_amount := DecimalJS.ofUnits 400000000000000 6 |}).
Proof.
  assert (forall v, (0 <=? v)%Z && (v <? 2 ^ 256)%Z = true ->
                    (0 <= v < 2 ^ 256)%Z) as Hrange.
  { intros v [?%Z.leb_le ?%Z.ltb_lt]%andb_prop. by split. }
  split_and!; [reflexivity|reflexivity|lia|lia|by apply Hrange..|].
  exact (V2_log_is_paid_in_then_paid_out parseLog_V3 parseLog_V2 v2_log
           (None, None) usdc_weth_pair 0 1000000 400000000000000 0
           eq_refl eq_refl ltac:(simpl; lia) ltac:(simpl; lia)
           (Hrange 0%Z eq_refl) (Hrange 1000000%Z eq_refl)
           (Hrange 400000000000000%Z eq_refl) (Hrange 0%Z eq_refl)).
Defined.

(** *** The signature middleware *)

Lemma only_signed_requests_pass_witness :
  Webhook.headers signed_request !! "x-alchemy-signature"
  = Some (Webhook.HeaderString
            (toy_hmac "key" (toy_decode body_bytes "utf8")))
  /\ Webhook.validateAlchemySignature toy_hmac "key"
       (Webhook.addAlchemyContextToRequest toy_decode signed_request
          body_bytes None)
       fresh_response
     = {| Webhook.response := fresh_response; Webhook.next_called := true;
          Webhook.thrown := None |}.
Proof.
  split; [reflexivity|].
  apply (only_signed_requests_pass toy_hmac toy_decode "key" signed_request
           body_bytes None fresh_response).
  reflexivity.
Defined.

(** The same request under another key is answered 403. *)
Example wrong_key_is_rejected :
  Webhook.validateAlchemySignature toy_hmac "other"
    (Webhook.addAlchemyContextToRequest toy_decode signed_request
       body_bytes None)
    fresh_response
  = {| Webhook.response :=
         {| Webhook.statusCode := Some 403;
            Webhook.sent := Some Webhook.errMessage |};
       Webhook.next_called := false;
       Webhook.thrown := Some (Webhook.ThrownError Webhook.errMessage) |}.
Proof. reflexivity. Qed.

(** ** The earlier revision of [fillUSDAmounts] *)

Section Revision1Properties.

Context {D : Type} `{DecimalOps D}.

Implicit Types (graph : gmap string (list (Edge D))) (prices : gmap string D).
Implicit Types (e : Revision1.StampedEvent D).
Implicit Types (batch : list (Revision1.StampedEvent D)).

(** *** The graph *)

Lemma revision1_add_swap_edges_adj graph e graph' a :
  Revision1Pricing.add_swap_edges graph e = Done graph' ->
  adj_of graph' a
  = adj_of graph a
    ++ (filter (fun x => x.1 = a) (Revision1Pricing.swap_edges e)).*2.
Proof.
  unfold Revision1Pricing.add_swap_edges, Revision1Pricing.swap_edges.
  cbv zeta.
  destruct (amount (token0 (Revision1.event e))) as [a0|],
           (amount (token1 (Revision1.event e))) as [a1|];
    simpl; try discriminate.
  intros [= <-]. rewrite !adj_of_addEdge, <- app_assoc. f_equal.
  rewrite !filter_cons, filter_nil. simpl.
  repeat case_decide; done.
Qed.

Lemma revision1_build_graph_adj batch graph graph' a :
  Revision1Pricing.build_graph graph batch = Done graph' ->
  adj_of graph' a
  = adj_of graph a
    ++ (filter (fun x => x.1 = a) (Revision1Pricing.batch_edges batch)).*2.
Proof.
  revert graph. induction batch as [|e batch IH]; intros graph.
  - simpl. intros [= <-]. by rewrite app_nil_r.
  - change (Revision1Pricing.batch_edges (e :: batch))
      with (Revision1Pricing.swap_edges e
            ++ Revision1Pricing.batch_edges batch).
    simpl. intros (graph1 & Hadd & Hrest)%Outcome_bind_Done.
    rewrite (IH _ Hrest), (revision1_add_swap_edges_adj _ _ _ a Hadd).
    rewrite filter_app, fmap_app. by rewrite <- app_assoc.
Qed.

Lemma revision1_build_graph_elem batch graph' a (ed : Edge D) :
  Revision1Pricing.build_graph ∅ batch = Done graph' ->
  ed ∈ adj_of graph' a <-> (a, ed) ∈ Revision1Pricing.batch_edges batch.
Proof.
  intros Hb. rewrite (revision1_build_graph_adj _ _ _ a Hb).
  unfold adj_of at 1. rewrite lookup_empty. simpl.
  rewrite list_elem_of_fmap. split.
  - intros ([a' e'] & -> & [Ha ?]%list_elem_of_filter). simpl in *. by subst.
  - intros Hin. exists (a, ed). split; [done|].
    apply list_elem_of_filter. by split.
Qed.

Lemma revision1_build_graph_total batch graph :
  Forall (fun e => has_amounts (Revision1.event e)) batch ->
  exists graph', Revision1Pricing.build_graph graph batch = Done graph'.
Proof.
  intros Hall. revert graph.
  induction Hall as [|e batch ([a0 H0] & [a1 H1]) _ IH]; intros graph; simpl.
  - by eexists.
  - unfold Revision1Pricing.add_swap_edges. cbv zeta.
    rewrite H0, H1. simpl. apply IH.
Qed.

Lemma revision1_size_edge_targets batch :
  size (Revision1Pricing.edge_targets batch) <= 2 * length batch.
Proof.
  unfold Revision1Pricing.edge_targets.
  etrans; [apply size_list_to_set_le|].
  rewrite length_fmap.
  induction batch as [|e batch IH]; [simpl; lia|].
  change (Revision1Pricing.batch_edges (e :: batch))
    with (Revision1Pricing.swap_edges e
          ++ Revision1Pricing.batch_edges batch).
  rewrite length_app.
  assert (length (Revision1Pricing.swap_edges e) <= 2).
  { unfold Revision1Pricing.swap_edges. cbv zeta.
    destruct (amount (token0 (Revision1.event e))),
             (amount (token1 (Revision1.event e))); simpl; lia. }
  simpl. lia.
Qed.

Lemma revision1_build_graph_targets batch graph :
  Revision1Pricing.build_graph ∅ batch = Done graph ->
  targets_in graph (Revision1Pricing.edge_targets batch).
Proof.
  intros Hb a ed He. apply (revision1_build_graph_elem _ _ _ _ Hb) in He.
  unfold Revision1Pricing.edge_targets.
  apply elem_of_list_to_set, list_elem_of_fmap. by exists (a, ed).
Qed.

Lemma revision1_swap_edge batch e :
  e ∈ batch -> has_amounts (Revision1.event e) ->
  Revision1Pricing.edge batch (symbol (token0 (Revision1.event e)))
    (symbol (token1 (Revision1.event e)))
  /\ Revision1Pricing.edge batch (symbol (token1 (Revision1.event e)))
       (symbol (token0 (Revision1.event e))).
Proof.
  intros Hin [[a0 Ha0] [a1 Ha1]].
  split.
  - exists {| edge_symbol := symbol (token1 (Revision1.event e));
              ratio := dividedBy a0 a1 |}.
    split; [|done]. apply list_elem_of_bind. exists e. split; [|done].
    unfold Revision1Pricing.swap_edges. cbv zeta. rewrite Ha0, Ha1.
    apply elem_of_cons. by left.
  - exists {| edge_symbol := symbol (token0 (Revision1.event e));
              ratio := dividedBy a1 a0 |}.
    split; [|done]. apply list_elem_of_bind. exists e. split; [|done].
    unfold Revision1Pricing.swap_edges. cbv zeta. rewrite Ha0, Ha1.
    apply elem_of_cons. right. apply elem_of_cons. by left.
Qed.

(** *** The seeds and the traversal *)

Lemma revision1_seed_is_Some (ETH2USD : D) a :
  is_Some (Revision1Pricing.seed_prices ETH2USD !! a)
  <-> a ∈ Revision1Pricing.anchors.
Proof.
  unfold Revision1Pricing.seed_prices, Revision1Pricing.anchors.
  rewrite !elem_of_cons, elem_of_nil.
  destruct (decide (a = "USDC")) as [->|HC].
  { rewrite lookup_insert_eq. split; [by left|by eexists]. }
  rewrite lookup_insert_ne by done.
  destruct (decide (a = "USDT")) as [->|HT].
  { rewrite lookup_insert_eq. split; [by right; left|by eexists]. }
  rewrite lookup_insert_ne by done.
  destruct (decide (a = "WETH")) as [->|HW].
  { rewrite lookup_insert_eq. split; [by right; right; left|by eexists]. }
  rewrite lookup_insert_ne by done. rewrite lookup_empty.
  split; [by intros [? ?]|]. intros [?|[?|[?|[]]]]; done.
Qed.

Lemma revision1_closed_reachable batch graph prices a b :
  Revision1Pricing.build_graph ∅ batch = Done graph ->
  closed graph prices ->
  rtc (Revision1Pricing.edge batch) a b ->
  is_Some (prices !! a) -> is_Some (prices !! b).
Proof.
  intros Hg Hcl Hconn. induction Hconn as [|a b c (ed & He & <-) _ IH]; [done|].
  intros Ha. apply IH. apply (Hcl a Ha).
  by apply (revision1_build_graph_elem _ _ _ _ Hg).
Qed.

(** The graph and the traversal: the priced symbols are those that
    edges of the batch join to one of the three anchors. *)
Lemma revision1_traversal batch ETH2USD :
  Forall (fun e => has_amounts (Revision1.event e)) batch ->
  exists graph prices,
    Revision1Pricing.build_graph ∅ batch = Done graph
    /\ traverse (Revision1Pricing.traverse_fuel batch) graph
         (Revision1Pricing.seed_prices ETH2USD) Revision1Pricing.anchors
       = Done prices
    /\ Revision1Pricing.seed_prices ETH2USD ⊆ prices
    /\ forall a, is_Some (prices !! a) <-> Revision1Pricing.reachable batch a.
Proof.
  intros Hall.
  destruct (revision1_build_graph_total batch ∅ Hall) as [graph Hg].
  destruct (traverse_spec graph (Revision1Pricing.edge_targets batch)
              (fun a _ => Revision1Pricing.reachable batch a)
              (revision1_build_graph_targets _ _ Hg))
    with (fuel := Revision1Pricing.traverse_fuel batch)
         (prices := Revision1Pricing.seed_prices ETH2USD)
         (stk := Revision1Pricing.anchors)
    as (prices & Hrun & Hsub & Hcl & HR).
  - intros a pa ed (anchor & Hanchor & Hconn) He.
    exists anchor. split; [done|]. eapply rtc_r; [exact Hconn|].
    exists ed. split; [|done].
    by apply (revision1_build_graph_elem _ _ _ _ Hg).
  - intros a Ha. exact (proj2 (revision1_seed_is_Some ETH2USD a) Ha).
  - unfold Revision1Pricing.traverse_fuel.
    pose proof (revision1_size_edge_targets batch).
    pose proof (size_difference_le (Revision1Pricing.edge_targets batch)
                  (dom (Revision1Pricing.seed_prices ETH2USD))).
    lia.
  - exists graph, prices. split_and!; try done.
    assert (closed graph prices) as Hclosed.
    { apply Hcl. intros a Ha. left.
      exact (proj1 (revision1_seed_is_Some ETH2USD a) Ha). }
    intros a. split.
    + intros [q Hq].
      destruct (Revision1Pricing.seed_prices ETH2USD !! a) as [q0|] eqn:Hseed.
      * exists a. split; [|done].
        apply (proj1 (revision1_seed_is_Some ETH2USD a)). by eexists.
      * apply (HR ltac:(by intros a0 ? Ha0 _; exists a0) a q Hseed Hq).
    + intros (anchor & Hanchor & Hconn).
      eapply revision1_closed_reachable; [exact Hg|exact Hclosed|exact Hconn|].
      destruct (proj2 (revision1_seed_is_Some ETH2USD anchor) Hanchor)
        as [q Hq].
      exists q. by eapply lookup_weaken.
Qed.

(** *** The second loop *)

Lemma revision1_apply_leg prices (leg : Leg D) :
  is_Some (amount leg) ->
  Revision1Pricing.apply_leg prices leg
  = Done (Revision1Pricing.priced_leg prices leg).
Proof.
  intros [x Hx]. unfold Revision1Pricing.apply_leg,
    Revision1Pricing.priced_leg, assign_usd, js_times.
  destruct (prices !! symbol leg); [|done]. by rewrite Hx.
Qed.

Lemma revision1_price_events prices batch :
  Forall (fun e => has_amounts (Revision1.event e)) batch ->
  Revision1Pricing.price_events prices batch
  = Done (Revision1Pricing.enriched prices <$> batch).
Proof.
  induction 1 as [|e batch [Ha0 Ha1] _ IH]; [done|].
  simpl. unfold Revision1Pricing.apply_prices.
  rewrite (revision1_apply_leg _ _ Ha0), bind_Done.
  rewrite (revision1_apply_leg _ _ Ha1), bind_Done.
  rewrite bind_Done, IH. reflexivity.
Qed.

Lemma revision1_price_batch_run batch ETH2USD :
  Forall (fun e => decoded (Revision1.event e)) batch ->
  exists prices,
    Revision1Pricing.price_batch batch ETH2USD
    = Done (Revision1Pricing.enriched prices <$> batch, prices)
    /\ forall a, is_Some (prices !! a)
                 <-> Revision1Pricing.reachable batch a.
Proof.
  intros Hdec.
  assert (Forall (fun e => has_amounts (Revision1.event e)) batch) as Hall.
  { eapply Forall_impl; [exact Hdec|]. by intros e [? _]. }
  destruct (revision1_traversal batch ETH2USD Hall)
    as (graph & prices & Hg & Htr & _ & Hreach).
  exists prices. split; [|done].
  unfold Revision1Pricing.price_batch.
  rewrite Hg, bind_Done, Htr, bind_Done.
  by rewrite (revision1_price_events prices batch Hall).
Qed.

(** X19.  In the earlier revision each leg is priced on its own: pricing ends
    without an exception, the priced symbols are exactly those that
    edges of the batch join to [USDC], [USDT] or [WETH], and a leg has
    its USD fields iff its own symbol is priced, whatever the other leg
    is. *)
Theorem revision1_prices_each_leg_on_its_own batch ETH2USD :
  Forall (fun e => decoded (Revision1.event e)) batch ->
  exists events prices,
    Revision1Pricing.price_batch batch ETH2USD = Done (events, prices)
    /\ length events = length batch
    /\ (forall a, is_Some (prices !! a)
                  <-> Revision1Pricing.reachable batch a)
    /\ forall i e, batch !! i = Some e ->
         exists e',
           events !! i = Some e'
           /\ value_in_usd (token0 (Revision1.event e'))
              = prices !! symbol (token0 (Revision1.event e))
           /\ value_in_usd (token1 (Revision1.event e'))
              = prices !! symbol (token1 (Revision1.event e))
           /\ total_exchanged_usd (token0 (Revision1.event e'))
              = (p ← prices !! symbol (token0 (Revision1.event e));
                 times p <$> amount (token0 (Revision1.event e)))
           /\ total_exchanged_usd (token1 (Revision1.event e'))
              = (p ← prices !! symbol (token1 (Revision1.event e));
                 times p <$> amount (token1 (Revision1.event e))).
Proof.
  intros Hdec.
  destruct (revision1_price_batch_run batch ETH2USD Hdec)
    as (prices & Hrun & Hreach).
  exists (Revision1Pricing.enriched prices <$> batch), prices.
  split_and!; [done|by rewrite length_fmap|done|].
  intros i e Hi. exists (Revision1Pricing.enriched prices e).
  split; [by rewrite list_lookup_fmap, Hi|].
  assert (decoded (Revision1.event e)) as (_ & Hv0 & Ht0 & Hv1 & Ht1).
  { rewrite Forall_forall in Hdec. apply Hdec.
    by eapply list_elem_of_lookup_2. }
  unfold Revision1Pricing.enriched, Revision1Pricing.priced_leg. simpl.
  destruct (prices !! symbol (token0 (Revision1.event e)));
    destruct (prices !! symbol (token1 (Revision1.event e))); simpl;
    by rewrite ?Hv0, ?Ht0, ?Hv1, ?Ht1.
Qed.

(** *** The batch as a whole *)

Context (client_query : nat -> list SqlParam -> option JsError).

Lemma revision1_printable_or_not e :
  Revision1.printable e \/ ~ Revision1.printable e.
Proof.
  unfold Revision1.printable.
  destruct (amount (token0 (Revision1.event e)));
    [|right; by intros ([? ?] & _)].
  destruct (value_in_usd (token0 (Revision1.event e)));
    [|right; by intros (_ & [? ?] & _)].
  destruct (total_exchanged_usd (token0 (Revision1.event e)));
    [|right; by intros (_ & _ & [? ?] & _)].
  destruct (amount (token1 (Revision1.event e)));
    [|right; by intros (_ & _ & _ & [? ?] & _)].
  destruct (value_in_usd (token1 (Revision1.event e)));
    [|right; by intros (_ & _ & _ & _ & [? ?] & _)].
  destruct (total_exchanged_usd (token1 (Revision1.event e)));
    [|right; by intros (_ & _ & _ & _ & _ & [? ?])].
  left. by split_and!.
Qed.

Lemma revision1_persist_raises ETH2USD
    (events : list (Revision1.StampedEvent D)) e :
  e ∈ events -> ~ Revision1.printable e ->
  forall sink,
    Revision1.persist client_query ETH2USD events sink
    = Throw (TypeError "reading 'toString' of undefined").
Proof.
  intros Hin Hno.
  induction events as [|e0 events IH]; [by apply elem_of_nil in Hin|].
  intros sink.
  destruct (revision1_printable_or_not e0) as [Hp|Hp].
  - apply elem_of_cons in Hin as [->|Hin]; [done|].
    destruct (revision1_row_values_printable ETH2USD e0 Hp)
      as (values & Hvalues & _).
    simpl. unfold Revision1.persist_row. rewrite Hvalues, bind_Done.
    unfold await_query, try_catch.
    destruct (client_query _ _); rewrite bind_Done; by apply IH.
  - by apply revision1_unpriced_row_raises.
Qed.

(** X20.  In the earlier revision a single token that no edge joins to
    [USDC], [USDT] or [WETH] makes [fillUSDAmounts] throw: its leg has
    no USD fields and the row is built with a bare [.toString()],
    outside the [try]. *)
Theorem revision1_unreachable_token_rejects_the_batch batch ETH2USD e :
  Forall (fun e => decoded (Revision1.event e)) batch ->
  e ∈ batch ->
  ~ Revision1Pricing.reachable batch (symbol (token0 (Revision1.event e)))
  \/ ~ Revision1Pricing.reachable batch (symbol (token1 (Revision1.event e))) ->
  Revision1Pricing.fillUSDAmounts client_query batch ETH2USD
  = Throw (TypeError "reading 'toString' of undefined").
Proof.
  intros Hdec Hin Hun.
  destruct (revision1_price_batch_run batch ETH2USD Hdec)
    as (prices & Hrun & Hreach).
  unfold Revision1Pricing.fillUSDAmounts.
  destruct batch as [|e0 batch]; [by apply elem_of_nil in Hin|].
  rewrite Hrun, bind_Done. cbv beta iota.
  rewrite (revision1_persist_raises ETH2USD _
             (Revision1Pricing.enriched prices e)); [done| |].
  - apply list_elem_of_fmap. by exists e.
  - assert (decoded (Revision1.event e)) as (_ & Hv0 & _ & Hv1 & _).
    { rewrite Forall_forall in Hdec. by apply Hdec. }
    intros (_ & [p0 Hp0] & _ & _ & [p1 Hp1] & _).
    unfold Revision1Pricing.enriched, Revision1Pricing.priced_leg in Hp0, Hp1.
    simpl in Hp0, Hp1.
    destruct Hun as [Hun|Hun]; apply Hun, Hreach.
    + destruct (prices !! symbol (token0 (Revision1.event e))); [by eexists|].
      congruence.
    + destruct (prices !! symbol (token1 (Revision1.event e))); [by eexists|].
      congruence.
Qed.

End Revision1Properties.

(** *** The earlier revision on concrete batches *)

Import Cases.

Lemma decoded_stamped_usdc_xtk_foo_bar :
  Forall (fun e => decoded (Revision1.event e)) [stamp usdc_xtk; stamp foo_bar].
Proof.
  repeat (apply Forall_cons_2; [by repeat split; try eexists|]).
  apply Forall_nil_2.
Qed.

Lemma revision1_prices_each_leg_on_its_own_witness :
  Forall (fun e => decoded (Revision1.event e)) [stamp usdc_xtk; stamp foo_bar]
  /\ exists events prices,
      Revision1Pricing.price_batch [stamp usdc_xtk; stamp foo_bar] ETH2USD
      = Done (events, prices)
      /\ length events = 2
      /\ (forall a, is_Some (prices !! a)
                    <-> Revision1Pricing.reachable
                          [stamp usdc_xtk; stamp foo_bar] a)
      /\ exists e',
           events !! 0 = Some e'
           /\ value_in_usd (token0 (Revision1.event e')) = prices !! "USDC"
           /\ value_in_usd (token1 (Revision1.event e')) = prices !! "XTK".
Proof.
  split; [exact decoded_stamped_usdc_xtk_foo_bar|].
  destruct (revision1_prices_each_leg_on_its_own
              [stamp usdc_xtk; stamp foo_bar] ETH2USD
              decoded_stamped_usdc_xtk_foo_bar)
    as (events & prices & Hrun & Hlen & Hreach & Hlegs).
  exists events, prices. split_and!; [exact Hrun|exact Hlen|exact Hreach|].
  destruct (Hlegs 0 (stamp usdc_xtk) eq_refl) as (e' & He' & Hv0 & Hv1 & _).
  exists e'. split_and!; [exact He'|exact Hv0|exact Hv1].
Defined.

(** In the earlier revision [XTK] is priced through [USDC]; [FOO] and
    [BAR] have no price and their legs no USD fields. *)
Example revision1_prices_of_a_batch :
  exists events prices,
    Revision1Pricing.price_batch [stamp usdc_xtk; stamp foo_bar] ETH2USD
    = Done (events, prices)
    /\ prices !! "XTK" = Some (dec 2) /\ prices !! "FOO" = None
    /\ (fun e => value_in_usd (token1 (Revision1.event e))) <$> events
       = [Some (dec 2); None].
Proof. eexists _, _. split; [by vm_compute|]. by vm_compute. Qed.

Lemma FOO_is_not_reachable :
  ~ Revision1Pricing.reachable [stamp usdc_xtk; stamp foo_bar] "FOO".
Proof.
  destruct (revision1_price_batch_run [stamp usdc_xtk; stamp foo_bar] ETH2USD
              decoded_stamped_usdc_xtk_foo_bar) as (prices & Hrun & Hreach).
  intros [q Hq]%Hreach.
  assert (match Revision1Pricing.price_batch
                  [stamp usdc_xtk; stamp foo_bar] ETH2USD with
          | Done (_, p) => p !! "FOO"
          | _ => None
          end = None) as Hnone by (by vm_compute).
  rewrite Hrun in Hnone. cbv beta iota in Hnone. congruence.
Qed.

Lemma revision1_unreachable_token_rejects_the_batch_witness :
  Forall (fun e => decoded (Revision1.event e)) [stamp usdc_xtk; stamp foo_bar]
  /\ stamp foo_bar ∈ [stamp usdc_xtk; stamp foo_bar]
  /\ ~ Revision1Pricing.reachable [stamp usdc_xtk; stamp foo_bar] "FOO"
  /\ Revision1Pricing.fillUSDAmounts second_row_fails
       [stamp usdc_xtk; stamp foo_bar] ETH2USD
     = Throw (TypeError "reading 'toString' of undefined").
Proof.
  assert (stamp foo_bar ∈ [stamp usdc_xtk; stamp foo_bar]) as Hin
    by (apply elem_of_cons; right; apply elem_of_cons; by left).
  split_and!; [exact decoded_stamped_usdc_xtk_foo_bar|exact Hin
              |exact FOO_is_not_reachable|].
  exact (revision1_unreachable_token_rejects_the_batch second_row_fails
           [stamp usdc_xtk; stamp foo_bar] ETH2USD (stamp foo_bar)
           decoded_stamped_usdc_xtk_foo_bar Hin
           (or_introl FOO_is_not_reachable)).
Defined.

Lemma printable_priced_usdc_xtk : Revision1.printable priced_usdc_xtk.
Proof. by repeat split; eexists. Qed.

Lemma revision1_printable_rows_are_attempted_witness :
  Forall Revision1.printable [priced_usdc_xtk; priced_usdc_xtk; priced_usdc_xtk]
  /\ exists sink',
      Revision1.persist second_row_fails ETH2USD
        [priced_usdc_xtk; priced_usdc_xtk; priced_usdc_xtk] empty_sink
      = Done sink'
      /\ length (attempted sink') = 3
      /\ length (saved sink') + length (console_error sink') = 3.
Proof.
  assert (Forall Revision1.printable
            [priced_usdc_xtk; priced_usdc_xtk; priced_usdc_xtk]) as Hall.
  { repeat (apply Forall_cons_2; [exact printable_priced_usdc_xtk|]).
    apply Forall_nil_2. }
  split; [exact Hall|].
  exact (revision1_printable_rows_are_attempted second_row_fails ETH2USD
           [priced_usdc_xtk; priced_usdc_xtk; priced_usdc_xtk] empty_sink Hall).
Defined.

(** The second write fails, the loop goes on: two rows saved, one error
    logged. *)
Example revision1_second_row_fails :
  exists sink,
    Revision1.persist second_row_fails ETH2USD
      [priced_usdc_xtk; priced_usdc_xtk; priced_usdc_xtk] empty_sink
    = Done sink
    /\ length (attempted sink) = 3 /\ length (saved sink) = 2
    /\ console_error sink = [ExternalError "connection reset"].
Proof. eexists. split; [by vm_compute|]. by vm_compute. Qed.
